(** * route-recognizer: a shallow embedding and its verified properties

    The program is the [route-recognizer] module vendored by the router:
    segments with regular-expression fragments, a trie of states keyed by
    anchored fragments, [recognize], [generate], the matrix-query codec and
    the route DSL of [map].

    JavaScript strings are lists of characters; objects that are only read
    and written by key are finite maps ([gmap]); objects that are enumerated
    with [for (k in o)] are association lists in enumeration order; the
    states of the trie live in a store indexed by position, a reference to a
    state being its index.

    A plain object inherits the properties of [Object.prototype], and its
    property [__proto__] is that link: the registry of names, the [params]
    and the query objects are read and written with this in view. The
    matchers of the route DSL hold their paths as lists of own properties
    in the order of creation, which is what the objects of the program hold
    when the paths are ordinary ([ordinary_path]); the properties that
    depend on it assume it. *)

From Stdlib Require Import Ascii String.
From stdpp Require Import gmap strings list fin_maps.

Set Warnings "-register-all".
Local Open Scope list_scope.

(** ** JavaScript strings *)

Module JsString.

(** A literal. *)
Definition str (s : string) : list ascii := list_ascii_of_string s.

(** [s.charAt(0) === c] *)
Definition starts_with (c : ascii) (s : list ascii) : bool :=
  match s with
  | x :: _ => bool_decide (x = c)
  | [] => false
  end.

(** [s.charAt(i) === c]; [charAt] out of range is the empty string, which
    is never equal to a one-character string. *)
Definition char_at_is (i : nat) (c : ascii) (s : list ascii) : bool :=
  match s !! i with
  | Some x => bool_decide (x = c)
  | None => false
  end.

(** [s.split(sep)] for a one-character separator: never empty, the empty
    string splits into one empty piece. *)
Fixpoint split (sep : ascii) (s : list ascii) : list (list ascii) :=
  match s with
  | [] => [[]]
  | c :: s' =>
      if bool_decide (c = sep) then [] :: split sep s'
      else match split sep s' with
           | p :: ps => (c :: p) :: ps
           | [] => [[c]]
           end
  end.

(** [pieces.join(sep)] *)
Fixpoint join (sep : list ascii) (pieces : list (list ascii)) : list ascii :=
  match pieces with
  | [] => []
  | [p] => p
  | p :: ps => p ++ sep ++ join sep ps
  end.

(** [s] begins with [pat]; gives what follows. *)
Fixpoint strip_prefix (pat s : list ascii) : option (list ascii) :=
  match pat, s with
  | [], _ => Some s
  | p :: pat', c :: s' =>
      if bool_decide (p = c) then strip_prefix pat' s' else None
  | _ :: _, [] => None
  end.

(** [s.replace(pat, rep)] with a string pattern: the first occurrence
    only. The replacement texts of this program hold no [$]. *)
Fixpoint replace_first (pat rep s : list ascii) : list ascii :=
  match strip_prefix pat s with
  | Some rest => rep ++ rest
  | None =>
      match s with
      | [] => []
      | c :: s' => c :: replace_first pat rep s'
      end
  end.

End JsString.
Import JsString.

(** ** Regular expressions

    The engine [RegExp] belongs to the language, not to the program. It is
    modelled for the syntax the program writes: literal characters, identity
    escapes, [^] and [$], [.], character classes without ranges, capturing
    and [(?:] groups, and the greedy quantifiers [+], [*] and [?]. Matching
    is the backtracking search of the language: greedy, leftmost, with the
    captures of a repeated atom cleared at each iteration and an iteration
    that consumes nothing refused. *)

Module RegExp.

Inductive re : Type :=
| RChar (c : ascii)
| RAny
| RSet (neg : bool) (cs : list ascii)
| RBol
| REol
| RGroup (i : nat) (body : list re)
| RNonCap (body : list re)
| RPlus (r : re)
| RStar (r : re)
| ROpt (r : re).

(** *** Compilation of a pattern text *)

Inductive pmode : Type :=
| PNormal
| PEscape
| PGroupOpen
| PGroupQ
| PClassStart
| PClass (neg : bool) (cs : list ascii)
| PClassEscape (neg : bool) (cs : list ascii).

(** [cur] is the sequence being read, last atom first; [stack] holds, for
    every group still open, its capture index if it captures and the
    sequence that was being read when it opened. *)
Record pstate : Type := PState {
  mode : pmode;
  cur : list re;
  stack : list (option nat * list re);
  ngroups : nat
}.

Definition pinit : pstate := PState PNormal [] [] 0.

(** Characters that [\] may precede to stand for themselves. *)
Definition syntax_chars : list ascii :=
  str "^$\.*+?()[]{}|/".

Definition push (a : re) (st : pstate) : pstate :=
  PState PNormal (a :: cur st) (stack st) (ngroups st).

Definition quantify (q : re -> re) (st : pstate) : option pstate :=
  match cur st with
  | RChar c :: rest => Some (PState PNormal (q (RChar c) :: rest) (stack st) (ngroups st))
  | RAny :: rest => Some (PState PNormal (q RAny :: rest) (stack st) (ngroups st))
  | RSet n cs :: rest => Some (PState PNormal (q (RSet n cs) :: rest) (stack st) (ngroups st))
  | RGroup i b :: rest => Some (PState PNormal (q (RGroup i b) :: rest) (stack st) (ngroups st))
  | RNonCap b :: rest => Some (PState PNormal (q (RNonCap b) :: rest) (stack st) (ngroups st))
  | _ => None
  end.

Definition close_group (st : pstate) : option pstate :=
  match stack st with
  | (Some i, saved) :: stk =>
      Some (PState PNormal (RGroup i (rev (cur st)) :: saved) stk (ngroups st))
  | (None, saved) :: stk =>
      Some (PState PNormal (RNonCap (rev (cur st)) :: saved) stk (ngroups st))
  | [] => None
  end.

Definition step_normal (st : pstate) (c : ascii) : option pstate :=
  if bool_decide (c = "\"%char) then Some (PState PEscape (cur st) (stack st) (ngroups st))
  else if bool_decide (c = "("%char) then Some (PState PGroupOpen (cur st) (stack st) (ngroups st))
  else if bool_decide (c = ")"%char) then close_group st
  else if bool_decide (c = "["%char) then Some (PState PClassStart (cur st) (stack st) (ngroups st))
  else if bool_decide (c = "."%char) then Some (push RAny st)
  else if bool_decide (c = "^"%char) then Some (push RBol st)
  else if bool_decide (c = "$"%char) then Some (push REol st)
  else if bool_decide (c = "+"%char) then quantify RPlus st
  else if bool_decide (c = "*"%char) then quantify RStar st
  else if bool_decide (c = "?"%char) then quantify ROpt st
  else if bool_decide (c ∈ str "|{}]") then None
  else Some (push (RChar c) st).

Definition step_class (neg : bool) (cs : list ascii) (st : pstate) (c : ascii)
  : option pstate :=
  if bool_decide (c = "]"%char) then Some (push (RSet neg (rev cs)) st)
  else if bool_decide (c = "\"%char) then
    Some (PState (PClassEscape neg cs) (cur st) (stack st) (ngroups st))
  else if bool_decide (c = "-"%char) then None
  else Some (PState (PClass neg (c :: cs)) (cur st) (stack st) (ngroups st)).

Definition step (st : pstate) (c : ascii) : option pstate :=
  match mode st with
  | PNormal => step_normal st c
  | PEscape =>
      if bool_decide (c ∈ syntax_chars) then Some (push (RChar c) st) else None
  | PGroupOpen =>
      if bool_decide (c = "?"%char) then
        Some (PState PGroupQ (cur st) (stack st) (ngroups st))
      else
        step_normal
          (PState PNormal [] ((Some (S (ngroups st)), cur st) :: stack st)
             (S (ngroups st))) c
  | PGroupQ =>
      if bool_decide (c = ":"%char) then
        Some (PState PNormal [] ((None, cur st) :: stack st) (ngroups st))
      else None
  | PClassStart =>
      if bool_decide (c = "^"%char) then
        Some (PState (PClass true []) (cur st) (stack st) (ngroups st))
      else step_class false [] st c
  | PClass neg cs => step_class neg cs st c
  | PClassEscape neg cs =>
      if bool_decide (c ∈ syntax_chars) then
        Some (PState (PClass neg (c :: cs)) (cur st) (stack st) (ngroups st))
      else None
  end.

Fixpoint run (st : pstate) (s : list ascii) : option pstate :=
  match s with
  | [] => Some st
  | c :: s' =>
      match step st c with
      | Some st' => run st' s'
      | None => None
      end
  end.

(** A compiled expression: its text, its atoms in order, and the number
    of capturing groups. *)
Record regexp : Type := Build_regexp {
  source : list ascii;
  prog : list re;
  groups : nat
}.

Definition finish (src : list ascii) (st : pstate) : option regexp :=
  match mode st, stack st with
  | PNormal, [] => Some (Build_regexp src (rev (cur st)) (ngroups st))
  | _, _ => None
  end.

(** [new RegExp(src)]; [None] is a pattern outside the modelled syntax
    (for the engine, a [SyntaxError] or a construct not modelled). *)
Definition compile (src : list ascii) : option regexp :=
  match run pinit src with
  | Some st => finish src st
  | None => None
  end.

(** *** Matching *)

(** Position in the subject (for [^]), what is left of it, and the
    captures so far, numbered from 0 for the first group. *)
Record mstate : Type := MState {
  pos : nat;
  rest : list ascii;
  caps : list (option (list ascii))
}.

Definition advance (st : mstate) (xs : list ascii) : mstate :=
  MState (S (pos st)) xs (caps st).

Definition line_terminator (c : ascii) : bool :=
  bool_decide (c = "010"%char) || bool_decide (c = "013"%char).

Definition set_cap (i : nat) (from : mstate) (st : mstate) : mstate :=
  MState (pos st) (rest st)
    (<[pred i := Some (take (length (rest from) - length (rest st)) (rest from))]>
       (caps st)).

Fixpoint group_ids (r : re) : list nat :=
  match r with
  | RGroup i body => i :: flat_map group_ids body
  | RNonCap body => flat_map group_ids body
  | RPlus r | RStar r | ROpt r => group_ids r
  | _ => []
  end.

Definition clear_caps (ids : list nat) (st : mstate) : mstate :=
  MState (pos st) (rest st)
    (foldr (fun i cs => <[pred i := None]> cs) (caps st) ids).

Definition consumed (from st : mstate) : bool :=
  bool_decide (length (rest st) < length (rest from)).

Section Match.
Context {R : Type}.

(** Zero or more iterations of [body], at most [fuel] of them; each one
    must consume input, so the length of the subject bounds them. *)
Fixpoint repeat_match
  (body : mstate -> (mstate -> option R) -> option R)
  (fuel : nat) (st : mstate) (k : mstate -> option R) : option R :=
  match fuel with
  | 0 => k st
  | S fuel' =>
      match body st (fun st' =>
                       if consumed st st' then repeat_match body fuel' st' k
                       else None) with
      | Some r => Some r
      | None => k st
      end
  end.

Fixpoint m (r : re) (st : mstate) (k : mstate -> option R) {struct r}
  : option R :=
  match r with
  | RChar c =>
      match rest st with
      | x :: xs => if bool_decide (x = c) then k (advance st xs) else None
      | [] => None
      end
  | RAny =>
      match rest st with
      | x :: xs => if line_terminator x then None else k (advance st xs)
      | [] => None
      end
  | RSet neg cs =>
      match rest st with
      | x :: xs =>
          if xorb neg (bool_decide (x ∈ cs)) then k (advance st xs) else None
      | [] => None
      end
  | RBol => if bool_decide (pos st = 0) then k st else None
  | REol => match rest st with [] => k st | _ :: _ => None end
  | RGroup i body =>
      (fix mseq (rs : list re) (st' : mstate) (k' : mstate -> option R) :=
         match rs with
         | [] => k' st'
         | r' :: rs' => m r' st' (fun st'' => mseq rs' st'' k')
         end) body st (fun st' => k (set_cap i st st'))
  | RNonCap body =>
      (fix mseq (rs : list re) (st' : mstate) (k' : mstate -> option R) :=
         match rs with
         | [] => k' st'
         | r' :: rs' => m r' st' (fun st'' => mseq rs' st'' k')
         end) body st k
  | RPlus r' =>
      m r' (clear_caps (group_ids r') st)
        (fun st' =>
           repeat_match (fun s k' => m r' (clear_caps (group_ids r') s) k')
             (length (rest st')) st' k)
  | RStar r' =>
      repeat_match (fun s k' => m r' (clear_caps (group_ids r') s) k')
        (length (rest st)) st k
  | ROpt r' =>
      match m r' (clear_caps (group_ids r') st)
              (fun st' => if consumed st st' then k st' else None) with
      | Some x => Some x
      | None => k st
      end
  end.

Fixpoint mseq (rs : list re) (st : mstate) (k : mstate -> option R)
  : option R :=
  match rs with
  | [] => k st
  | r :: rs' => m r st (fun st' => mseq rs' st' k)
  end.
End Match.

(** The array a successful match gives: the matched text, then one entry
    per group, [None] for a group that took no part ([undefined]). *)
Definition match_at (p : regexp) (i : nat) (s : list ascii)
  : option (list (option (list ascii))) :=
  let st0 := MState i s (replicate (groups p) None) in
  mseq (prog p) st0
    (fun st => Some (Some (take (length s - length (rest st)) s) :: caps st)).

(** Leftmost match: every start position in turn. *)
Fixpoint search (p : regexp) (i : nat) (s : list ascii)
  : option (list (option (list ascii))) :=
  match match_at p i s with
  | Some r => Some r
  | None =>
      match s with
      | [] => None
      | _ :: s' => search p (S i) s'
      end
  end.

(** [s.match(p)] for an expression without the [g] flag; [None] is
    [null]. *)
Definition exec (p : regexp) (s : list ascii)
  : option (list (option (list ascii))) :=
  search p 0 s.

End RegExp.
Import RegExp.

(** ** Values, exceptions *)

(** The values the program handles: [undefined], booleans, strings, and
    objects or functions, of which only the text they convert to is used. *)
Inductive value : Type :=
| VUndefined
| VBool (b : bool)
| VStr (s : list ascii)
| VObject (text : list ascii).

Definition truthy (v : value) : bool :=
  match v with
  | VUndefined => false
  | VBool b => b
  | VStr s => negb (bool_decide (s = []))
  | VObject _ => true
  end.

(** [v + ''] *)
Definition to_string (v : value) : list ascii :=
  match v with
  | VUndefined => str "undefined"
  | VBool true => str "true"
  | VBool false => str "false"
  | VStr s => s
  | VObject text => text
  end.

(** ** Plain objects

    An object made by [{}] inherits from [Object.prototype]: reading a
    property it does not own gives what [Object.prototype] has under that
    name, and assigning to [__proto__] calls the inherited setter, which
    replaces the prototype when it is given an object and does nothing
    otherwise. The maps of the model hold the own properties. *)

Definition proto_key : list ascii := str "__proto__".

(** The names of the properties of [Object.prototype]. *)
Definition Object_prototype : list (list ascii) :=
  [str "constructor"; str "hasOwnProperty"; str "isPrototypeOf";
   str "propertyIsEnumerable"; str "toLocaleString"; str "toString"; str "valueOf";
   str "__defineGetter__"; str "__defineSetter__"; str "__lookupGetter__";
   str "__lookupSetter__"; proto_key].

Definition inherited (name : list ascii) : bool :=
  bool_decide (name ∈ Object_prototype).

(** What [Object.prototype] has under a name: itself under [__proto__],
    a function under the others. The text of a function is the one of V8;
    the language leaves it to the implementation. *)
Definition inherited_value (name : list ascii) : value :=
  if bool_decide (name = proto_key) then VObject (str "[object Object]")
  else if bool_decide (name = str "constructor")
       then VObject (str "function Object() { [native code] }")
       else VObject (str "function " ++ name ++ str "() { [native code] }").

(** [o[k]], for an object whose prototype is [Object.prototype]. *)
Definition get (k : list ascii) (o : gmap (list ascii) value) : value :=
  match o !! k with
  | Some v => v
  | None => if inherited k then inherited_value k else VUndefined
  end.

(** [o[k] = v], [v] a string, a boolean or [undefined]: under [__proto__]
    the setter ignores it. *)
Definition assign (k : list ascii) (v : value) (o : gmap (list ascii) value)
  : gmap (list ascii) value :=
  if bool_decide (k = proto_key) then o else <[k := v]> o.

Inductive exn : Type :=
| Error (msg : list ascii)
| TypeError
| SyntaxError.

Inductive outcome (A : Type) : Type :=
| Ok (a : A)
| Throw (e : exn).
Arguments Ok {A} a.
Arguments Throw {A} e.

(** ** Segments *)

Definition specials : list ascii := str "/.*+?|()[]{}\".

(** [s.replace(escapeRegex, '\\$1')]: [escapeRegex] is the global
    alternation of the escaped [specials], one character each, so every
    special character gets a backslash before it. *)
Definition escape (s : list ascii) : list ascii :=
  flat_map (fun c => if bool_decide (c ∈ specials) then ["\"%char; c] else [c]) s.

Definition queryRegex : list ascii := str "(?:;([^/]*))?".

Inductive segment_kind : Type :=
| StaticSegment (string : list ascii)
| EpsilonSegment
| DynamicSegment (name : list ascii)
| StarSegment (name : list ascii).

(** A segment object: its kind and its [query] property, [None] until
    [add] sets it to a handler. *)
Record Segment : Type := Build_Segment {
  kind : segment_kind;
  query : option (list ascii)
}.

(** A property that holds a string or is [undefined], used as a condition
    ([this.query], [options.as]): true when it is set and the string is not
    empty. *)
Definition given (q : option (list ascii)) : bool :=
  match q with
  | Some h => negb (bool_decide (h = []))
  | None => false
  end.

Definition Segment_regex (seg : Segment) : list ascii :=
  match kind seg with
  | StaticSegment string =>
      let r := escape string in
      if given (query seg) then r ++ queryRegex else r
  | EpsilonSegment => queryRegex
  | DynamicSegment _ =>
      if given (query seg) then str "([^/;]+)" ++ queryRegex else str "([^/]+)"
  | StarSegment _ =>
      if given (query seg) then str "([^;]+)" ++ queryRegex else str "(.+)"
  end.

(** [params[name]] *)
Definition param (params : gmap (list ascii) value) (name : list ascii) : value :=
  get name params.

Definition Segment_generate (seg : Segment) (params : gmap (list ascii) value)
  : value :=
  match kind seg with
  | StaticSegment string => VStr string
  | EpsilonSegment => VStr []
  | DynamicSegment name => param params name
  | StarSegment name => param params name
  end.

(** ** Template parser *)

Record Types : Type := Build_Types {
  statics : nat;
  dynamics : nat;
  stars : nat
}.

(** A literal expression of the source. *)
Definition literal (src : string) : regexp :=
  match compile (str src) with
  | Some r => r
  | None => Build_regexp (str src) [] 0
  end.

Definition dynamicRe : regexp := Eval vm_compute in literal "^:([^\/]+)$".
Definition starRe : regexp := Eval vm_compute in literal "^\*([^\/]+)$".

(** [match[i]] of a successful match, as a string. *)
Definition group_text (i : nat) (caps : list (option (list ascii))) : list ascii :=
  match caps !! i with
  | Some (Some s) => s
  | _ => []
  end.

(** The loop body of [parse]: [results], [names] and [types] are the
    accumulators the source mutates. *)
Definition parse_segment
  (acc : list Segment * list (list ascii) * Types) (segment : list ascii)
  : list Segment * list (list ascii) * Types :=
  let '(results, names, types) := acc in
  match exec dynamicRe segment with
  | Some mt =>
      (results ++ [Build_Segment (DynamicSegment (group_text 1 mt)) None],
       names ++ [group_text 1 mt],
       Build_Types (statics types) (S (dynamics types)) (stars types))
  | None =>
      match exec starRe segment with
      | Some mt =>
          (results ++ [Build_Segment (StarSegment (group_text 1 mt)) None],
           names ++ [group_text 1 mt],
           Build_Types (statics types) (dynamics types) (S (stars types)))
      | None =>
          if bool_decide (segment = []) then (results, names, types)
          else
            (results ++ [Build_Segment (StaticSegment segment) None],
             names,
             Build_Types (S (statics types)) (dynamics types) (stars types))
      end
  end.

(** [parse(route, names, types)]: gives [results] and the updated
    accumulators. *)
Definition parse (route : list ascii) (names : list (list ascii)) (types : Types)
  : list Segment * list (list ascii) * Types :=
  let route := if starts_with "/" route then drop 1 route else route in
  let segments := split "/" route in
  foldl parse_segment ([], names, types) segments.

(** ** The trie and the recognizer *)

Module Handler.
(** An entry of a handler chain, [{ handler: ..., names: ... }];
    [hasQuery] is [None] when the object has no such property. *)
Record t : Type := mk {
  handler : list ascii;
  names : list (list ascii);
  hasQuery : option bool
}.
End Handler.

Module State.
(** [segmentRegex] is [None] for the root ([new State()]); [handlers],
    [regex] and [types] are [None] until [add] ends at the state. *)
Record t : Type := mk {
  segmentRegex : option (list ascii);
  nextStates : list nat;
  handlers : option (list Handler.t);
  regex : option regexp;
  types : option Types
}.

(** [new State(segmentRegex)] *)
Definition new (segmentRegex : option (list ascii)) : t :=
  mk segmentRegex [] None None None.
End State.

Module Named.
(** An entry of the name registry. *)
Record t : Type := mk {
  segments : list Segment;
  handlers : list Handler.t
}.
End Named.

Module Route.
(** One level of a registration, [{ path: ..., handler: ... }]. *)
Record t : Type := mk {
  path : list ascii;
  handler : list ascii
}.
End Route.

Module Result.
(** An entry of what [recognize] returns. *)
Record t : Type := mk {
  handler : list ascii;
  params : gmap (list ascii) value;
  isDynamic : bool;
  query : gmap (list ascii) value
}.
End Result.

(** A recognizer with the store its states live in: [rootState] and the
    elements of [nextStates] are positions in [states]. *)
Record RouteRecognizer : Type := Build_RouteRecognizer {
  states : list State.t;
  rootState : nat;
  names : gmap (list ascii) Named.t
}.

(** [new RouteRecognizer()] *)
Definition RouteRecognizer_new : RouteRecognizer :=
  Build_RouteRecognizer [State.new None] 0 ∅.

(** *** The monad of the methods: the recognizer as state, exceptions *)

Definition M (A : Type) : Type := RouteRecognizer -> outcome A * RouteRecognizer.

Definition ret {A} (a : A) : M A := fun rr => (Ok a, rr).

Definition throw {A} (e : exn) : M A := fun rr => (Throw e, rr).

Definition bind {A B} (c : M A) (f : A -> M B) : M B :=
  fun rr =>
    match c rr with
    | (Ok a, rr') => f a rr'
    | (Throw e, rr') => (Throw e, rr')
    end.

Notation "'let*' x ':=' c 'in' k" := (bind c (fun x => k))
  (at level 10, x pattern, c at level 100, k at level 200).

(** A pure computation that may throw. *)
Definition lift {A} (o : outcome A) : M A := fun rr => (o, rr).

Definition this_rootState : M nat := fun rr => (Ok (rootState rr), rr).

Definition this_names : M (gmap (list ascii) Named.t) := fun rr => (Ok (names rr), rr).

(** [this.names[name] = r]. The registry is a plain object and [r] is an
    object, so under [__proto__] the assignment makes [r] the prototype of
    the registry: the entry of the map under [__proto__] stands for that
    prototype, which [this.names['__proto__']] reads back. *)
Definition set_name (name : list ascii) (r : Named.t) : M unit :=
  fun rr => (Ok tt, Build_RouteRecognizer (states rr) (rootState rr) (<[name := r]> (names rr))).

(** What [this.names[name]] is: a registered route; or something else
    that is not a route, found through the prototype; or [undefined]. *)
Inductive registered : Type :=
| Registered (route : Named.t)
| Foreign
| Unregistered.

(** [this.names[name]]. What the registry does not own it inherits: from
    [Object.prototype], and, once a route has been made its prototype, the
    [segments] and the [handlers] of that route. *)
Definition names_get (names : gmap (list ascii) Named.t) (name : list ascii)
  : registered :=
  match names !! name with
  | Some route => Registered route
  | None =>
      if inherited name then Foreign
      else if bool_decide (name = str "segments" \/ name = str "handlers")
              && bool_decide (is_Some (names !! proto_key))
      then Foreign
      else Unregistered
  end.

(** Reading the object behind a reference. References are only made by
    [alloc], so the failure branch is never taken. *)
Definition deref (s : nat) : M State.t :=
  fun rr =>
    match states rr !! s with
    | Some st => (Ok st, rr)
    | None => (Throw TypeError, rr)
    end.

(** Assigning to the object behind a reference. *)
Definition modify (s : nat) (f : State.t -> State.t) : M unit :=
  fun rr => (Ok tt, Build_RouteRecognizer (alter f s (states rr)) (rootState rr) (names rr)).

(** A new object; the result is the reference to it. *)
Definition alloc (st : State.t) : M nat :=
  fun rr => (Ok (length (states rr)),
             Build_RouteRecognizer (states rr ++ [st]) (rootState rr) (names rr)).

(** [for] over an array with accumulated variables. *)
Fixpoint foldM {A B} (f : B -> A -> M B) (b : B) (l : list A) : M B :=
  match l with
  | [] => ret b
  | a :: l' => let* b' := f b a in foldM f b' l'
  end.

(** *** State *)

(** [State.prototype.get] *)
Fixpoint get_loop (nextStates : list nat) (segmentRegex : list ascii) : M (option nat) :=
  match nextStates with
  | [] => ret None
  | child :: rest =>
      let* c := deref child in
      if bool_decide (State.segmentRegex c = Some segmentRegex) then ret (Some child)
      else get_loop rest segmentRegex
  end.

Definition State_get (this : nat) (segmentRegex : list ascii) : M (option nat) :=
  let* st := deref this in
  get_loop (State.nextStates st) segmentRegex.

(** [this.nextStates.push(state)] *)
Definition push_child (state : nat) (st : State.t) : State.t :=
  State.mk (State.segmentRegex st) (State.nextStates st ++ [state])
    (State.handlers st) (State.regex st) (State.types st).

(** [State.prototype.put] *)
Definition State_put (this : nat) (segmentRegex : list ascii) : M nat :=
  let segmentRegex := str "^" ++ segmentRegex ++ str "$" in
  let* found := State_get this segmentRegex in
  match found with
  | Some state => ret state
  | None =>
      let* state := alloc (State.new (Some segmentRegex)) in
      let* _ := modify this (push_child state) in
      ret state
  end.

(** [segment.match(pattern)] as a condition, [pattern] a string or
    [undefined]: the string is compiled first; [undefined] compiles to the
    empty pattern, which matches. *)
Definition string_matches (segment : list ascii) (pattern : option (list ascii))
  : outcome bool :=
  match pattern with
  | None => Ok true
  | Some src =>
      match compile src with
      | Some p => Ok (bool_decide (is_Some (exec p segment)))
      | None => Throw SyntaxError
      end
  end.

(** [State.prototype.match] *)
Definition State_match (this : nat) (segment : list ascii) : M (list nat) :=
  let* st := deref this in
  foldM (fun returned child =>
           let* c := deref child in
           let* b := lift (string_matches segment (State.segmentRegex c)) in
           ret (if b : bool then returned ++ [child] else returned))
    [] (State.nextStates st).

(** *** Disambiguation *)

(** The comparison function of [sortSolutions]. *)
Definition compare_types (a b : Types) : Z :=
  if negb (bool_decide (stars a = stars b)) then (Z.of_nat (stars a) - Z.of_nat (stars b))%Z
  else if negb (bool_decide (dynamics a = dynamics b)) then
    (Z.of_nat (dynamics a) - Z.of_nat (dynamics b))%Z
  else if negb (bool_decide (statics a = statics b)) then
    (Z.of_nat (statics a) - Z.of_nat (statics b))%Z
  else 0%Z.

(** [Array.prototype.sort] with a comparison function: a stable sort. *)
Fixpoint sort_insert {A} (cmp : A -> A -> Z) (x : A) (l : list A) : list A :=
  match l with
  | [] => [x]
  | y :: l' => if (cmp x y <=? 0)%Z then x :: y :: l' else y :: sort_insert cmp x l'
  end.

Definition sort {A} (cmp : A -> A -> Z) (l : list A) : list A :=
  foldr (sort_insert cmp) [] l.

(** [a.types] of every state, when all have one. *)
Fixpoint with_types (l : list (nat * State.t)) : option (list (nat * Types)) :=
  match l with
  | [] => Some []
  | (s, st) :: l' =>
      match State.types st, with_types l' with
      | Some ty, Some r => Some ((s, ty) :: r)
      | _, _ => None
      end
  end.

(** [sortSolutions]. With fewer than two states the comparison function is
    not called; with two or more it is called on every state, and reading
    [stars] of a missing [types] throws. *)
Definition sortSolutions (solutions : list nat) : M (list nat) :=
  let* sts :=
    foldM (fun acc s => let* st := deref s in ret (acc ++ [(s, st)])) [] solutions in
  match sts with
  | [] | [_] => ret solutions
  | _ =>
      match with_types sts with
      | Some keyed =>
          ret (map fst (sort (fun a b => compare_types (snd a) (snd b)) keyed))
      | None => throw TypeError
      end
  end.

(** [recognizeSegment] *)
Definition recognizeSegment (states : list nat) (segment : list ascii) : M (list nat) :=
  foldM (fun nextStates state =>
           let* matched := State_match state segment in
           ret (nextStates ++ matched))
    [] states.

(** ** Query codec *)

(** The [r] of [deserializeQueryString]. *)
Definition unescape_query (s : list ascii) : list ascii :=
  replace_first (str "%3B") (str ";") (replace_first (str "%3D") (str "=") s).

(** [deserializeQueryString] *)
Definition deserializeQueryString (queryString : list ascii)
  : gmap (list ascii) value :=
  foldl (fun query p =>
           let pair := split "=" p in
           assign (unescape_query (default [] (pair !! 0)))
             match pair !! 1 with
             | Some v => VStr (unescape_query v)
             | None => VBool true
             end query)
    ∅ (split ";" queryString).

(** The [r] of [serializeQuery]. *)
Definition escape_query (s : list ascii) : list ascii :=
  replace_first (str "=") (str "%253D") (replace_first (str ";") (str "%253B") s).

(** [serializeQuery]; [query] lists the properties in the order [for in]
    visits them. *)
Definition serializeQuery (query : list (list ascii * value)) : list ascii :=
  join (str ";")
    (map (fun '(k, v) =>
            let pair := escape_query k in
            if truthy v then pair ++ str "=" ++ escape_query (to_string v) else pair)
       query).

(** ** findHandler *)

(** [captures[i]], [captures] being [null] or an array. *)
Definition capture (captures : option (list (option (list ascii)))) (i : nat)
  : outcome value :=
  match captures with
  | None => Throw TypeError
  | Some arr =>
      match arr !! i with
      | Some (Some s) => Ok (VStr s)
      | _ => Ok VUndefined
      end
  end.

(** The loop over [names]. *)
Fixpoint read_params (captures : option (list (option (list ascii))))
  (names : list (list ascii)) (currentCapture : nat)
  (params : gmap (list ascii) value)
  : outcome (gmap (list ascii) value * nat) :=
  match names with
  | [] => Ok (params, currentCapture)
  | name :: names' =>
      match capture captures currentCapture with
      | Ok v => read_params captures names' (S currentCapture) (assign name v params)
      | Throw e => Throw e
      end
  end.

(** The loop over [handlers]. *)
Fixpoint read_handlers (captures : option (list (option (list ascii))))
  (handlers : list Handler.t) (currentCapture : nat) (result : list Result.t)
  : outcome (list Result.t) :=
  match handlers with
  | [] => Ok result
  | handler :: handlers' =>
      match read_params captures (Handler.names handler) currentCapture ∅ with
      | Throw e => Throw e
      | Ok (params, currentCapture) =>
          let entry query :=
            Result.mk (Handler.handler handler) params
              (negb (bool_decide (length (Handler.names handler) = 0))) query in
          match Handler.hasQuery handler with
          | Some true =>
              match capture captures currentCapture with
              | Throw e => Throw e
              | Ok queryString =>
                  let query :=
                    if truthy queryString
                    then deserializeQueryString (to_string queryString)
                    else ∅ in
                  read_handlers captures handlers' (S currentCapture)
                    (result ++ [entry query])
              end
          | _ => read_handlers captures handlers' currentCapture (result ++ [entry ∅])
          end
      end
  end.

(** [path.match(regex)], [regex] an expression or [undefined]. *)
Definition match_regex (path : list ascii) (regex : option regexp)
  : option (list (option (list ascii))) :=
  match regex with
  | Some p => exec p path
  | None => Some [Some []]
  end.

(** [findHandler(state, path)]. *)
Definition findHandler (state : State.t) (path : list ascii)
  : outcome (list Result.t) :=
  match State.handlers state with
  | None => Throw TypeError
  | Some handlers =>
      read_handlers (match_regex path (State.regex state)) handlers 1 []
  end.

(** ** RouteRecognizer *)

(** [segment.query = route.handler] on the last segment of a level. The
    segments are objects, so the [allSegments] array, which was given them
    before the loop, sees the assignment too. *)
Definition mark_last (handler : list ascii) (segments : list Segment) : list Segment :=
  imap (fun j segment =>
          if bool_decide (S j = length segments)
          then Build_Segment (kind segment) (Some handler)
          else segment)
    segments.

(** The variables of [add] that its loops update. *)
Record add_vars : Type := Build_add_vars {
  currentState : nat;
  regex_text : list ascii;
  types : Types;
  handlers : list Handler.t;
  allSegments : list Segment;
  isEmpty : bool
}.

(** The inner loop of [add]: one segment. *)
Definition add_segment (acc : nat * list ascii) (segment : Segment)
  : M (nat * list ascii) :=
  let '(currentState, regex) := acc in
  let segmentRegex := Segment_regex segment in
  let regex := regex ++ str "/" ++ segmentRegex in
  let* currentState := State_put currentState segmentRegex in
  ret (currentState, regex).

(** The outer loop of [add]: one level. *)
Definition add_route (v : add_vars) (route : Route.t) : M add_vars :=
  let '(segments, names, types) := parse (Route.path route) [] (types v) in
  let segments := mark_last (Route.handler route) segments in
  let allSegments := allSegments v ++ segments in
  let* r := foldM add_segment (currentState v, regex_text v) segments in
  ret (Build_add_vars (fst r) (snd r) types
         (handlers v ++ [Handler.mk (Route.handler route) names None])
         allSegments
         (isEmpty v && bool_decide (segments = []))).

Definition set_handlers (handlers : list Handler.t) (st : State.t) : State.t :=
  State.mk (State.segmentRegex st) (State.nextStates st) (Some handlers)
    (State.regex st) (State.types st).

Definition set_regex (regex : regexp) (st : State.t) : State.t :=
  State.mk (State.segmentRegex st) (State.nextStates st) (State.handlers st)
    (Some regex) (State.types st).

Definition set_types (types : Types) (st : State.t) : State.t :=
  State.mk (State.segmentRegex st) (State.nextStates st) (State.handlers st)
    (State.regex st) (Some types).

(** [new RegExp(src)] *)
Definition new_RegExp (src : list ascii) : M regexp :=
  match compile src with
  | Some p => ret p
  | None => throw SyntaxError
  end.

(** [add(routes, options)]; [options] is the [as] of the options, [None]
    when there are no options or no [as]. *)
Definition add (routes : list Route.t) (options : option (list ascii)) : M unit :=
  let* root := this_rootState in
  let* v :=
    foldM add_route
      (Build_add_vars root (str "^") (Build_Types 0 0 0) [] [] true) routes in
  let* v :=
    if isEmpty v then
      let* currentState := State_put (currentState v) [] in
      match last (handlers v) with
      | None => throw TypeError
      | Some lastHandler =>
          let e := Build_Segment EpsilonSegment (Some (Handler.handler lastHandler)) in
          ret (Build_add_vars currentState
                 (regex_text v ++ str "/" ++ Segment_regex e)
                 (types v) (handlers v) (allSegments v ++ [e]) true)
      end
    else ret v in
  let* _ := modify (currentState v) (set_handlers (handlers v)) in
  let* regex := new_RegExp (regex_text v ++ str "$") in
  let* _ := modify (currentState v) (set_regex regex) in
  let* _ := modify (currentState v) (set_types (types v)) in
  if given options then
    set_name (default [] options) (Named.mk (allSegments v) (handlers v))
  else ret tt.

Definition no_route (name : list ascii) : exn :=
  Error (str "There is no route named " ++ name).

(** [handlersFor(name)]. What is found under the name and is not a route
    passes the test, and has no [handlers] to take the [length] of. *)
Definition handlersFor (name : list ascii) : M (list Handler.t) :=
  let* names := this_names in
  match names_get names name with
  | Unregistered => throw (no_route name)
  | Foreign => throw TypeError
  | Registered route =>
      foldM (fun result h => ret (result ++ [h])) [] (Named.handlers route)
  end.

(** [hasRoute(name)] *)
Definition hasRoute (name : list ascii) : M bool :=
  let* names := this_names in
  ret (match names_get names name with
       | Unregistered => false
       | _ => true
       end).

(** The loop body of [generate]. What [queries] inherits under the name of
    a handler has no property to enumerate and serializes to the empty
    string, so it writes nothing, as a missing entry does. *)
Definition generate_segment (params : gmap (list ascii) value)
  (queries : gmap (list ascii) (list (list ascii * value)))
  (output : list ascii) (segment : Segment) : list ascii :=
  let output := output ++ str "/" in
  let output := output ++ to_string (Segment_generate segment params) in
  if given (query segment) then
    match queries !! default [] (query segment) with
    | Some q =>
        let queryString := serializeQuery q in
        if negb (bool_decide (queryString = [])) then output ++ str ";" ++ queryString
        else output
    | None => output
    end
  else output.

(** [generate(name, params, queries)] *)
Definition generate (name : list ascii) (params : gmap (list ascii) value)
  (queries : gmap (list ascii) (list (list ascii * value))) : M (list ascii) :=
  let* names := this_names in
  match names_get names name with
  | Unregistered => throw (no_route name)
  | Foreign => throw TypeError
  | Registered route =>
      let output := foldl (generate_segment params queries) [] (Named.segments route) in
      ret (if negb (starts_with "/" output) then str "/" ++ output else output)
  end.

(** The loop of [recognize] over the segments of the path, with its
    [break]. *)
Fixpoint recognize_loop (states : list nat) (segments : list (list ascii))
  : M (list nat) :=
  match segments with
  | [] => ret states
  | segment :: segments' =>
      let* states := recognizeSegment states segment in
      if bool_decide (states = []) then ret states
      else recognize_loop states segments'
  end.

(** The path [recognize] works on. *)
Definition normalize (path : list ascii) : list ascii :=
  let pathLen := length path in
  let path := if negb (starts_with "/" path) then str "/" ++ path else path in
  if bool_decide (1 < pathLen) && char_at_is (pathLen - 1) "/" path
  then take (pathLen - 1) path
  else path.

(** The states of [states] that have [handlers]. *)
Definition accepting (states : list nat) : M (list nat) :=
  foldM (fun solutions s =>
           let* st := deref s in
           ret (if bool_decide (is_Some (State.handlers st)) then solutions ++ [s]
                else solutions))
    [] states.

(** [recognize(path)]; [None] is [undefined]. *)
Definition recognize (path : list ascii) : M (option (list Result.t)) :=
  let* root := this_rootState in
  let path := normalize path in
  let segments := split "/" path in
  let* states := recognize_loop [root] (drop 1 segments) in
  let* solutions := accepting states in
  let* solutions := sortSolutions solutions in
  match solutions with
  | [] => ret None
  | s :: _ =>
      let* state := deref s in
      if bool_decide (is_Some (State.handlers state)) then
        let* r := lift (findHandler state path) in ret (Some r)
      else ret None
  end.

(** ** Tables used as examples *)

Module Examples.

Definition level (path handler : string) : Route.t :=
  Route.mk (str path) (str handler).

Definition run_add (routes : list Route.t) (options : option (list ascii))
  (rr : RouteRecognizer) : RouteRecognizer :=
  snd (add routes options rr).

(** [add([{path: "/posts/:id", handler: "post"}], {as: "post"})] *)
Definition post_table : RouteRecognizer :=
  Eval vm_compute in
    run_add [level "/posts/:id" "post"] (Some (str "post")) RouteRecognizer_new.

(** [/posts] with child [/:id], handlers ["posts"] and ["post"]. *)
Definition nested_table : RouteRecognizer :=
  Eval vm_compute in
    run_add [level "/posts" "posts"; level "/:id" "post"] None RouteRecognizer_new.

(** Handler ["list"] on [/posts]. *)
Definition list_table : RouteRecognizer :=
  Eval vm_compute in
    run_add [level "/posts" "list"] (Some (str "list")) RouteRecognizer_new.

(** [/posts], then [/posts/new]. *)
Definition shared_table : RouteRecognizer :=
  Eval vm_compute in
    run_add [level "/posts/new" "new"] None
      (run_add [level "/posts" "posts"] None RouteRecognizer_new).

End Examples.

(** ** Notions used in the statements *)

(** A computation that only reads. *)
Definition readonly {A} (c : M A) : Prop := forall rr, snd (c rr) = rr.

(** What one segment adds to the output of [generate]. *)
Definition segment_text (params : gmap (list ascii) value)
  (queries : gmap (list ascii) (list (list ascii * value))) (segment : Segment)
  : list ascii :=
  generate_segment params queries [] segment.

(** The terminal state of a table that holds one route. *)
Definition terminal_of (rr : RouteRecognizer) : option State.t :=
  head (filter (fun st => is_Some (State.handlers st)) (states rr)).

(** The terminal states left when [recognize] has consumed the path: its
    loop over the segments and its filter on [handlers]. *)
Definition candidates (path : list ascii) : M (list nat) :=
  let* root := this_rootState in
  let* states := recognize_loop [root] (drop 1 (split "/" (normalize path))) in
  accepting states.

(** Ascending lexicographic order on [(stars, dynamics, statics)]. *)
Definition types_le (a b : Types) : Prop :=
  stars a < stars b \/
  (stars a = stars b /\
   (dynamics a < dynamics b \/
    (dynamics a = dynamics b /\ statics a <= statics b))).

(** Every state that has [handlers] has [types]: [add] sets the one after
    the other. *)
Definition terminals_typed (rr : RouteRecognizer) : Prop :=
  forall s st,
    states rr !! s = Some st ->
    is_Some (State.handlers st) -> is_Some (State.types st).

(** The head of a list is below every element of it. *)
Definition head_least {A} (le : A -> A -> Prop) (l : list A) : Prop :=
  match l with
  | [] => True
  | h :: _ => forall y, y ∈ l -> le h y
  end.

(** The states behind a list of references. *)
Fixpoint deref_all (rr : RouteRecognizer) (l : list nat) : option (list (nat * State.t)) :=
  match l with
  | [] => Some []
  | s :: l' =>
      match states rr !! s, deref_all rr l' with
      | Some st, Some r => Some ((s, st) :: r)
      | _, _ => None
      end
  end.

(** The keys of the children of a state: for each reference in
    [nextStates], the [segmentRegex] of the state behind it. *)
Definition child_keys (rr : RouteRecognizer) (st : State.t)
  : list (option (option (list ascii))) :=
  map (fun c => State.segmentRegex <$> states rr !! c) (State.nextStates st).

(** No state has two children with the same key. *)
Definition children_distinct (rr : RouteRecognizer) : Prop :=
  forall s st, states rr !! s = Some st -> NoDup (child_keys rr st).

(** Every reference in a [nextStates] is a state of the store. *)
Definition children_valid (rr : RouteRecognizer) : Prop :=
  forall s st c,
    states rr !! s = Some st -> c ∈ State.nextStates st -> c < length (states rr).

(** The invariant of the trie. *)
Definition trie_inv (rr : RouteRecognizer) : Prop :=
  children_valid rr /\ children_distinct rr.

(** A sequence of [add] calls, whether they return or throw. *)
Definition run_adds (calls : list (list Route.t * option (list ascii)))
  (rr : RouteRecognizer) : RouteRecognizer :=
  foldl (fun rr call => snd (add (fst call) (snd call) rr)) rr calls.

(** A computation that keeps a property of the recognizer. *)
Definition preserves (P : RouteRecognizer -> Prop) {A} (c : M A) : Prop :=
  forall rr, P rr -> P (snd (c rr)).

(** [pat] occurs in [s]. *)
Fixpoint occurs (pat s : list ascii) : bool :=
  match strip_prefix pat s with
  | Some _ => true
  | None =>
      match s with
      | [] => false
      | _ :: s' => occurs pat s'
      end
  end.

(** A key or value the codec leaves as it is: no separator and no escape
    of one. *)
Definition plain (s : list ascii) : Prop :=
  (";"%char ∉ s) /\ ("="%char ∉ s) /\
  occurs (str "%3D") s = false /\ occurs (str "%3B") s = false.

#[global] Instance plain_dec s : Decision (plain s).
Proof. unfold plain. apply _. Defined.

(** A property of a query object whose key and value are plain, the value
    a string that is not empty. *)
Definition plain_entry (kv : list ascii * value) : Prop :=
  plain (fst kv) /\ exists s, snd kv = VStr s /\ s ≠ [] /\ plain s.

(** The number of times a character occurs in a string. *)
Definition occurrences (c : ascii) (s : list ascii) : nat :=
  length (filter (fun x => x = c) s).

(** A string with at most one [;] and at most one [=]. *)
Definition few_separators (s : list ascii) : Prop :=
  occurrences ";" s <= 1 /\ occurrences "=" s <= 1.

(** Every occurrence of a character replaced. *)
Definition replace_all (c : ascii) (rep s : list ascii) : list ascii :=
  flat_map (fun x => if bool_decide (x = c) then rep else [x]) s.

(** The escape as the specification words it: every literal [;] replaced
    by [%253B] and every literal [=] by [%253D]. *)
Definition escape_all (s : list ascii) : list ascii :=
  replace_all "=" (str "%253D") (replace_all ";" (str "%253B") s).

(** ** The round trip: notions *)

(** The atom a character of a static text compiles to. *)
Definition lit (c : ascii) : re :=
  if bool_decide (c = "^"%char) then RBol
  else if bool_decide (c = "$"%char) then REol
  else RChar c.

(** The atom of [queryRegex], its group numbered [i]. *)
Definition query_atom (i : nat) : re :=
  ROpt (RNonCap [RChar ";"; RGroup i [RStar (RSet true ["/"%char])]]).

(** Group [i] around one or more characters outside [cs]: the atom of a
    dynamic segment, and of a star segment that owns a query. *)
Definition capture_atom (i : nat) (cs : list ascii) : re :=
  RGroup i [RPlus (RSet true cs)].

(** The atoms of the fragment of a segment, the groups numbered after [n],
    and the number of groups then. *)
Definition seg_prog (n : nat) (seg : Segment) : list re * nat :=
  match kind seg with
  | StaticSegment t =>
      if given (query seg) then (map lit t ++ [query_atom (S n)], S n)
      else (map lit t, n)
  | EpsilonSegment => ([query_atom (S n)], S n)
  | DynamicSegment _ =>
      if given (query seg)
      then ([capture_atom (S n) ["/"%char; ";"%char]; query_atom (S (S n))], S (S n))
      else ([capture_atom (S n) ["/"%char]], S n)
  | StarSegment _ =>
      if given (query seg)
      then ([capture_atom (S n) [";"%char]; query_atom (S (S n))], S (S n))
      else ([RGroup (S n) [RPlus RAny]], S n)
  end.

(** The text [add] accumulates for a list of segments, and its atoms. *)
Definition segments_text (segs : list Segment) : list ascii :=
  flat_map (fun seg => "/"%char :: Segment_regex seg) segs.

(** The atoms of [segments_text], each fragment after its separator. *)
Fixpoint segments_prog (n : nat) (segs : list Segment) : list re * nat :=
  match segs with
  | [] => ([], n)
  | seg :: segs' =>
      let '(a, n1) := seg_prog n seg in
      let '(b, n2) := segments_prog n1 segs' in
      (RChar "/" :: a ++ b, n2)
  end.

(** The text [generate] writes for a segment. *)
Definition seg_value (P : gmap (list ascii) value) (seg : Segment) : list ascii :=
  to_string (Segment_generate seg P).

(** The segments and parameters the round trip covers: a static text
    without [^] and [$], which [escape] leaves as they are; a dynamic
    segment whose parameter is a string that is not empty and holds
    neither [/] nor [;]; no star segment. *)
Definition seg_ok (P : gmap (list ascii) value) (seg : Segment) : Prop :=
  match kind seg with
  | StaticSegment t => ("^"%char ∉ t) /\ ("$"%char ∉ t)
  | DynamicSegment nm =>
      exists s, P !! nm = Some (VStr s) /\ s ≠ [] /\ ("/"%char ∉ s) /\ (";"%char ∉ s)
  | EpsilonSegment => True
  | StarSegment _ => False
  end.

(** The captures after the fragment of a segment has matched the text
    written for it: a dynamic segment fills group [S n]; a query group
    stays unset. *)
Definition seg_caps (P : gmap (list ascii) value) (n : nat) (seg : Segment)
  (c : list (option (list ascii))) : list (option (list ascii)) :=
  match kind seg with
  | DynamicSegment _ => <[n := Some (seg_value P seg)]> c
  | _ => c
  end.

Fixpoint segments_caps (P : gmap (list ascii) value) (n : nat) (segs : list Segment)
  (c : list (option (list ascii))) : list (option (list ascii)) :=
  match segs with
  | [] => c
  | seg :: segs' => segments_caps P (snd (seg_prog n seg)) segs' (seg_caps P n seg c)
  end.

(** The path [generate] writes for a list of segments. *)
Definition path_of (P : gmap (list ascii) value) (segs : list Segment) : list ascii :=
  flat_map (fun seg => "/"%char :: seg_value P seg) segs.

(** The parameter names of a list of segments, in order. *)
Definition seg_names (segs : list Segment) : list (list ascii) :=
  flat_map (fun seg =>
              match kind seg with
              | DynamicSegment n | StarSegment n => [n]
              | _ => []
              end) segs.

(** A segment as [parse] makes it: no [query] yet, a static text that is
    not empty and holds no separator, never an epsilon. *)
Definition seg_parsed (seg : Segment) : Prop :=
  query seg = None /\
  match kind seg with
  | StaticSegment t => t ≠ [] /\ ("/"%char ∉ t)
  | EpsilonSegment => False
  | _ => True
  end.

(** The key [add] gives the state of a segment. *)
Definition key_of (seg : Segment) : list ascii :=
  str "^" ++ Segment_regex seg ++ str "$".

(** From [s], following at each state its only child, the children keyed
    by [keys] in turn, one arrives at [fin]. *)
Inductive chain_path (σ : list State.t) : nat -> list (list ascii) -> nat -> Prop :=
| chain_here s : chain_path σ s [] s
| chain_step s st c stc key keys fin :
    σ !! s = Some st -> State.nextStates st = [c] ->
    σ !! c = Some stc -> State.segmentRegex stc = Some key ->
    chain_path σ c keys fin ->
    chain_path σ s (key :: keys) fin.

(** What a walk of the trie reads of a state. *)
Definition shape (st : State.t) : option (list ascii) * list nat :=
  (State.segmentRegex st, State.nextStates st).

(** Only the last segment may own a query or be an epsilon. *)
Fixpoint only_last_query (segs : list Segment) : Prop :=
  match segs with
  | [] => True
  | seg :: segs' =>
      (segs' = [] \/ (given (query seg) = false /\ kind seg ≠ EpsilonSegment)) /\
      only_last_query segs'
  end.

(** A segment of a template the round trip covers, whatever the
    parameters. *)
Definition simple_segment (seg : Segment) : Prop :=
  match kind seg with
  | StaticSegment t => ("^"%char ∉ t) /\ ("$"%char ∉ t)
  | DynamicSegment _ => True
  | _ => False
  end.

(** A parameter the round trip covers. *)
Definition simple_value (v : value) : Prop :=
  exists s, v = VStr s /\ s ≠ [] /\ ("/"%char ∉ s) /\ (";"%char ∉ s).

(** What the proof needs of a segment: it passes [seg_ok], its text has no
    separator and is not empty, and it is neither marked nor an epsilon. *)
Definition seg_ready (P : gmap (list ascii) value) (seg : Segment) : Prop :=
  seg_ok P seg /\ ("/"%char ∉ seg_value P seg) /\ seg_value P seg ≠ [] /\
  given (query seg) = false /\ kind seg ≠ EpsilonSegment.

(** The text accumulated by [add] is the text of the segments so far. *)
Definition text_inv (v : add_vars) : Prop :=
  regex_text v = str "^" ++ segments_text (allSegments v).

(** Equal continuations give equal results. *)
Definition respects {R} (f : mstate -> (mstate -> option R) -> option R) : Prop :=
  forall st k1 k2, (forall s, k1 s = k2 s) -> f st k1 = f st k2.

(** Every key of the trie is the text of an expression. *)
Definition keys_compile (rr : RouteRecognizer) : Prop :=
  forall s st k,
    states rr !! s = Some st -> State.segmentRegex st = Some k -> is_Some (compile k).

(** The trie of a recognizer that [add] calls built. *)
Definition trie_wf (rr : RouteRecognizer) : Prop :=
  trie_inv rr /\ keys_compile rr /\ rootState rr < length (states rr).

(** From [s], going at each state to a child keyed by the next of [keys],
    one arrives at [fin]. *)
Inductive trie_path (σ : list State.t) : nat -> list (list ascii) -> nat -> Prop :=
| trie_here s : trie_path σ s [] s
| trie_step s st c stc key keys fin :
    σ !! s = Some st -> c ∈ State.nextStates st ->
    σ !! c = Some stc -> State.segmentRegex stc = Some key ->
    trie_path σ c keys fin ->
    trie_path σ s (key :: keys) fin.

(** [σ'] has the states of [σ], with the same keys and at least the same
    children. *)
Definition extends (σ σ' : list State.t) : Prop :=
  forall s st,
    σ !! s = Some st ->
    exists st', σ' !! s = Some st' /\
                State.segmentRegex st' = State.segmentRegex st /\
                State.nextStates st ⊆ State.nextStates st'.

(** ** Notions of the further properties *)

(** The segments, the names and the counters [parse] gives for a template;
    it reads the counters only to add to them. *)
Definition template_segments (tpl : list ascii) : list Segment :=
  fst (fst (parse tpl [] (Build_Types 0 0 0))).

Definition template_names (tpl : list ascii) : list (list ascii) :=
  snd (fst (parse tpl [] (Build_Types 0 0 0))).

Definition template_types (tpl : list ascii) (tys : Types) : Types :=
  snd (parse tpl [] tys).

(** What one level gives [add]: its segments, the last of them marked
    with the handler, and its entry of the handler chain. *)
Definition level_segments (route : Route.t) : list Segment :=
  mark_last (Route.handler route) (template_segments (Route.path route)).

Definition level_handler (route : Route.t) : Handler.t :=
  Handler.mk (Route.handler route) (template_names (Route.path route)) None.

(** The segments [add] stores for its levels: those of the levels one
    after the other, or, when no level has a segment, one epsilon segment
    marked with the last handler. *)
Definition chain_segments (routes : list Route.t) : list Segment :=
  let segs := flat_map level_segments routes in
  if bool_decide (segs = []) then
    match last routes with
    | Some route => [Build_Segment EpsilonSegment (Some (Route.handler route))]
    | None => []
    end
  else segs.

(** The keys on the way from the root to the state [add] ends at. *)
Definition chain_keys (routes : list Route.t) : list (list ascii) :=
  let segs := flat_map level_segments routes in
  if bool_decide (segs = []) then [str "^$"] else map key_of segs.

(** The counters [add] gives that state. *)
Definition chain_types (routes : list Route.t) : Types :=
  foldl (fun tys route => template_types (Route.path route) tys) (Build_Types 0 0 0) routes.

(** The expression compiled from the text [add] accumulates for a list of
    segments. *)
Definition compiled (segs : list Segment) : regexp :=
  Build_regexp (str "^" ++ segments_text segs ++ str "$")
    (RBol :: fst (segments_prog 0 segs) ++ [REol])
    (snd (segments_prog 0 segs)).

(** What a value written by [serializeQuery] is read back as. *)
Definition read_back (v : value) : value :=
  if truthy v then VStr (to_string v) else VBool true.

(** A property of a query object the codec takes apart where it was put
    together: the key, and the text of the value when it is written, are
    plain. *)
Definition plain_written (kv : list ascii * value) : Prop :=
  plain (fst kv) /\ (truthy (snd kv) = true -> plain (to_string (snd kv))).

(** The text [serializeQuery] writes for one property. *)
Definition serialize_pair (kv : list ascii * value) : list ascii :=
  let '(k, v) := kv in
  let pair := escape_query k in
  if truthy v then pair ++ str "=" ++ escape_query (to_string v) else pair.

(** The segment a piece of a template stands for: [:name] is dynamic and
    [*name] is a star, the name not empty; the empty piece stands for
    nothing; every other piece is static. *)
Definition piece_kind (piece : list ascii) : option segment_kind :=
  match piece with
  | [] => None
  | c :: name =>
      if bool_decide (c = ":"%char) && negb (bool_decide (name = []))
      then Some (DynamicSegment name)
      else if bool_decide (c = "*"%char) && negb (bool_decide (name = []))
      then Some (StarSegment name)
      else Some (StaticSegment piece)
  end.

Definition is_static (seg : Segment) : bool :=
  match kind seg with StaticSegment _ => true | _ => false end.

Definition is_dynamic (seg : Segment) : bool :=
  match kind seg with DynamicSegment _ => true | _ => false end.

Definition is_star (seg : Segment) : bool :=
  match kind seg with StarSegment _ => true | _ => false end.

(** The counters after the segments [segs] have been counted. *)
Definition count_types (types : Types) (segs : list Segment) : Types :=
  Build_Types (statics types + length (filter is_static segs))
    (dynamics types + length (filter is_dynamic segs))
    (stars types + length (filter is_star segs)).

(** *** What an expression matches

    The matcher searches; the relation below says what it can find: [sem r
    a b] when the atom [r], tried in the state [a], can leave the state
    [b]. *)

(** Zero or more iterations, each consuming input, at most [fuel]. *)
Fixpoint iter_sem (body : mstate -> mstate -> Prop) (fuel : nat) (a b : mstate) : Prop :=
  match fuel with
  | 0 => b = a
  | S fuel' =>
      (exists mid, body a mid /\ consumed a mid = true /\ iter_sem body fuel' mid b) \/
      b = a
  end.

Fixpoint sem (r : re) (a b : mstate) {struct r} : Prop :=
  match r with
  | RChar c =>
      match rest a with
      | x :: xs => x = c /\ b = advance a xs
      | [] => False
      end
  | RAny =>
      match rest a with
      | x :: xs => line_terminator x = false /\ b = advance a xs
      | [] => False
      end
  | RSet neg cs =>
      match rest a with
      | x :: xs => xorb neg (bool_decide (x ∈ cs)) = true /\ b = advance a xs
      | [] => False
      end
  | RBol => pos a = 0 /\ b = a
  | REol => rest a = [] /\ b = a
  | RGroup i body =>
      exists inner,
        (fix semseq (rs : list re) (a' b' : mstate) : Prop :=
           match rs with
           | [] => b' = a'
           | r' :: rs' => exists mid, sem r' a' mid /\ semseq rs' mid b'
           end) body a inner /\
        b = set_cap i a inner
  | RNonCap body =>
      (fix semseq (rs : list re) (a' b' : mstate) : Prop :=
         match rs with
         | [] => b' = a'
         | r' :: rs' => exists mid, sem r' a' mid /\ semseq rs' mid b'
         end) body a b
  | RPlus r' =>
      exists first,
        sem r' (clear_caps (group_ids r') a) first /\
        iter_sem (fun s s' => sem r' (clear_caps (group_ids r') s) s')
          (length (rest first)) first b
  | RStar r' =>
      iter_sem (fun s s' => sem r' (clear_caps (group_ids r') s) s')
        (length (rest a)) a b
  | ROpt r' =>
      (sem r' (clear_caps (group_ids r') a) b /\ consumed a b = true) \/ b = a
  end.

Fixpoint semseq (rs : list re) (a b : mstate) : Prop :=
  match rs with
  | [] => b = a
  | r :: rs' => exists mid, sem r a mid /\ semseq rs' mid b
  end.

(** *** The texts a segment accepts *)

(** A segment whose fragment ends with the query group. *)
Definition has_query (seg : Segment) : bool :=
  match kind seg with
  | EpsilonSegment => true
  | _ => given (query seg)
  end.

(** The texts the value of a segment may be. *)
Definition value_text (seg : Segment) (v : list ascii) : Prop :=
  match kind seg with
  | StaticSegment t => v = t
  | EpsilonSegment => v = []
  | DynamicSegment _ =>
      v ≠ [] /\ ("/"%char ∉ v) /\ (given (query seg) = true -> ";"%char ∉ v)
  | StarSegment _ =>
      v ≠ [] /\
      if given (query seg) then ";"%char ∉ v
      else Forall (fun c => line_terminator c = false) v
  end.

(** The texts the query group stands for: nothing, or [;] and a text
    without the separator. *)
Definition query_text (q : list ascii) : Prop :=
  q = [] \/ exists t, q = ";"%char :: t /\ ("/"%char ∉ t).

(** The texts a segment accepts: a value, then, when the fragment ends
    with the query group, a query text. *)
Definition accepts (seg : Segment) (s : list ascii) : Prop :=
  exists v q,
    s = v ++ q /\ value_text seg v /\ query_text q /\ (has_query seg = false -> q = []).

(** A static text with [^] or [$] in it is written into the expression as
    it is, [escape] leaving the two alone; a segment is clean when it is
    not such a text. *)
Definition clean (seg : Segment) : Prop :=
  match kind seg with
  | StaticSegment t => ("^"%char ∉ t) /\ ("$"%char ∉ t)
  | _ => True
  end.

(** *** The trie as a tree, and what its terminal states hold *)

(** What [add] writes into the state it ends at. *)
Definition terminal_data (st : State.t)
  : option (list Handler.t) * option regexp * option Types :=
  (State.handlers st, State.regex st, State.types st).

(** From [σ] to [σ'] no state is lost, an old state keeps its terminal
    data and a new state has no handlers. *)
Definition keeps (σ σ' : list State.t) : Prop :=
  length σ <= length σ' /\
  forall s st',
    σ' !! s = Some st' ->
    match σ !! s with
    | Some st => terminal_data st' = terminal_data st
    | None => State.handlers st' = None
    end.

(** A computation all of whose runs are related by [Rel]. *)
Definition steps (Rel : list State.t -> list State.t -> Prop) {A} (c : M A) : Prop :=
  forall rr, Rel (states rr) (states (snd (c rr))).

(** The trie is a tree: every child is a state with a key, has one parent
    only, and the root, which is a state, is nobody's child. *)
Definition tree_inv (rr : RouteRecognizer) : Prop :=
  (forall s st c,
      states rr !! s = Some st -> c ∈ State.nextStates st ->
      exists stc key, states rr !! c = Some stc /\ State.segmentRegex stc = Some key) /\
  (forall s1 st1 s2 st2 c,
      states rr !! s1 = Some st1 -> c ∈ State.nextStates st1 ->
      states rr !! s2 = Some st2 -> c ∈ State.nextStates st2 -> s1 = s2) /\
  (forall s st, states rr !! s = Some st -> rootState rr ∉ State.nextStates st) /\
  rootState rr < length (states rr).

(** The state [s] is where [add] ended for the levels [routes]. *)
Definition terminal_of_chain (rr : RouteRecognizer) (s : nat) (st : State.t)
  (routes : list Route.t) : Prop :=
  routes ≠ [] /\
  trie_path (states rr) (rootState rr) (chain_keys routes) s /\
  State.handlers st = Some (map level_handler routes) /\
  State.regex st = Some (compiled (chain_segments routes)) /\
  State.types st = Some (chain_types routes).

(** Every state with handlers is where [add] ended for some levels that
    satisfy [P]. *)
Definition terminals_registered (P : list Route.t -> Prop) (rr : RouteRecognizer)
  : Prop :=
  forall s st,
    states rr !! s = Some st -> is_Some (State.handlers st) ->
    exists routes, P routes /\ terminal_of_chain rr s st routes.

(** *** The walk of [recognize], as a function of the trie *)

Definition children (rr : RouteRecognizer) (s : nat) : list nat :=
  match states rr !! s with
  | Some st => State.nextStates st
  | None => []
  end.

(** The key of the state [c] matches [segment]. *)
Definition edge_matches (rr : RouteRecognizer) (segment : list ascii) (c : nat) : bool :=
  match states rr !! c with
  | Some stc =>
      match string_matches segment (State.segmentRegex stc) with
      | Ok b => b
      | Throw _ => false
      end
  | None => false
  end.

Definition step_frontier (rr : RouteRecognizer) (frontier : list nat)
  (segment : list ascii) : list nat :=
  flat_map (fun s => filter (fun c => edge_matches rr segment c = true) (children rr s))
    frontier.

Fixpoint walk (rr : RouteRecognizer) (frontier : list nat) (segments : list (list ascii))
  : list nat :=
  match segments with
  | [] => frontier
  | segment :: segments' =>
      let next := step_frontier rr frontier segment in
      if bool_decide (next = []) then [] else walk rr next segments'
  end.

Definition is_terminal (rr : RouteRecognizer) (s : nat) : bool :=
  match states rr !! s with
  | Some st => bool_decide (is_Some (State.handlers st))
  | None => false
  end.

(** The segments of the path [recognize] walks along. *)
Definition path_segments (path : list ascii) : list (list ascii) :=
  drop 1 (split "/" (normalize path)).

(** A template without [^] and [$]. *)
Definition clean_template (tpl : list ascii) : Prop :=
  ("^"%char ∉ tpl) /\ ("$"%char ∉ tpl).

(** Levels with clean templates. *)
Definition clean_chain (routes : list Route.t) : Prop :=
  Forall (fun route => clean_template (Route.path route)) routes.

(** The names that become properties of [params]: an assignment to
    [__proto__] leaves none. *)
Definition own_names (names : list (list ascii)) : list (list ascii) :=
  filter (fun name => name ≠ proto_key) names.

(** An entry of the answer, against the entry of the handler chain it is
    made from. *)
Definition answers (r : Result.t) (h : Handler.t) : Prop :=
  Result.handler r = Handler.handler h /\
  dom (Result.params r) = list_to_set (own_names (Handler.names h)) /\
  Result.isDynamic r = negb (bool_decide (length (Handler.names h) = 0)) /\
  Result.query r = ∅.

(** ** The route DSL: [Target], [Matcher], [map]

    [map] hands its callback a function [match]; the callback registers
    routes by calling [match(path).to(target)], nests them by giving [to] a
    callback of its own, and groups them under a prefix by calling
    [match(path, nestedCallback)]. A callback is modelled by the calls it
    makes on the function it is given, in order. The matcher a callback
    fills is passed through the calls.

    The [routes] and the [children] of a matcher are the lists of their
    own properties in the order of creation. That is what the objects of
    the program hold, and the order in which [for in] visits them, when
    every path is an [ordinary_path] (defined below): the properties that
    depend on it have it as a hypothesis. *)

(** [o[k] = v], for an ordinary key: a new property comes last, an old
    one keeps its place. *)
Fixpoint obj_set {V} (k : list ascii) (v : V) (o : list (list ascii * V))
  : list (list ascii * V) :=
  match o with
  | [] => [(k, v)]
  | (k', v') :: o' =>
      if bool_decide (k' = k) then (k, v) :: o' else (k', v') :: obj_set k v o'
  end.

(** [o[k]], for an ordinary key: an own property or nothing. *)
Fixpoint obj_get {V} (k : list ascii) (o : list (list ascii * V)) : option V :=
  match o with
  | [] => None
  | (k', v) :: o' => if bool_decide (k' = k) then Some v else obj_get k o'
  end.

Module Matcher.
(** [target] is [None] for a matcher made without one. *)
Inductive t : Type := mk {
  routes : list (list ascii * list ascii);
  children : list (list ascii * t);
  target : option (list ascii)
}.

(** [new Matcher(target)] *)
Definition new (target : option (list ascii)) : t := mk [] [] target.
End Matcher.

(** A call a callback makes on its [match]: [match(path).to(target)],
    [match(path).to(target, callback)] with the [length] of the callback
    and its calls, or [match(path, nestedCallback)]. *)
Inductive call : Type :=
| CallTo (path target : list ascii) (callback : option (nat * list call))
| CallNested (path : list ascii) (nestedCallback : list call).

(** The delegate of a recognizer: [willAddRoute(context, target)] gives
    the target to register, [contextEntered(target, match)] is given the
    [match] of a nested matcher before the callback is. Either may be
    missing. *)
Record Delegate : Type := Build_Delegate {
  willAddRoute : option (option (list ascii) -> list ascii -> list ascii);
  contextEntered : option (list ascii -> list call)
}.

(** [Matcher.prototype.add] *)
Definition Matcher_add (path handler : list ascii) (this : Matcher.t) : Matcher.t :=
  Matcher.mk (obj_set path handler (Matcher.routes this)) (Matcher.children this)
    (Matcher.target this).

(** [this.children[path] = matcher] *)
Definition set_child (path : list ascii) (matcher this : Matcher.t) : Matcher.t :=
  Matcher.mk (Matcher.routes this) (obj_set path matcher (Matcher.children this))
    (Matcher.target this).

(** [if (delegate && delegate.willAddRoute) { target =
    delegate.willAddRoute(context, target); }] *)
Definition will_add (delegate : option Delegate) (context : option (list ascii))
  (target : list ascii) : list ascii :=
  match delegate with
  | Some d =>
      match willAddRoute d with
      | Some f => f context target
      | None => target
      end
  | None => target
  end.

Definition no_argument : exn :=
  Error (str "You must have an argument in the function passed to `to`").

(** The calls of a callback, one after the other, on the matcher of its
    [match]; [None] when the delegate's [contextEntered] nests deeper than
    [fuel] allows. *)
Definition run_calls
  (run : list ascii -> call -> Matcher.t -> option (outcome Matcher.t)) :=
  fix loop (startingPath : list ascii) (calls : list call) (matcher : Matcher.t)
    : option (outcome Matcher.t) :=
    match calls with
    | [] => Some (Ok matcher)
    | c :: calls' =>
        match run startingPath c matcher with
        | Some (Ok matcher') => loop startingPath calls' matcher'
        | other => other
        end
    end.

(** One call on [generateMatch(startingPath, matcher, delegate)].

    [match(path, nestedCallback)] calls [nestedCallback] with
    [generateMatch(startingPath + path, matcher, delegate)].

    [match(path).to(target, callback)] is [Target.prototype.to] on [new
    Target(startingPath + path, matcher, delegate)]: the target goes
    through [willAddRoute], [Matcher.prototype.add] registers it, and with
    a callback [Matcher.prototype.addChild] makes the nested matcher, links
    it under the path, and gives its [match] to [contextEntered] and to the
    callback. *)
Fixpoint run_call (fuel : nat) (delegate : option Delegate)
  : list ascii -> call -> Matcher.t -> option (outcome Matcher.t) :=
  fix run (startingPath : list ascii) (c : call) (matcher : Matcher.t) {struct c}
    : option (outcome Matcher.t) :=
    match c with
    | CallNested path nestedCallback =>
        run_calls run (startingPath ++ path) nestedCallback matcher
    | CallTo path target callback =>
        let path := startingPath ++ path in
        let target := will_add delegate (Matcher.target matcher) target in
        let matcher := Matcher_add path target matcher in
        match callback with
        | None => Some (Ok matcher)
        | Some (arity, body) =>
            if bool_decide (arity = 0) then Some (Throw no_argument)
            else
              let child := Matcher.new (Some target) in
              let entered :=
                match delegate with
                | Some d =>
                    match contextEntered d with
                    | Some f =>
                        match fuel with
                        | 0 => None
                        | S fuel' =>
                            run_calls (run_call fuel' delegate) path (f target) child
                        end
                    | None => Some (Ok child)
                    end
                | None => Some (Ok child)
                end in
              match entered with
              | Some (Ok child) =>
                  match run_calls run path body child with
                  | Some (Ok child) => Some (Ok (set_child path child matcher))
                  | other => other
                  end
              | other => other
              end
        end
    end.

(** [addRoute(routeArray, path, handler)]; gives the array after the
    [push]. *)
Definition addRoute (routeArray : list Route.t) (path handler : list ascii)
  : list Route.t :=
  let len := foldl (fun len route => len + length (Route.path route)) 0 routeArray in
  routeArray ++ [Route.mk (drop len path) handler].

(** The nesting of a matcher. *)
Fixpoint height (matcher : Matcher.t) : nat :=
  S (foldr (fun child h => max (height (snd child)) h) 0 (Matcher.children matcher)).

(** [eachRoute(baseRoute, matcher, callback, binding)], the recursion
    bounded by [fuel]. *)
Fixpoint eachRoute_loop (fuel : nat) (baseRoute : list Route.t) (matcher : Matcher.t)
  (callback : list Route.t -> M unit) : M unit :=
  match fuel with
  | 0 => ret tt
  | S fuel' =>
      foldM (fun _ property =>
               let routeArray := addRoute baseRoute (fst property) (snd property) in
               match obj_get (fst property) (Matcher.children matcher) with
               | Some child => eachRoute_loop fuel' routeArray child callback
               | None => callback routeArray
               end)
        tt (Matcher.routes matcher)
  end.

(** [eachRoute]: the nesting of the matcher bounds the recursion. *)
Definition eachRoute (baseRoute : list Route.t) (matcher : Matcher.t)
  (callback : list Route.t -> M unit) : M unit :=
  eachRoute_loop (height matcher) baseRoute matcher callback.

(** [RouteRecognizer.prototype.map]: [callback] is the calls the callback
    makes on the [match] it is given, [addRouteCallback] what the second
    argument does with a route array when there is one, [delegate] the
    [delegate] of the recognizer; [None] as for [run_calls]. *)
Definition map_routes (fuel : nat) (delegate : option Delegate)
  (callback : list call) (addRouteCallback : option (list Route.t -> M unit))
  : RouteRecognizer -> option (outcome unit * RouteRecognizer) :=
  fun rr =>
    let matcher := Matcher.new None in
    match run_calls (run_call fuel delegate) [] callback matcher with
    | Some (Ok matcher) =>
        Some (eachRoute [] matcher
                (fun route =>
                   match addRouteCallback with
                   | Some f => f route
                   | None => add route None
                   end) rr)
    | Some (Throw e) => Some (Throw e, rr)
    | None => None
    end.

(** *** The route arrays of a matcher *)

(** The route arrays [eachRoute] passes to its callback, in order. *)
Fixpoint leaves_loop (fuel : nat) (baseRoute : list Route.t) (matcher : Matcher.t)
  : list (list Route.t) :=
  match fuel with
  | 0 => []
  | S fuel' =>
      flat_map (fun property =>
                  let routeArray := addRoute baseRoute (fst property) (snd property) in
                  match obj_get (fst property) (Matcher.children matcher) with
                  | Some child => leaves_loop fuel' routeArray child
                  | None => [routeArray]
                  end)
        (Matcher.routes matcher)
  end.

Definition leaves (baseRoute : list Route.t) (matcher : Matcher.t)
  : list (list Route.t) :=
  leaves_loop (height matcher) baseRoute matcher.

(** The full paths these route arrays were registered under. *)
Fixpoint leaf_paths_loop (fuel : nat) (matcher : Matcher.t) : list (list ascii) :=
  match fuel with
  | 0 => []
  | S fuel' =>
      flat_map (fun property =>
                  match obj_get (fst property) (Matcher.children matcher) with
                  | Some child => leaf_paths_loop fuel' child
                  | None => [fst property]
                  end)
        (Matcher.routes matcher)
  end.

Definition leaf_paths (matcher : Matcher.t) : list (list ascii) :=
  leaf_paths_loop (height matcher) matcher.

(** The level paths of a route array, one after the other. *)
Definition full_path (routeArray : list Route.t) : list ascii :=
  concat (map Route.path routeArray).

(** Every path registered in a matcher, and below it, extends the path
    the matcher was made for. *)
Inductive based : list ascii -> Matcher.t -> Prop :=
| based_intro base matcher :
    (forall k h, (k, h) ∈ Matcher.routes matcher -> base `prefix_of` k) ->
    (forall k child, (k, child) ∈ Matcher.children matcher -> based k child) ->
    based base matcher.

(** *** Ordinary paths *)

Definition is_digit (c : ascii) : bool :=
  (48 <=? nat_of_ascii c) && (nat_of_ascii c <=? 57).

(** A path under which the objects of a matcher behave as the lists of
    the model. It is not the name of a property of [Object.prototype]:
    under such a name [children[path]] finds what is inherited, and
    [routes['__proto__'] = handler] creates no property. And it is not
    written in digits only: [for in] visits the array indices first,
    whatever the order of creation. *)
Definition ordinary_path (path : list ascii) : bool :=
  negb (inherited path) &&
  negb (negb (bool_decide (path = [])) && forallb is_digit path).

(** The paths a matcher and the matchers nested in it hold. *)
Fixpoint matcher_paths (matcher : Matcher.t) : list (list ascii) :=
  map fst (Matcher.routes matcher) ++
  flat_map (fun child => fst child :: matcher_paths (snd child))
    (Matcher.children matcher).

(** The full paths a call registers, those of the callbacks nested in it
    included. *)
Fixpoint paths (startingPath : list ascii) (c : call) : list (list ascii) :=
  match c with
  | CallNested path body => flat_map (paths (startingPath ++ path)) body
  | CallTo path _ callback =>
      (startingPath ++ path) ::
      match callback with
      | Some (_, body) => flat_map (paths (startingPath ++ path)) body
      | None => []
      end
  end.

(** *** What a callback writes down *)

(** The delegate has no [contextEntered]. *)
Definition enters_no_context (delegate : option Delegate) : Prop :=
  match delegate with
  | Some d => contextEntered d = None
  | None => True
  end.

(** Every function passed to [to] in the call, or in the callbacks nested
    in it, takes an argument. *)
Fixpoint takes_argument (c : call) : bool :=
  match c with
  | CallNested _ body => forallb takes_argument body
  | CallTo _ _ None => true
  | CallTo _ _ (Some (arity, body)) =>
      negb (bool_decide (arity = 0)) && forallb takes_argument body
  end.

(** The paths a call registers in the matcher of its [match], relative to
    the path the matcher stands for; [prefix] is what the enclosing
    [match(path, nestedCallback)] calls put before them. *)
Fixpoint keys (prefix : list ascii) (c : call) : list (list ascii) :=
  match c with
  | CallNested path body => flat_map (keys (prefix ++ path)) body
  | CallTo path _ _ => [prefix ++ path]
  end.

(** No callback nested in the call registers a path twice. *)
Fixpoint distinct_keys (c : call) : bool :=
  match c with
  | CallNested _ body => forallb distinct_keys body
  | CallTo _ _ None => true
  | CallTo _ _ (Some (_, body)) =>
      bool_decide (NoDup (flat_map (keys []) body)) && forallb distinct_keys body
  end.

(** The route arrays a call writes down: [to] without a callback is a
    route of one more level, [to] with a callback puts its level before
    the route arrays of the callback. The handlers are the ones
    [willAddRoute] gives, in the context of the enclosing [to]. *)
Fixpoint chains (delegate : option Delegate) (context : option (list ascii))
  (prefix : list ascii) (c : call) : list (list Route.t) :=
  match c with
  | CallNested path body => flat_map (chains delegate context (prefix ++ path)) body
  | CallTo path target callback =>
      let target := will_add delegate context target in
      let level := Route.mk (prefix ++ path) target in
      match callback with
      | None => [[level]]
      | Some (_, body) =>
          map (cons level) (flat_map (chains delegate (Some target) []) body)
      end
  end.

(** * Properties *)

(** ** Computations that only read *)

Section Readonly.

Lemma readonly_ret {A} (a : A) : readonly (ret a).
Proof. intros rr. reflexivity. Qed.

Lemma readonly_throw {A} (e : exn) : readonly (@throw A e).
Proof. intros rr. reflexivity. Qed.

Lemma readonly_lift {A} (o : outcome A) : readonly (lift o).
Proof. intros rr. reflexivity. Qed.

Lemma readonly_bind {A B} (c : M A) (f : A -> M B) :
  readonly c -> (forall a, readonly (f a)) -> readonly (bind c f).
Proof.
  intros Hc Hf rr. unfold bind. specialize (Hc rr).
  destruct (c rr) as [[a|e] rr']; simpl in *; subst; [apply Hf | reflexivity].
Qed.

Lemma readonly_deref s : readonly (deref s).
Proof. intros rr. unfold deref. destruct (states rr !! s); reflexivity. Qed.

Lemma readonly_this_rootState : readonly this_rootState.
Proof. intros rr. reflexivity. Qed.

Lemma readonly_this_names : readonly this_names.
Proof. intros rr. reflexivity. Qed.

Lemma readonly_foldM {A B} (f : B -> A -> M B) (l : list A) :
  (forall b a, readonly (f b a)) -> forall b, readonly (foldM f b l).
Proof.
  intros Hf. induction l as [|a l IH]; intros b; simpl.
  - apply readonly_ret.
  - apply readonly_bind; [apply Hf | intros b'; apply IH].
Qed.

Lemma readonly_if {A} (b : bool) (c1 c2 : M A) :
  readonly c1 -> readonly c2 -> readonly (if b then c1 else c2).
Proof. destruct b; auto. Qed.

End Readonly.

Create HintDb readonly.
#[export] Hint Resolve readonly_ret readonly_throw readonly_lift readonly_deref
  readonly_this_rootState readonly_this_names : readonly.

Ltac readonly_step :=
  first
    [ apply readonly_bind; [| intros ?]
    | apply readonly_foldM; intros ? ?
    | apply readonly_if
    | solve [auto with readonly] ].

Lemma readonly_State_match s segment : readonly (State_match s segment).
Proof. unfold State_match. repeat readonly_step. Qed.

Lemma readonly_recognizeSegment sts segment : readonly (recognizeSegment sts segment).
Proof.
  unfold recognizeSegment. apply readonly_foldM; intros b a.
  apply readonly_bind; [apply readonly_State_match | intros; apply readonly_ret].
Qed.

Lemma readonly_recognize_loop segments :
  forall sts, readonly (recognize_loop sts segments).
Proof.
  induction segments as [|sg segments IH]; intros sts; simpl.
  - apply readonly_ret.
  - apply readonly_bind; [apply readonly_recognizeSegment |].
    intros sts'. apply readonly_if; [apply readonly_ret | apply IH].
Qed.

Lemma readonly_accepting sts : readonly (accepting sts).
Proof. unfold accepting. repeat readonly_step. Qed.

Lemma readonly_sortSolutions sols : readonly (sortSolutions sols).
Proof.
  unfold sortSolutions. apply readonly_bind; [repeat readonly_step |].
  intros sts. destruct sts as [|x [|y sts]]; auto with readonly.
  destruct (with_types _); auto with readonly.
Qed.

Lemma readonly_recognize path : readonly (recognize path).
Proof.
  unfold recognize.
  apply readonly_bind; [auto with readonly | intros root].
  apply readonly_bind; [apply readonly_recognize_loop | intros sts].
  apply readonly_bind; [apply readonly_accepting | intros sols].
  apply readonly_bind; [apply readonly_sortSolutions | intros sorted].
  destruct sorted as [|s sorted]; [apply readonly_ret |].
  repeat readonly_step.
Qed.

Lemma foldM_push {A} (l : list A) :
  forall acc rr, foldM (fun result h => ret (result ++ [h])) acc l rr = (Ok (acc ++ l), rr).
Proof.
  induction l as [|a l IH]; intros acc rr; simpl.
  - rewrite app_nil_r. reflexivity.
  - unfold bind at 1. simpl. rewrite IH, <- app_assoc. reflexivity.
Qed.

Lemma names_get_own nms name route :
  nms !! name = Some route -> names_get nms name = Registered route.
Proof. intros H. unfold names_get. by rewrite H. Qed.

Lemma readonly_handlersFor name : readonly (handlersFor name).
Proof.
  unfold handlersFor. apply readonly_bind; [auto with readonly | intros nms].
  destruct (names_get nms name); [| apply readonly_throw | apply readonly_throw].
  intros rr. rewrite foldM_push. reflexivity.
Qed.

Lemma readonly_hasRoute name : readonly (hasRoute name).
Proof. unfold hasRoute. repeat readonly_step. Qed.

Lemma readonly_generate name params queries : readonly (generate name params queries).
Proof.
  unfold generate. apply readonly_bind; [auto with readonly | intros nms].
  destruct (names_get nms name); auto with readonly.
Qed.

(** C9: [recognize], [generate], [handlersFor] and [hasRoute] leave the
    recognizer, that is every state of the trie and the name registry,
    exactly as it was, whatever they are given and whether they return or
    throw. *)
Theorem queries_are_pure_reads (rr : RouteRecognizer) (path name : list ascii)
  (params : gmap (list ascii) value)
  (queries : gmap (list ascii) (list (list ascii * value))) :
  snd (recognize path rr) = rr /\
  snd (generate name params queries rr) = rr /\
  snd (handlersFor name rr) = rr /\
  snd (hasRoute name rr) = rr.
Proof.
  split; [| split; [| split]].
  - apply readonly_recognize.
  - apply readonly_generate.
  - apply readonly_handlersFor.
  - apply readonly_hasRoute.
Qed.

(** ** Unknown and known names *)

(** For a name the registry neither holds nor inherits [hasRoute] is false
    and [generate] and [handlersFor] throw the "no route" error; for a name
    that is registered [hasRoute] is true, [generate] returns a string and
    [handlersFor] returns the handlers stored under the name; for a name
    the registry inherits [hasRoute] is true and the two others throw a
    [TypeError]. *)
Lemma unknown_name_is_an_error (rr : RouteRecognizer) (name : list ascii)
  (params : gmap (list ascii) value)
  (queries : gmap (list ascii) (list (list ascii * value))) :
  match names_get (names rr) name with
  | Unregistered =>
      hasRoute name rr = (Ok false, rr) /\
      generate name params queries rr = (Throw (no_route name), rr) /\
      handlersFor name rr = (Throw (no_route name), rr)
  | Foreign =>
      hasRoute name rr = (Ok true, rr) /\
      generate name params queries rr = (Throw TypeError, rr) /\
      handlersFor name rr = (Throw TypeError, rr)
  | Registered route =>
      hasRoute name rr = (Ok true, rr) /\
      (exists out, generate name params queries rr = (Ok out, rr)) /\
      handlersFor name rr = (Ok (Named.handlers route), rr)
  end.
Proof.
  unfold hasRoute, generate, handlersFor, bind, this_names. simpl.
  destruct (names_get (names rr) name) as [route| |] eqn:E; [| done | done].
  split; [reflexivity | split].
  - eexists. reflexivity.
  - rewrite foldM_push. reflexivity.
Qed.

(** C7, the code at the failing input: a name of a property of
    [Object.prototype] that was never registered is found in the registry
    through the prototype. [hasRoute] is true for it, and [generate] and
    [handlersFor] get past the test for an unknown name and throw a
    [TypeError] where they take the [length] of what the name has no
    [segments] and no [handlers] for. *)
Theorem inherited_name_is_taken_for_a_route (rr : RouteRecognizer) (name : list ascii)
  (params : gmap (list ascii) value)
  (queries : gmap (list ascii) (list (list ascii * value))) :
  names rr !! name = None ->
  inherited name = true ->
  hasRoute name rr = (Ok true, rr) /\
  generate name params queries rr = (Throw TypeError, rr) /\
  handlersFor name rr = (Throw TypeError, rr).
Proof.
  intros Hname Hin.
  unfold hasRoute, generate, handlersFor, bind, this_names, names_get. simpl.
  rewrite Hname, Hin. done.
Qed.

Lemma inherited_name_is_taken_for_a_route_witness :
  hasRoute (str "constructor") RouteRecognizer_new = (Ok true, RouteRecognizer_new) /\
  generate (str "constructor") ∅ ∅ RouteRecognizer_new =
    (Throw TypeError, RouteRecognizer_new) /\
  handlersFor (str "constructor") RouteRecognizer_new =
    (Throw TypeError, RouteRecognizer_new).
Proof.
  apply (inherited_name_is_taken_for_a_route RouteRecognizer_new (str "constructor") ∅ ∅).
  - reflexivity.
  - vm_compute. reflexivity.
Defined.

(** ** generate and missing parameters *)

Lemma generate_segment_app params queries output segment :
  generate_segment params queries output segment =
  output ++ segment_text params queries segment.
Proof.
  unfold segment_text, generate_segment. simpl.
  destruct (given (query segment)); [| by rewrite <- !app_assoc].
  destruct (queries !! _); [| by rewrite <- !app_assoc].
  destruct (negb _); by rewrite <- ?app_assoc.
Qed.

Lemma generate_fold params queries segments :
  forall output,
    foldl (generate_segment params queries) output segments =
    output ++ flat_map (segment_text params queries) segments.
Proof.
  induction segments as [|sg segments IH]; intros output; simpl.
  - by rewrite app_nil_r.
  - rewrite IH, generate_segment_app, <- app_assoc. reflexivity.
Qed.

(** C10: for a registered name [generate] returns a string whatever
    [params] holds: the texts of the segments one after the other; a
    dynamic or star segment whose name [params] lacks gives the text of
    what [params[name]] then is: ["/undefined"], or for the name of a
    property of [Object.prototype] the text of what [params] inherits. *)
Theorem generate_does_not_validate_params (rr : RouteRecognizer)
  (name : list ascii) (route : Named.t) (params : gmap (list ascii) value)
  (queries : gmap (list ascii) (list (list ascii * value))) :
  names rr !! name = Some route ->
  exists out,
    generate name params queries rr = (Ok out, rr) /\
    out = (let body := flat_map (segment_text params queries) (Named.segments route) in
           if negb (starts_with "/" body) then str "/" ++ body else body) /\
    forall segment n,
      segment ∈ Named.segments route ->
      kind segment = DynamicSegment n \/ kind segment = StarSegment n ->
      params !! n = None ->
      exists suffix,
        segment_text params queries segment =
        str "/" ++
        to_string (if inherited n then inherited_value n else VUndefined) ++ suffix.
Proof.
  intros Hname. eexists. split; [| split].
  - unfold generate, bind, this_names. simpl.
    rewrite (names_get_own _ _ _ Hname). reflexivity.
  - simpl. rewrite generate_fold. reflexivity.
  - intros segment n _ Hkind Hn.
    assert (Hv : Segment_generate segment params =
                 if inherited n then inherited_value n else VUndefined).
    { unfold Segment_generate, param, get. destruct Hkind as [-> | ->]; by rewrite Hn. }
    unfold segment_text, generate_segment. rewrite Hv.
    generalize (to_string (if inherited n then inherited_value n else VUndefined)).
    intros text. cbn [app].
    destruct (given (query segment)); [| exists []; by rewrite app_nil_r].
    destruct (queries !! _); [| exists []; by rewrite app_nil_r].
    destruct (negb _); [| exists []; by rewrite app_nil_r].
    eexists. rewrite <- app_assoc. reflexivity.
Qed.

Lemma generate_does_not_validate_params_witness :
  exists out,
    generate (str "post") ∅ ∅ Examples.post_table = (Ok out, Examples.post_table) /\
    out = str "/posts/undefined".
Proof.
  destruct (generate_does_not_validate_params Examples.post_table (str "post")
              (Named.mk
                 [Build_Segment (StaticSegment (str "posts")) None;
                  Build_Segment (DynamicSegment (str "id")) (Some (str "post"))]
                 [Handler.mk (str "post") [str "id"] None])
              ∅ ∅) as (out & Hgen & Hout & _).
  - vm_compute. reflexivity.
  - exists out. split; [exact Hgen |]. rewrite Hout. vm_compute. reflexivity.
Defined.

(** ** The expressions [add] builds always compile *)

Lemma dynamicRe_compiled : compile (str "^:([^\/]+)$") = Some dynamicRe.
Proof. reflexivity. Qed.

Lemma starRe_compiled : compile (str "^\*([^\/]+)$") = Some starRe.
Proof. reflexivity. Qed.

Lemma run_app st a b :
  run st (a ++ b) = match run st a with Some st' => run st' b | None => None end.
Proof.
  revert st. induction a as [|c a IH]; intros st; simpl; [done |].
  destruct (step st c); [apply IH | done].
Qed.

Ltac concrete := apply (bool_decide_unpack _); vm_compute; exact I.

Ltac each_element H :=
  repeat (apply elem_of_cons in H as [-> | H]); [.. | by apply elem_of_nil in H].

Lemma run_escape_char c cur stk n :
  run (PState PNormal cur stk n) (if bool_decide (c ∈ specials) then ["\"%char; c] else [c]) =
  Some (PState PNormal (lit c :: cur) stk n).
Proof.
  case_bool_decide as Hc.
  - unfold specials, str in Hc. simpl in Hc. each_element Hc; reflexivity.
  - assert (Hbar : c ∉ str "|{}]").
    { intros Hin. apply Hc. unfold str in Hin. simpl in Hin. each_element Hin; concrete. }
    simpl. unfold step. simpl. unfold step_normal, lit.
    rewrite (bool_decide_false (c ∈ _)) by done.
    repeat case_bool_decide; try reflexivity; try congruence;
      subst; exfalso; apply Hc; concrete.
Qed.

Lemma run_escape t cur stk n :
  run (PState PNormal cur stk n) (escape t) =
  Some (PState PNormal (rev (map lit t) ++ cur) stk n).
Proof.
  revert cur. induction t as [|c t IH]; intros cur; [done |].
  unfold escape. simpl. fold (escape t).
  rewrite run_app, run_escape_char, IH. simpl. by rewrite <- app_assoc.
Qed.

Lemma run_queryRegex cur stk n :
  run (PState PNormal cur stk n) queryRegex =
  Some (PState PNormal (query_atom (S n) :: cur) stk (S n)).
Proof. reflexivity. Qed.

Lemma run_segment seg cur stk n :
  run (PState PNormal cur stk n) (Segment_regex seg) =
  Some (PState PNormal (rev (fst (seg_prog n seg)) ++ cur) stk (snd (seg_prog n seg))).
Proof.
  unfold Segment_regex, seg_prog.
  destruct (kind seg) as [t| |nm|nm]; destruct (given (query seg)); try reflexivity.
  - rewrite run_app, run_escape, run_queryRegex. simpl.
    rewrite rev_app_distr. reflexivity.
  - rewrite run_escape. reflexivity.
Qed.

Lemma segments_text_cons seg segs :
  segments_text (seg :: segs) = "/"%char :: Segment_regex seg ++ segments_text segs.
Proof. reflexivity. Qed.

Lemma run_slash cur stk n s :
  run (PState PNormal cur stk n) ("/"%char :: s) =
  run (PState PNormal (RChar "/" :: cur) stk n) s.
Proof. reflexivity. Qed.

Lemma run_segments segs : forall cur stk n,
  run (PState PNormal cur stk n) (segments_text segs) =
  Some (PState PNormal (rev (fst (segments_prog n segs)) ++ cur) stk
          (snd (segments_prog n segs))).
Proof.
  induction segs as [|seg segs IH]; intros cur stk n; [done |].
  rewrite segments_text_cons, run_slash, run_app, run_segment, IH.
  simpl. destruct (seg_prog n seg) as [a n1]. simpl.
  destruct (segments_prog n1 segs) as [b n2].
  simpl. rewrite rev_app_distr, <- !app_assoc. reflexivity.
Qed.

Lemma run_caret s :
  run pinit ("^"%char :: s) = run (PState PNormal [RBol] [] 0) s.
Proof. reflexivity. Qed.

Lemma run_dollar cur n :
  run (PState PNormal cur [] n) ["$"%char] = Some (PState PNormal (REol :: cur) [] n).
Proof. reflexivity. Qed.

Lemma compile_regex segs :
  compile (str "^" ++ segments_text segs ++ str "$") =
  Some (Build_regexp (str "^" ++ segments_text segs ++ str "$")
          (RBol :: fst (segments_prog 0 segs) ++ [REol])
          (snd (segments_prog 0 segs))).
Proof.
  unfold compile. change (str "^" ++ ?x) with ("^"%char :: x).
  rewrite run_caret, run_app, run_segments. change (str "$") with ["$"%char].
  rewrite run_dollar. unfold finish. simpl.
  rewrite rev_app_distr, rev_involutive. reflexivity.
Qed.

Lemma compile_key seg :
  compile (str "^" ++ Segment_regex seg ++ str "$") =
  Some (Build_regexp (str "^" ++ Segment_regex seg ++ str "$")
          (RBol :: fst (seg_prog 0 seg) ++ [REol])
          (snd (seg_prog 0 seg))).
Proof.
  unfold compile. change (str "^" ++ ?x) with ("^"%char :: x).
  rewrite run_caret, run_app, run_segment. change (str "$") with ["$"%char].
  rewrite run_dollar. unfold finish. simpl.
  rewrite rev_app_distr, rev_involutive. reflexivity.
Qed.

Lemma new_RegExp_segments segs rr :
  new_RegExp (str "^" ++ segments_text segs ++ str "$") rr =
  (Ok (Build_regexp (str "^" ++ segments_text segs ++ str "$")
         (RBol :: fst (segments_prog 0 segs) ++ [REol])
         (snd (segments_prog 0 segs))), rr).
Proof. unfold new_RegExp. by rewrite compile_regex. Qed.

(** ** Nested levels and query captures

    [add] ends the fragment of every level's last segment with the query
    group, so the combined expression of a chain has one more capture per
    level that has segments; [findHandler] skips such a capture only for a
    handler whose [hasQuery] is set, and [add] builds the handlers without
    it. *)

(** C2: with [/posts] and child [/:id] under ["posts"] and ["post"], the
    combined expression matches ["/posts/5"] with the captures
    [undefined], ["5"], [undefined]; [findHandler] gives the first of them
    to [id], and [recognize] returns the chain with [id] undefined, not
    ["5"]. *)
Theorem nested_params_take_the_query_capture :
  (match_regex (str "/posts/5") <$> (State.regex <$> terminal_of Examples.nested_table)) =
    Some (Some [Some (str "/posts/5"); None; Some (str "5"); None]) /\
  recognize (str "/posts/5") Examples.nested_table =
    (Ok (Some [Result.mk (str "posts") ∅ false ∅;
               Result.mk (str "post") {[ str "id" := VUndefined ]} true ∅]),
     Examples.nested_table).
Proof. split; vm_compute; reflexivity. Qed.

(** C3: with ["list"] on [/posts], the expression captures the query text
    of ["/posts;sort=asc;archived"], and the codec would decode it to
    [sort = "asc"], [archived = true]; but the handler has no [hasQuery],
    and [recognize] returns the entry with an empty [query]. *)
Theorem query_capture_is_never_decoded :
  (match_regex (str "/posts;sort=asc;archived")
     <$> (State.regex <$> terminal_of Examples.list_table)) =
    Some (Some [Some (str "/posts;sort=asc;archived"); Some (str "sort=asc;archived")]) /\
  deserializeQueryString (str "sort=asc;archived") =
    {[ str "sort" := VStr (str "asc"); str "archived" := VBool true ]} /\
  (State.handlers <$> terminal_of Examples.list_table) =
    Some (Some [Handler.mk (str "list") [] None]) /\
  recognize (str "/posts;sort=asc;archived") Examples.list_table =
    (Ok (Some [Result.mk (str "list") ∅ false ∅]), Examples.list_table).
Proof. repeat split; vm_compute; reflexivity. Qed.

(** ** Normalization of the path *)

(** C4: [recognize] takes the length of the path before it puts the
    separator in front, so for ["posts/"] the character it looks at is not
    the last one and the trailing separator stays: ["posts/"] is not
    recognized on a table where ["/posts"] is. *)
Theorem trailing_separator_is_kept_without_leading_one :
  normalize (str "posts/") = str "/posts/" /\
  normalize (str "/posts") = str "/posts" /\
  recognize (str "posts/") Examples.list_table = (Ok None, Examples.list_table) /\
  recognize (str "/posts") Examples.list_table =
    (Ok (Some [Result.mk (str "list") ∅ false ∅]), Examples.list_table).
Proof. repeat split; vm_compute; reflexivity. Qed.

(** ** Structural sharing *)

Section Preserves.
Context (P : RouteRecognizer -> Prop).

Lemma preserves_readonly {A} (c : M A) : readonly c -> preserves P c.
Proof. intros H rr HP. by rewrite H. Qed.

Lemma preserves_bind {A B} (c : M A) (f : A -> M B) :
  preserves P c -> (forall a, preserves P (f a)) -> preserves P (bind c f).
Proof.
  intros Hc Hf rr HP. unfold bind. specialize (Hc rr HP).
  destruct (c rr) as [[a|e] rr']; simpl in *; [by apply Hf | done].
Qed.

Lemma preserves_foldM {A B} (f : B -> A -> M B) (l : list A) :
  (forall b a, preserves P (f b a)) -> forall b, preserves P (foldM f b l).
Proof.
  intros Hf. induction l as [|a l IH]; intros b; simpl.
  - apply preserves_readonly, readonly_ret.
  - apply preserves_bind; [apply Hf | intros b'; apply IH].
Qed.

End Preserves.

Lemma get_loop_readonly cs key : readonly (get_loop cs key).
Proof.
  induction cs as [|c cs IH]; simpl; [apply readonly_ret |].
  apply readonly_bind; [apply readonly_deref | intros st].
  apply readonly_if; [apply readonly_ret | apply IH].
Qed.

Lemma State_get_readonly this key : readonly (State_get this key).
Proof.
  unfold State_get. apply readonly_bind; [apply readonly_deref |].
  intros st. apply get_loop_readonly.
Qed.

Lemma get_loop_None rr cs key :
  fst (get_loop cs key rr) = Ok None ->
  forall c, c ∈ cs -> State.segmentRegex <$> states rr !! c ≠ Some (Some key).
Proof.
  induction cs as [|c0 cs IH]; simpl; intros H c Hc.
  - by apply elem_of_nil in Hc.
  - unfold bind, deref in H. destruct (states rr !! c0) as [st0|] eqn:E0; [| done].
    case_bool_decide as Hkey; [done |].
    apply elem_of_cons in Hc as [-> | Hc]; [| by apply IH].
    rewrite E0. simpl. congruence.
Qed.

Lemma get_loop_Some rr cs key child :
  fst (get_loop cs key rr) = Ok (Some child) ->
  child ∈ cs /\ State.segmentRegex <$> states rr !! child = Some (Some key).
Proof.
  induction cs as [|c0 cs IH]; simpl; intros H; [done |].
  unfold bind, deref in H. destruct (states rr !! c0) as [st0|] eqn:E0; [| done].
  case_bool_decide as Hkey.
  - simpl in H. injection H as <-. split; [by left |]. rewrite E0. simpl. by f_equal.
  - destruct (IH H). split; [by right | done].
Qed.


Lemma State_put_cases rr this segmentRegex :
  let key := str "^" ++ segmentRegex ++ str "$" in
  (exists e, State_put this segmentRegex rr = (Throw e, rr)) \/
  (exists child st,
      State_put this segmentRegex rr = (Ok child, rr) /\
      states rr !! this = Some st /\ child ∈ State.nextStates st /\
      State.segmentRegex <$> states rr !! child = Some (Some key)) \/
  (exists st,
      states rr !! this = Some st /\
      (forall c, c ∈ State.nextStates st ->
                 State.segmentRegex <$> states rr !! c ≠ Some (Some key)) /\
      State_put this segmentRegex rr =
        (Ok (length (states rr)),
         Build_RouteRecognizer
           (alter (push_child (length (states rr))) this
              (states rr ++ [State.new (Some key)]))
           (rootState rr) (names rr))).
Proof.
  intros key.
  assert (Hput : State_put this segmentRegex rr =
            match State_get this key rr with
            | (Ok (Some child), rr') => (Ok child, rr')
            | (Ok None, rr') =>
                (Ok (length (states rr')),
                 Build_RouteRecognizer
                   (alter (push_child (length (states rr'))) this
                      (states rr' ++ [State.new (Some key)]))
                   (rootState rr') (names rr'))
            | (Throw e, rr') => (Throw e, rr')
            end).
  { unfold State_put, bind. fold key.
    destruct (State_get this key rr) as [[[c|]|e] rr']; reflexivity. }
  rewrite Hput. clear Hput.
  pose proof (State_get_readonly this key rr) as Hro.
  destruct (State_get this key rr) as [[found|e] rr'] eqn:Hget; simpl in Hro; subst rr'.
  2: { left. eauto. }
  unfold State_get, bind, deref in Hget.
  destruct (states rr !! this) as [st|] eqn:Hthis; [| done].
  destruct found as [child|].
  - right. left. exists child, st.
    destruct (get_loop_Some rr (State.nextStates st) key child) as [? ?];
      [by rewrite Hget |].
    split; [reflexivity |]. split; [reflexivity |]. split; assumption.
  - right. right. exists st. split; [done |]. split.
    + apply get_loop_None. by rewrite Hget.
    + reflexivity.
Qed.

Lemma lookup_key_alter (f : State.t -> State.t) i (l : list State.t) c :
  (forall st, State.segmentRegex (f st) = State.segmentRegex st) ->
  State.segmentRegex <$> alter f i l !! c = State.segmentRegex <$> l !! c.
Proof.
  intros Hf. destruct (decide (i = c)) as [-> | Hne].
  - rewrite list_lookup_alter_eq. destruct (l !! c); simpl; [by rewrite Hf | done].
  - by rewrite list_lookup_alter_ne.
Qed.

Lemma trie_inv_put_new rr this st key :
  trie_inv rr ->
  states rr !! this = Some st ->
  (forall c, c ∈ State.nextStates st ->
             State.segmentRegex <$> states rr !! c ≠ Some (Some key)) ->
  trie_inv
    (Build_RouteRecognizer
       (alter (push_child (length (states rr))) this
          (states rr ++ [State.new (Some key)]))
       (rootState rr) (names rr)).
Proof.
  intros [Hvalid Hdistinct] Hthis Hfresh.
  set (n := length (states rr)).
  assert (Hthis_lt : this < n) by (by eapply lookup_lt_Some).
  assert (Hkey : forall c,
             State.segmentRegex <$>
               alter (push_child n) this (states rr ++ [State.new (Some key)]) !! c =
             State.segmentRegex <$> (states rr ++ [State.new (Some key)]) !! c).
  { intros c. by apply lookup_key_alter. }
  assert (Hold : forall s0 st0 c, states rr !! s0 = Some st0 -> c ∈ State.nextStates st0 ->
             State.segmentRegex <$>
               alter (push_child n) this (states rr ++ [State.new (Some key)]) !! c =
             State.segmentRegex <$> states rr !! c).
  { intros s0 st0 c Hs0 Hc. rewrite Hkey, lookup_app_l; [done |]. by eapply Hvalid. }
  assert (Hcases : forall s0 st0,
             alter (push_child n) this (states rr ++ [State.new (Some key)]) !! s0 = Some st0 ->
             (s0 = this /\ st0 = push_child n st) \/
             (s0 ≠ this /\ states rr !! s0 = Some st0) \/
             (s0 = n /\ st0 = State.new (Some key))).
  { intros s0 st0 H. destruct (decide (this = s0)) as [<- | Hne].
    - left. rewrite list_lookup_alter_eq, lookup_app_l, Hthis in H by done.
      simpl in H. by injection H as <-.
    - right. rewrite list_lookup_alter_ne in H by done.
      apply lookup_snoc_Some in H as [[? ?] | [? ?]]; [left | right]; done. }
  split.
  - intros s0 st0 c Hs0 Hc. simpl in *. rewrite length_alter, length_app. simpl.
    destruct (Hcases _ _ Hs0) as [[-> ->] | [[? Hs] | [-> ->]]].
    + simpl in Hc. apply elem_of_app in Hc as [Hc | Hc].
      * specialize (Hvalid _ _ _ Hthis Hc). lia.
      * apply list_elem_of_singleton in Hc as ->. fold n. lia.
    + specialize (Hvalid _ _ _ Hs Hc). lia.
    + simpl in Hc. by apply elem_of_nil in Hc.
  - intros s0 st0 Hs0. unfold child_keys. simpl in *.
    destruct (Hcases _ _ Hs0) as [[-> ->] | [[? Hs] | [-> ->]]].
    + simpl. rewrite map_app. simpl.
      rewrite Hkey, list_lookup_middle by done. simpl.
      replace (map _ (State.nextStates st)) with (child_keys rr st).
      2: { unfold child_keys. apply map_ext_in. intros c Hc. symmetry.
           eapply Hold; [done |]. by apply list_elem_of_In. }
      apply NoDup_app. split; [by eapply Hdistinct |]. split; [| apply NoDup_singleton].
      intros k Hk Hk'. apply list_elem_of_singleton in Hk' as ->.
      unfold child_keys in Hk. apply list_elem_of_fmap in Hk as (c & Hck & Hc).
      by eapply Hfresh.
    + replace (map _ (State.nextStates st0)) with (child_keys rr st0).
      2: { unfold child_keys. apply map_ext_in. intros c Hc. symmetry.
           eapply Hold; [done |]. by apply list_elem_of_In. }
      by eapply Hdistinct.
    + simpl. constructor.
Qed.

Lemma State_put_inv this segmentRegex : preserves trie_inv (State_put this segmentRegex).
Proof.
  intros rr Hinv.
  destruct (State_put_cases rr this segmentRegex)
    as [[e ->] | [(child & st & -> & _) | (st & Hthis & Hfresh & ->)]]; try done.
  simpl. by eapply trie_inv_put_new.
Qed.

Lemma modify_inv s (f : State.t -> State.t) :
  (forall st, State.segmentRegex (f st) = State.segmentRegex st) ->
  (forall st, State.nextStates (f st) = State.nextStates st) ->
  preserves trie_inv (modify s f).
Proof.
  intros Hkey Hnext rr [Hvalid Hdistinct]. simpl.
  assert (Hcases : forall s0 st0, alter f s (states rr) !! s0 = Some st0 ->
            exists st1, states rr !! s0 = Some st1 /\
                        State.nextStates st0 = State.nextStates st1).
  { intros s0 st0 H. destruct (decide (s = s0)) as [<- | Hne].
    - rewrite list_lookup_alter_eq in H. destruct (states rr !! s) as [st1|]; [| done].
      simpl in H. injection H as <-. eauto.
    - rewrite list_lookup_alter_ne in H by done. eauto. }
  split.
  - intros s0 st0 c Hs0 Hc. simpl in *. rewrite length_alter.
    destruct (Hcases _ _ Hs0) as (st1 & Hs1 & Heq). rewrite Heq in Hc. by eapply Hvalid.
  - intros s0 st0 Hs0. unfold child_keys. simpl in *.
    destruct (Hcases _ _ Hs0) as (st1 & Hs1 & ->).
    erewrite map_ext; [by eapply (Hdistinct s0 st1) |].
    intros c. by apply lookup_key_alter.
Qed.

Lemma set_name_inv name r : preserves trie_inv (set_name name r).
Proof. intros rr H. exact H. Qed.

Lemma add_route_inv v route : preserves trie_inv (add_route v route).
Proof.
  unfold add_route. destruct (parse _ _ _) as [[segments nms] tys].
  apply preserves_bind; [| intros r; apply preserves_readonly, readonly_ret].
  apply preserves_foldM. intros [cur re] seg. unfold add_segment.
  apply preserves_bind; [apply State_put_inv |].
  intros c. apply preserves_readonly, readonly_ret.
Qed.

Lemma add_inv routes options : preserves trie_inv (add routes options).
Proof.
  unfold add.
  apply preserves_bind; [apply preserves_readonly, readonly_this_rootState | intros root].
  apply preserves_bind; [apply preserves_foldM; intros; apply add_route_inv | intros v].
  apply preserves_bind.
  { destruct (isEmpty v); [| apply preserves_readonly, readonly_ret].
    apply preserves_bind; [apply State_put_inv | intros c].
    destruct (last _); apply preserves_readonly; auto with readonly. }
  intros v'.
  apply preserves_bind; [by apply modify_inv | intros _].
  apply preserves_bind.
  { unfold new_RegExp. destruct (compile _); apply preserves_readonly; auto with readonly. }
  intros re.
  apply preserves_bind; [by apply modify_inv | intros _].
  apply preserves_bind; [by apply modify_inv | intros _].
  destruct (given options); [apply set_name_inv | apply preserves_readonly, readonly_ret].
Qed.

Lemma run_adds_inv calls : forall rr, trie_inv rr -> trie_inv (run_adds calls rr).
Proof.
  induction calls as [|[routes options] calls IH]; intros rr Hinv; simpl; [done |].
  apply IH. by apply add_inv.
Qed.

Lemma trie_inv_new : trie_inv RouteRecognizer_new.
Proof.
  split.
  - intros [|s] st c Hs Hc; simpl in Hs; [| done].
    injection Hs as <-. by apply elem_of_nil in Hc.
  - intros [|s] st Hs; simpl in Hs; [| done].
    injection Hs as <-. constructor.
Qed.

(** C8, the claim as stated fails: after [/posts] and then [/posts/new]
    the root does not have a single child that both registrations go
    through. *)
Lemma posts_edge_is_not_shared :
  ~ exists c,
      State.nextStates <$>
        states Examples.shared_table !! rootState Examples.shared_table = Some [c].
Proof. intros [c H]. vm_compute in H. discriminate H. Qed.

(** C8, amended: after any sequence of [add] calls no state has two
    children with the same key, and [put] returns the child that has the
    key when there is one and leaves the trie as it is. The key of the last
    segment of a level ends with the query group: after [/posts] and then
    [/posts/new] the root has two children, one keyed by [posts] followed
    by the query group and one keyed by [posts] alone, and both paths are
    recognized; after [/posts/new] and then [/posts/:id] the root has the one
    child keyed by [posts] alone, with two children. *)
Theorem children_keys_are_distinct :
  (forall calls, children_distinct (run_adds calls RouteRecognizer_new)) /\
  (forall rr this segmentRegex child,
      State_get this (str "^" ++ segmentRegex ++ str "$") rr = (Ok (Some child), rr) ->
      State_put this segmentRegex rr = (Ok child, rr)) /\
  (let rr := run_adds [([Examples.level "/posts" "posts"], None);
                       ([Examples.level "/posts/new" "new"], None)]
               RouteRecognizer_new in
   (State.nextStates <$> states rr !! 0) = Some [1; 2] /\
   (State.segmentRegex <$> states rr !! 1) = Some (Some (str "^posts(?:;([^/]*))?$")) /\
   (State.segmentRegex <$> states rr !! 2) = Some (Some (str "^posts$")) /\
   fst (recognize (str "/posts") rr) = Ok (Some [Result.mk (str "posts") ∅ false ∅]) /\
   fst (recognize (str "/posts/new") rr) = Ok (Some [Result.mk (str "new") ∅ false ∅])) /\
  (let rr := run_adds [([Examples.level "/posts/new" "new"], None);
                       ([Examples.level "/posts/:id" "show"], None)]
               RouteRecognizer_new in
   (State.nextStates <$> states rr !! 0) = Some [1] /\
   (State.segmentRegex <$> states rr !! 1) = Some (Some (str "^posts$")) /\
   (State.nextStates <$> states rr !! 1) = Some [2; 3]).
Proof.
  split; [| split; [| split]].
  - intros calls. apply run_adds_inv, trie_inv_new.
  - intros rr this segmentRegex child Hget. unfold State_put, bind. by rewrite Hget.
  - vm_compute. repeat split; reflexivity.
  - vm_compute. repeat split; reflexivity.
Qed.

(** ** Every terminal state has its types *)

Lemma segments_text_app a b : segments_text (a ++ b) = segments_text a ++ segments_text b.
Proof. unfold segments_text. apply flat_map_app. Qed.

Lemma add_segment_text segs : forall cur re rr fin re' rr',
  foldM add_segment (cur, re) segs rr = (Ok (fin, re'), rr') ->
  re' = re ++ segments_text segs.
Proof.
  induction segs as [|seg segs IH]; intros cur re rr fin re' rr' H.
  - simpl in H. injection H as <- <- <-. by rewrite app_nil_r.
  - cbn [foldM] in H. unfold bind at 1 in H. unfold add_segment at 1 in H.
    unfold bind at 1 in H.
    destruct (State_put cur (Segment_regex seg) rr) as [[c|e] rr1]; [| done].
    unfold ret at 1 in H. apply IH in H. rewrite H, segments_text_cons.
    by rewrite <- !app_assoc.
Qed.

Lemma add_route_text v route rr v' rr' :
  text_inv v -> add_route v route rr = (Ok v', rr') -> text_inv v'.
Proof.
  unfold text_inv, add_route. intros Hv H.
  destruct (parse _ _ _) as [[segs nms] tys].
  unfold bind in H.
  destruct (foldM add_segment _ _ rr) as [[[fin re]|e] rr1] eqn:Hfold; [| done].
  apply add_segment_text in Hfold. injection H as <- <-. simpl.
  rewrite Hfold, Hv, segments_text_app. by rewrite <- app_assoc.
Qed.

Lemma add_routes_text routes : forall v rr v' rr',
  text_inv v -> foldM add_route v routes rr = (Ok v', rr') -> text_inv v'.
Proof.
  induction routes as [|route routes IH]; intros v rr v' rr' Hv H.
  - simpl in H. by injection H as <- <-.
  - cbn [foldM] in H. unfold bind at 1 in H.
    destruct (add_route v route rr) as [[v1|e] rr1] eqn:Hroute; [| done].
    eapply IH; [| exact H]. by eapply add_route_text.
Qed.

Lemma State_put_typed this frag : preserves terminals_typed (State_put this frag).
Proof.
  intros rr Htyped.
  destruct (State_put_cases rr this frag)
    as [[e ->] | [(child & st & -> & _) | (st & Hthis & _ & ->)]]; try done.
  intros s st0 Hs Hh. simpl in Hs.
  destruct (decide (this = s)) as [<- | Hne].
  - rewrite list_lookup_alter_eq, lookup_app_l, Hthis in Hs by (by eapply lookup_lt_Some).
    simpl in Hs. injection Hs as <-. simpl in *. by eapply Htyped.
  - rewrite list_lookup_alter_ne in Hs by done.
    apply lookup_snoc_Some in Hs as [[_ Hs] | [_ <-]]; [by eapply Htyped |].
    simpl in Hh. by destruct Hh.
Qed.

Lemma add_route_typed v route : preserves terminals_typed (add_route v route).
Proof.
  unfold add_route. destruct (parse _ _ _) as [[segments nms] tys].
  apply preserves_bind; [| intros r; apply preserves_readonly, readonly_ret].
  apply preserves_foldM. intros [cur re] seg. unfold add_segment.
  apply preserves_bind; [apply State_put_typed |].
  intros c. apply preserves_readonly, readonly_ret.
Qed.

Lemma terminals_typed_finish rr rr' cur hs p tys :
  terminals_typed rr ->
  states rr' =
    alter (set_types tys) cur
      (alter (set_regex p) cur (alter (set_handlers hs) cur (states rr))) ->
  terminals_typed rr'.
Proof.
  intros Htyped Hstates s st Hs Hh. rewrite Hstates in Hs.
  destruct (decide (cur = s)) as [<- | Hne].
  - rewrite !list_lookup_alter_eq in Hs. destruct (states rr !! cur); [| done].
    simpl in Hs. injection Hs as <-. simpl. eauto.
  - rewrite !list_lookup_alter_ne in Hs by done. by eapply (Htyped s).
Qed.

Lemma add_typed routes options : preserves terminals_typed (add routes options).
Proof.
  intros rr Htyped. unfold add. unfold bind at 1. unfold this_rootState at 1.
  unfold bind at 1.
  set (v0 := Build_add_vars (rootState rr) (str "^") (Build_Types 0 0 0) [] [] true).
  assert (Hv0 : text_inv v0) by reflexivity.
  pose proof (preserves_foldM terminals_typed add_route routes add_route_typed v0 rr Htyped)
    as Htyped1.
  destruct (foldM add_route v0 routes rr) as [[v|e] rr1] eqn:Hloop; [| done].
  simpl in Htyped1. apply add_routes_text in Hloop; [| done].
  unfold bind at 1.
  assert (Hphase : exists o rr2,
             (if isEmpty v
              then
                let* currentState := State_put (currentState v) [] in
                match last (handlers v) with
                | Some lastHandler =>
                    ret (Build_add_vars currentState
                           (regex_text v ++ str "/" ++
                              Segment_regex
                                (Build_Segment EpsilonSegment
                                   (Some (Handler.handler lastHandler))))
                           (types v) (handlers v)
                           (allSegments v ++
                              [Build_Segment EpsilonSegment
                                 (Some (Handler.handler lastHandler))]) true)
                | None => throw TypeError
                end
              else ret v) rr1 = (o, rr2) /\
             terminals_typed rr2 /\
             match o with Ok v' => text_inv v' | Throw _ => True end).
  { destruct (isEmpty v).
    - unfold bind. pose proof (State_put_typed (currentState v) [] rr1 Htyped1) as Hput.
      destruct (State_put (currentState v) [] rr1) as [[c|e] rr2]; simpl in Hput.
      + destruct (last (handlers v)) as [lastHandler|].
        * eexists _, _. split; [reflexivity |]. split; [done |].
          unfold text_inv in *. simpl. rewrite Hloop, segments_text_app.
          rewrite <- !app_assoc. reflexivity.
        * eexists _, _. split; [reflexivity |]. done.
      + eexists _, _. split; [reflexivity |]. done.
    - eexists _, _. split; [reflexivity |]. done. }
  destruct Hphase as (o & rr2 & -> & Htyped2 & Hо).
  destruct o as [v'|e]; [| done].
  unfold bind at 1. unfold modify at 1. unfold bind at 1.
  unfold text_inv in Hо. rewrite Hо, <- app_assoc, new_RegExp_segments.
  unfold bind, modify. simpl.
  destruct (given options); simpl;
    by eapply (terminals_typed_finish rr2 _ (currentState v')).
Qed.

Lemma terminals_typed_new : terminals_typed RouteRecognizer_new.
Proof.
  intros [|s] st Hs Hh; simpl in Hs; [| done].
  injection Hs as <-. simpl in Hh. by destruct Hh.
Qed.

Lemma run_adds_typed calls : forall rr,
  terminals_typed rr -> terminals_typed (run_adds calls rr).
Proof.
  induction calls as [|[routes options] calls IH]; intros rr Hrr; simpl; [done |].
  apply IH. by apply add_typed.
Qed.

(** ** Disambiguation *)

Section Sort.
Context {A : Type} (cmp : A -> A -> Z) (le : A -> A -> Prop).
Hypothesis cmp_le : forall a b, (cmp a b <=? 0)%Z = true -> le a b.
Hypothesis cmp_gt : forall a b, (cmp a b <=? 0)%Z = false -> le b a.
Hypothesis le_trans : forall a b c, le a b -> le b c -> le a c.

Lemma le_refl a : le a a.
Proof. destruct (cmp a a <=? 0)%Z eqn:E; [by apply cmp_le | by apply cmp_gt]. Qed.

Lemma sort_insert_perm x l : sort_insert cmp x l ≡ₚ x :: l.
Proof.
  induction l as [|y l IH]; simpl; [done |].
  destruct (cmp x y <=? 0)%Z; [done |].
  rewrite IH. apply Permutation_swap.
Qed.

Lemma sort_perm l : sort cmp l ≡ₚ l.
Proof.
  induction l as [|x l IH]; simpl; [done |].
  rewrite sort_insert_perm. by constructor.
Qed.

Lemma sort_insert_head_least x l : head_least le l -> head_least le (sort_insert cmp x l).
Proof.
  destruct l as [|y l]; simpl.
  - intros _ z Hz. apply list_elem_of_singleton in Hz as ->. apply le_refl.
  - intros Hl. destruct (cmp x y <=? 0)%Z eqn:E.
    + intros z Hz. apply elem_of_cons in Hz as [-> | Hz]; [apply le_refl |].
      eapply le_trans; [by apply cmp_le | by apply Hl].
    + intros z Hz. apply elem_of_cons in Hz as [-> | Hz]; [apply le_refl |].
      rewrite sort_insert_perm in Hz.
      apply elem_of_cons in Hz as [-> | Hz]; [by apply cmp_gt |].
      apply Hl. by right.
Qed.

Lemma sort_head_least l : head_least le (sort cmp l).
Proof.
  induction l as [|x l IH]; simpl; [done |].
  by apply sort_insert_head_least.
Qed.

End Sort.

Lemma compare_types_le a b : (compare_types a b <=? 0)%Z = true -> types_le a b.
Proof.
  unfold compare_types, types_le. intros H.
  repeat (case_bool_decide; simpl in H); apply Z.leb_le in H; lia.
Qed.

Lemma compare_types_gt a b : (compare_types a b <=? 0)%Z = false -> types_le b a.
Proof.
  unfold compare_types, types_le. intros H.
  repeat (case_bool_decide; simpl in H); apply Z.leb_gt in H; lia.
Qed.

Lemma types_le_trans a b c : types_le a b -> types_le b c -> types_le a c.
Proof. unfold types_le. lia. Qed.

Lemma foldM_deref rr l :
  forall acc,
    foldM (fun acc s => let* st := deref s in ret (acc ++ [(s, st)])) acc l rr =
    match deref_all rr l with
    | Some r => (Ok (acc ++ r), rr)
    | None => (Throw TypeError, rr)
    end.
Proof.
  induction l as [|s l IH]; intros acc; simpl.
  - by rewrite app_nil_r.
  - unfold bind at 1. unfold bind at 1. unfold deref at 1.
    destruct (states rr !! s) as [st|]; simpl; [| done].
    rewrite IH. destruct (deref_all rr l); [| done].
    by rewrite <- app_assoc.
Qed.

Lemma deref_all_fst rr l r : deref_all rr l = Some r -> map fst r = l.
Proof.
  revert r. induction l as [|s l IH]; intros r; simpl.
  - by intros [= <-].
  - destruct (states rr !! s); [| done].
    destruct (deref_all rr l); [| done].
    intros [= <-]. simpl. f_equal. by apply IH.
Qed.

Lemma deref_all_elem rr l r s st :
  deref_all rr l = Some r -> (s, st) ∈ r -> s ∈ l /\ states rr !! s = Some st.
Proof.
  revert r. induction l as [|s0 l IH]; intros r; simpl.
  - intros [= <-] H. by apply elem_of_nil in H.
  - destruct (states rr !! s0) eqn:E0; [| done].
    destruct (deref_all rr l); [| done].
    intros [= <-] H. apply elem_of_cons in H as [[= -> ->] | H].
    + split; [by left | done].
    + destruct (IH _ eq_refl H). split; [by right | done].
Qed.

Lemma deref_all_Some rr l :
  (forall s, s ∈ l -> is_Some (states rr !! s)) -> is_Some (deref_all rr l).
Proof.
  induction l as [|s l IH]; intros H; simpl; [done |].
  destruct (H s) as [st ->]; [by left |].
  destruct IH as [r ->]; [| done].
  intros s' Hs'. apply H. by right.
Qed.

Lemma with_types_Some l :
  (forall s st, (s, st) ∈ l -> is_Some (State.types st)) -> is_Some (with_types l).
Proof.
  induction l as [|[s st] l IH]; intros H; simpl; [done |].
  destruct (H s st) as [ty ->]; [by left |].
  destruct IH as [r ->]; [| done].
  intros s' st' Hs'. eapply H. by right.
Qed.

Lemma with_types_elem l r s ty :
  with_types l = Some r -> (s, ty) ∈ r ->
  exists st, (s, st) ∈ l /\ State.types st = Some ty.
Proof.
  revert r. induction l as [|[s0 st0] l IH]; intros r; simpl.
  - intros [= <-] H. by apply elem_of_nil in H.
  - destruct (State.types st0) eqn:E0; [| done].
    destruct (with_types l); [| done].
    intros [= <-] H. apply elem_of_cons in H as [[= -> ->] | H].
    + exists st0. split; [by left | done].
    + destruct (IH _ eq_refl H) as (st & ? & ?). exists st. split; [by right | done].
Qed.

Lemma with_types_fst l r : with_types l = Some r -> map fst r = map fst l.
Proof.
  revert r. induction l as [|[s0 st0] l IH]; intros r; simpl.
  - by intros [= <-].
  - destruct (State.types st0); [| done].
    destruct (with_types l); [| done].
    intros [= <-]. simpl. f_equal. by apply IH.
Qed.

Lemma accepting_fold rr l :
  forall acc sols,
    foldM (fun solutions s =>
             let* st := deref s in
             ret (if bool_decide (is_Some (State.handlers st)) then solutions ++ [s]
                  else solutions)) acc l rr = (Ok sols, rr) ->
    forall s, s ∈ sols ->
      s ∈ acc \/ exists st, states rr !! s = Some st /\ is_Some (State.handlers st).
Proof.
  induction l as [|s0 l IH]; intros acc sols; simpl.
  - intros [= <-] s Hs. by left.
  - unfold bind at 1. unfold bind at 1. unfold deref at 1.
    destruct (states rr !! s0) as [st0|] eqn:E0; simpl; [| done].
    intros H s Hs. destruct (IH _ _ H s Hs) as [Hacc | ?]; [| by right].
    case_bool_decide; [| by left].
    apply elem_of_app in Hacc as [? | Hs0]; [by left |].
    apply list_elem_of_singleton in Hs0 as ->. right. eauto.
Qed.

Lemma accepting_spec rr l sols s :
  accepting l rr = (Ok sols, rr) -> s ∈ sols ->
  exists st, states rr !! s = Some st /\ is_Some (State.handlers st).
Proof.
  intros H Hs. destruct (accepting_fold rr l [] sols H s Hs) as [Hnil | ?]; [| done].
  by apply elem_of_nil in Hnil.
Qed.

Lemma candidates_spec rr path sols s :
  candidates path rr = (Ok sols, rr) -> s ∈ sols ->
  exists st, states rr !! s = Some st /\ is_Some (State.handlers st).
Proof.
  unfold candidates, bind, this_rootState. simpl.
  pose proof (readonly_recognize_loop (drop 1 (split "/" (normalize path)))
                [rootState rr] rr) as Hro.
  destruct (recognize_loop _ _ rr) as [[sts|e] rr']; simpl in Hro; subst; [| done].
  apply accepting_spec.
Qed.

Lemma recognize_candidates rr path :
  recognize path rr =
  match candidates path rr with
  | (Ok sols, rr') =>
      (let* solutions := sortSolutions sols in
       match solutions with
       | [] => ret None
       | s :: _ =>
           let* state := deref s in
           if bool_decide (is_Some (State.handlers state)) then
             let* r := lift (findHandler state (normalize path)) in ret (Some r)
           else ret None
       end) rr'
  | (Throw e, rr') => (Throw e, rr')
  end.
Proof.
  unfold recognize, candidates, bind, this_rootState. simpl.
  destruct (recognize_loop _ _ rr) as [[sts|e] rr1]; [| done].
  destruct (accepting sts rr1) as [[sols|e] rr2]; done.
Qed.

Lemma lowest_types_of_typed (rr : RouteRecognizer) (path : list ascii)
  (sols : list nat) :
  terminals_typed rr ->
  candidates path rr = (Ok sols, rr) ->
  1 < length sols ->
  exists s st ty,
    s ∈ sols /\ states rr !! s = Some st /\ State.types st = Some ty /\
    (forall s' st' ty',
        s' ∈ sols -> states rr !! s' = Some st' -> State.types st' = Some ty' ->
        types_le ty ty') /\
    recognize path rr =
      (match findHandler st (normalize path) with
       | Ok r => Ok (Some r)
       | Throw e => Throw e
       end, rr).
Proof.
  intros Htyped Hcand Hlen.
  assert (Hsol : forall s, s ∈ sols ->
            exists st, states rr !! s = Some st /\ is_Some (State.handlers st)).
  { intros s Hs. eapply candidates_spec; eauto. }
  destruct (deref_all_Some rr sols) as [sts Hsts].
  { intros s Hs. destruct (Hsol s Hs) as (st & -> & _). eauto. }
  destruct (with_types_Some sts) as [keyed Hkeyed].
  { intros s st Hin. destruct (deref_all_elem _ _ _ _ _ Hsts Hin) as [Hs Hst].
    destruct (Hsol s Hs) as (st' & Hst' & Hh). rewrite Hst in Hst'.
    injection Hst' as <-. eapply Htyped; eauto. }
  pose (cmp := fun a b : nat * Types => compare_types (snd a) (snd b)).
  pose (le := fun a b : nat * Types => types_le (snd a) (snd b)).
  assert (Hleast : head_least le (sort cmp keyed)).
  { apply (sort_head_least cmp le).
    - intros a b. apply compare_types_le.
    - intros a b. apply compare_types_gt.
    - intros a b c. apply types_le_trans. }
  assert (Hfst : map fst keyed = sols).
  { rewrite (with_types_fst _ _ Hkeyed). by eapply deref_all_fst. }
  assert (Hperm : sort cmp keyed ≡ₚ keyed) by apply sort_perm.
  destruct (sort cmp keyed) as [|[s ty] sorted] eqn:Hsorted.
  { apply Permutation_nil_l in Hperm. subst keyed. simpl in Hfst. subst sols.
    simpl in Hlen. lia. }
  assert (Hin : (s, ty) ∈ keyed) by (rewrite <- Hperm; by left).
  destruct (with_types_elem _ _ _ _ Hkeyed Hin) as (st & Hst & Hty).
  destruct (deref_all_elem _ _ _ _ _ Hsts Hst) as [Hs Hlook].
  exists s, st, ty. repeat split; try done.
  - intros s' st' ty' Hs' Hlook' Hty'.
    assert (Hin' : (s', ty') ∈ keyed).
    { rewrite <- Hfst in Hs'. apply list_elem_of_fmap in Hs' as ([s2 ty2] & -> & Hin2).
      destruct (with_types_elem _ _ _ _ Hkeyed Hin2) as (st2 & Hst2 & Hty2).
      destruct (deref_all_elem _ _ _ _ _ Hsts Hst2) as [_ Hlook2].
      simpl in Hlook'. rewrite Hlook2 in Hlook'. injection Hlook' as <-.
      rewrite Hty2 in Hty'. by injection Hty' as <-. }
    apply (Hleast (s', ty')). rewrite Hperm. done.
  - rewrite recognize_candidates, Hcand.
    unfold bind at 1. unfold sortSolutions. unfold bind at 1.
    rewrite (foldM_deref rr sols []), Hsts. simpl.
    assert (Hlen' : length sts = length sols).
    { rewrite <- (deref_all_fst _ _ _ Hsts). by rewrite length_map. }
    destruct sts as [|x [|y sts]]; simpl in Hlen'; try lia.
    rewrite Hkeyed. fold cmp. rewrite Hsorted. simpl.
    unfold bind, deref. rewrite Hlook.
    destruct (Hsol s Hs) as (st' & Hst' & Hh). rewrite Hlook in Hst'.
    injection Hst' as <-. rewrite bool_decide_true by done.
    unfold lift. destruct (findHandler st (normalize path)); done.
Qed.

(** C5: in a recognizer built by any sequence of [add] calls, when more
    than one terminal state is left after the whole path, [recognize]
    answers with a state whose [(stars, dynamics, statics)] is lowest in
    ascending lexicographic order among those left: fewer stars first, then
    fewer dynamic segments, then fewer static segments. *)
Theorem lowest_types_tuple_is_selected
  (calls : list (list Route.t * option (list ascii))) (path : list ascii)
  (sols : list nat) :
  let rr := run_adds calls RouteRecognizer_new in
  candidates path rr = (Ok sols, rr) ->
  1 < length sols ->
  exists s st ty,
    s ∈ sols /\ states rr !! s = Some st /\ State.types st = Some ty /\
    (forall s' st' ty',
        s' ∈ sols -> states rr !! s' = Some st' -> State.types st' = Some ty' ->
        types_le ty ty') /\
    recognize path rr =
      (match findHandler st (normalize path) with
       | Ok r => Ok (Some r)
       | Throw e => Throw e
       end, rr).
Proof.
  intros rr. apply lowest_types_of_typed.
  apply run_adds_typed, terminals_typed_new.
Qed.

Lemma lowest_types_tuple_is_selected_witness :
  let rr := run_adds [([Examples.level "/posts/new" "new"], None);
                      ([Examples.level "/posts/:id" "show"], None)]
              RouteRecognizer_new in
  exists s st ty,
    s ∈ [2; 3] /\ states rr !! s = Some st /\ State.types st = Some ty /\
    (forall s' st' ty',
        s' ∈ [2; 3] -> states rr !! s' = Some st' -> State.types st' = Some ty' ->
        types_le ty ty') /\
    recognize (str "/posts/new") rr =
      (match findHandler st (normalize (str "/posts/new")) with
       | Ok r => Ok (Some r)
       | Throw e => Throw e
       end, rr).
Proof.
  apply (lowest_types_tuple_is_selected
           [([Examples.level "/posts/new" "new"], None);
            ([Examples.level "/posts/:id" "show"], None)]
           (str "/posts/new") [2; 3]).
  - vm_compute. reflexivity.
  - simpl. lia.
Defined.

(** ** Query codec *)

Lemma replace_first_absent pat rep s : occurs pat s = false -> replace_first pat rep s = s.
Proof.
  induction s as [|c s IH]; simpl.
  - destruct (strip_prefix pat []); [done | done].
  - destruct (strip_prefix pat (c :: s)); [done |]. intros H. f_equal. by apply IH.
Qed.

Lemma occurs_char c s : c ∉ s -> occurs [c] s = false.
Proof.
  induction s as [|x s IH]; intros H; simpl; [done |].
  apply not_elem_of_cons in H as [Hne Hs].
  rewrite bool_decide_false by done. by apply IH.
Qed.

Lemma escape_query_plain s : plain s -> escape_query s = s.
Proof.
  intros (Hsemi & Heq & _ & _). unfold escape_query.
  change (str ";") with [";"%char]. change (str "=") with ["="%char].
  rewrite (replace_first_absent [";"%char]) by by apply occurs_char.
  by rewrite replace_first_absent by by apply occurs_char.
Qed.

Lemma unescape_query_plain s : plain s -> unescape_query s = s.
Proof.
  intros (_ & _ & H3D & H3B). unfold unescape_query.
  rewrite (replace_first_absent (str "%3D")) by done.
  by rewrite replace_first_absent by done.
Qed.

Lemma split_absent c s : c ∉ s -> split c s = [s].
Proof.
  induction s as [|x s IH]; intros H; simpl; [done |].
  apply not_elem_of_cons in H as [Hne Hs].
  rewrite bool_decide_false by done. by rewrite IH.
Qed.

Lemma split_app c a b : c ∉ a -> split c (a ++ c :: b) = a :: split c b.
Proof.
  induction a as [|x a IH]; intros H; simpl.
  - by rewrite bool_decide_true.
  - apply not_elem_of_cons in H as [Hne Ha].
    rewrite bool_decide_false by done. by rewrite IH.
Qed.

Lemma split_join c pieces :
  pieces ≠ [] -> Forall (fun p => c ∉ p) pieces -> split c (join [c] pieces) = pieces.
Proof.
  induction pieces as [|p pieces IH]; intros Hne Hall; [done |].
  apply Forall_cons in Hall as [Hp Hall].
  destruct pieces as [|q pieces].
  - simpl. by apply split_absent.
  - change (join [c] (p :: q :: pieces)) with (p ++ c :: join [c] (q :: pieces)).
    rewrite split_app by done. f_equal. by apply IH.
Qed.

(** The text [serializeQuery] writes for one plain entry. *)
Lemma serialize_pair_plain k s :
  plain k -> s ≠ [] -> plain s ->
  (let pair := escape_query k in
   if truthy (VStr s) then pair ++ str "=" ++ escape_query (to_string (VStr s))
   else pair) = k ++ "="%char :: s.
Proof.
  intros Hk Hne Hs. simpl. rewrite bool_decide_false by done. simpl.
  by rewrite !escape_query_plain.
Qed.

Lemma deserialize_step_plain (query : gmap (list ascii) value) k s :
  plain k -> plain s ->
  (let pair := split "=" (k ++ "="%char :: s) in
   assign (unescape_query (default [] (pair !! 0)))
     match pair !! 1 with
     | Some v => VStr (unescape_query v)
     | None => VBool true
     end query) = assign k (VStr s) query.
Proof.
  intros Hk Hs. simpl.
  rewrite split_app by apply Hk. rewrite split_absent by apply Hs. simpl.
  by rewrite !unescape_query_plain.
Qed.

Lemma foldl_insert_list_to_map (l : list (list ascii * value)) :
  NoDup (map fst l) ->
  forall m : gmap (list ascii) value,
    foldl (fun q kv => <[fst kv := snd kv]> q) m l = list_to_map l ∪ m.
Proof.
  induction l as [|[k v] l IH]; intros Hnd m; simpl.
  - by rewrite (left_id_L ∅ (∪)).
  - apply NoDup_cons in Hnd as [Hk Hnd]. rewrite IH by done.
    rewrite <- insert_union_r by by apply not_elem_of_list_to_map_1.
    by rewrite insert_union_l.
Qed.

Lemma foldl_assign (l : list (list ascii * value)) :
  forall m : gmap (list ascii) value,
    foldl (fun q kv => assign (fst kv) (snd kv) q) m l =
    foldl (fun q kv => <[fst kv := snd kv]> q) m
      (filter (fun kv => fst kv ≠ proto_key) l).
Proof.
  induction l as [|[k v] l IH]; intros m; [done |].
  cbn [foldl fst snd]. rewrite filter_cons. cbn [fst]. unfold assign at 2.
  destruct (decide (k ≠ proto_key)) as [Hk | Hk].
  - rewrite bool_decide_false by done. cbn [foldl fst snd]. apply IH.
  - rewrite bool_decide_true by (by destruct (decide (k = proto_key))). apply IH.
Qed.

Lemma filter_keys_NoDup (l : list (list ascii * value)) :
  NoDup (map fst l) -> NoDup (map fst (filter (fun kv => fst kv ≠ proto_key) l)).
Proof.
  induction l as [|[k v] l IH]; [done |]. intros Hnd.
  apply NoDup_cons in Hnd as [Hk Hnd]. rewrite filter_cons. cbn [fst].
  destruct (decide (k ≠ proto_key)); [| by apply IH].
  cbn [map fst]. apply NoDup_cons. split; [| by apply IH].
  intros Hin. apply Hk. apply list_elem_of_fmap in Hin as (kv & -> & Hkv).
  apply list_elem_of_filter in Hkv as [_ Hkv].
  apply list_elem_of_fmap. by exists kv.
Qed.

Lemma filter_keys_id (l : list (list ascii * value)) :
  Forall (fun kv => fst kv ≠ proto_key) l ->
  filter (fun kv => fst kv ≠ proto_key) l = l.
Proof.
  induction 1 as [|kv l Hkv _ IH]; [done |].
  rewrite filter_cons. destruct (decide (fst kv ≠ proto_key)); [| done]. by rewrite IH.
Qed.

Lemma deserialize_serialize_fold (l : list (list ascii * value)) :
  Forall plain_entry l ->
  forall m : gmap (list ascii) value,
    foldl (fun query p =>
             let pair := split "=" p in
             assign (unescape_query (default [] (pair !! 0)))
               match pair !! 1 with
               | Some v => VStr (unescape_query v)
               | None => VBool true
               end query)
      m (map (fun '(k, v) =>
                let pair := escape_query k in
                if truthy v then pair ++ str "=" ++ escape_query (to_string v) else pair)
           l) =
    foldl (fun q kv => assign (fst kv) (snd kv) q) m l.
Proof.
  induction 1 as [|[k v] l (Hk & s & Hv & Hne & Hs) Hall IH]; intros m; [done |].
  simpl in Hk, Hv. subst v. cbn [map foldl fst snd].
  rewrite serialize_pair_plain by done.
  rewrite deserialize_step_plain by done. apply IH.
Qed.

Lemma plain_pair_no_semicolon k s :
  plain k -> plain s -> ";"%char ∉ k ++ "="%char :: s.
Proof.
  intros (Hk & _) (Hs & _) H. apply elem_of_app in H as [H | H]; [done |].
  apply elem_of_cons in H as [H | H]; [discriminate H | done].
Qed.

(** C6, the claim as stated fails: a value that holds the separator is
    written with the doubled escape and read back with the escape still in
    it. *)
Lemma query_round_trip_fails_on_separator :
  deserializeQueryString (serializeQuery [(str "k", VStr (str "a;b"))]) ≠
  list_to_map [(str "k", VStr (str "a;b"))].
Proof.
  intros H. apply (f_equal (fun m : gmap (list ascii) value => m !! str "k")) in H.
  vm_compute in H. discriminate H.
Qed.

Lemma replace_all_absent c rep s : c ∉ s -> replace_all c rep s = s.
Proof.
  induction s as [|x s IH]; intros H; [done |].
  apply not_elem_of_cons in H as [Hne Hs]. unfold replace_all in *. simpl.
  rewrite bool_decide_false by done. simpl. by rewrite IH.
Qed.

Lemma occurrences_zero c s : occurrences c s = 0 -> c ∉ s.
Proof.
  unfold occurrences. induction s as [|x s IH]; [intros _; apply not_elem_of_nil |].
  rewrite filter_cons. destruct (decide (x = c)) as [-> | Hne]; [done |].
  intros H. apply not_elem_of_cons. split; [done | by apply IH].
Qed.

Lemma replace_first_char c rep s :
  occurrences c s <= 1 -> replace_first [c] rep s = replace_all c rep s.
Proof.
  unfold occurrences. induction s as [|x s IH]; [done |].
  rewrite filter_cons. cbn [replace_first strip_prefix].
  unfold replace_all. cbn [flat_map]. fold (replace_all c rep s).
  destruct (decide (x = c)) as [-> | Hne].
  - rewrite !bool_decide_true by done. cbn [length]. intros H. f_equal.
    symmetry. apply replace_all_absent, occurrences_zero. unfold occurrences. lia.
  - rewrite (bool_decide_false (c = x)) by done.
    rewrite (bool_decide_false (x = c)) by done. intros H. cbn [app]. f_equal. by apply IH.
Qed.

Lemma occurrences_replace_all c c' rep s :
  c' ≠ c -> c' ∉ rep -> occurrences c' (replace_all c rep s) = occurrences c' s.
Proof.
  intros Hne Hrep. unfold occurrences, replace_all.
  induction s as [|x s IH]; [done |]. cbn [flat_map].
  rewrite filter_app, length_app, IH, filter_cons.
  case_bool_decide as Hx.
  - subst x. destruct (decide (c = c')); [congruence |].
    assert (H0 : filter (fun x => x = c') rep = []).
    { clear -Hrep. induction rep as [|y rep IH]; [done |].
      apply not_elem_of_cons in Hrep as [Hy Hrep]. rewrite filter_cons.
      destruct (decide (y = c')); [congruence | by apply IH]. }
    by rewrite H0.
  - rewrite filter_cons, filter_nil. destruct (decide (x = c')); simpl; lia.
Qed.

(** The [r] of [serializeQuery] replaces the first [;] and the first [=]:
    all of them when there is at most one of each. *)
Lemma escape_query_few s : few_separators s -> escape_query s = escape_all s.
Proof.
  intros [Hsemi Heq]. unfold escape_query, escape_all.
  change (str ";") with [";"%char]. change (str "=") with ["="%char].
  rewrite (replace_first_char ";") by done.
  apply replace_first_char. rewrite occurrences_replace_all; [done | done |].
  apply (bool_decide_unpack _). vm_compute. exact I.
Qed.

(** C6, amended: for a query object that is not empty, whose keys and
    values are strings without [;], [=], [%3B] and [%3D], the values not
    empty and no key [__proto__], decoding the encoding gives back the same
    pairs; a pair without [=] decodes to the boolean [true]; and the
    encoding writes a key, and the text of a value, that holds at most one
    [;] and at most one [=] with these replaced by [%253B] and [%253D]. *)
Theorem query_round_trip (query : list (list ascii * value)) :
  query ≠ [] ->
  NoDup (map fst query) ->
  Forall plain_entry query ->
  Forall (fun kv => fst kv ≠ proto_key) query ->
  deserializeQueryString (serializeQuery query) = list_to_map query /\
  (forall k, plain k -> k ≠ proto_key ->
             deserializeQueryString k = {[ k := VBool true ]}) /\
  (forall written : list (list ascii * value),
      Forall (fun kv => few_separators (fst kv) /\ few_separators (to_string (snd kv)))
        written ->
      serializeQuery written =
      join (str ";")
        (map (fun kv =>
                if truthy (snd kv)
                then escape_all (fst kv) ++ str "=" ++ escape_all (to_string (snd kv))
                else escape_all (fst kv))
           written)).
Proof.
  intros Hne Hnd Hall Hproto. split; [| split].
  - unfold deserializeQueryString, serializeQuery.
    change (str ";") with [";"%char]. rewrite split_join.
    + rewrite deserialize_serialize_fold by done.
      rewrite foldl_assign, filter_keys_id by done.
      rewrite foldl_insert_list_to_map by done. by rewrite (right_id_L ∅ (∪)).
    + by destruct query.
    + apply Forall_map. eapply Forall_impl; [exact Hall |].
      intros [k v] (Hk & s & Hv & Hs & Hps). simpl in Hk, Hv. subst v.
      rewrite serialize_pair_plain by done. by apply plain_pair_no_semicolon.
  - intros k Hk Hkp. unfold deserializeQueryString.
    rewrite split_absent by apply Hk. simpl.
    rewrite split_absent by apply Hk. simpl.
    rewrite unescape_query_plain by done. unfold assign.
    by rewrite bool_decide_false by done.
  - intros written Hfew. unfold serializeQuery. f_equal.
    apply Forall_fmap_ext_1. eapply Forall_impl; [exact Hfew |].
    intros [k v] [Hk Hv]. cbn [fst snd] in *.
    by rewrite !escape_query_few by done.
Qed.

Lemma query_round_trip_witness :
  deserializeQueryString
    (serializeQuery [(str "sort", VStr (str "asc")); (str "page", VStr (str "2"))]) =
  list_to_map [(str "sort", VStr (str "asc")); (str "page", VStr (str "2"))] /\
  serializeQuery [(str "a;b", VStr (str "c=d"))] = str "a%253Bb=c%253Dd".
Proof.
  destruct (query_round_trip
              [(str "sort", VStr (str "asc")); (str "page", VStr (str "2"))])
    as (Hround & _ & Hescape).
  - discriminate.
  - apply (bool_decide_unpack _). vm_compute. exact I.
  - repeat constructor; simpl;
      try (eexists; split; [reflexivity |]; split; [discriminate |]);
      apply (bool_decide_unpack _); vm_compute; exact I.
  - repeat constructor; discriminate.
  - split; [exact Hround |].
    rewrite (Hescape [(str "a;b", VStr (str "c=d"))]); [vm_compute; reflexivity |].
    repeat constructor; simpl; vm_compute; lia.
Defined.

(** ** The round trip *)

(** *** Matching *)

Section Matching.
Context {R : Type}.
Implicit Types (k : mstate -> option R).

Lemma m_group i body st k :
  m (RGroup i body) st k = mseq body st (fun st' => k (set_cap i st st')).
Proof. reflexivity. Qed.

Lemma m_noncap body st k : m (RNonCap body) st k = mseq body st k.
Proof. reflexivity. Qed.

Lemma repeat_match_ext (body : mstate -> (mstate -> option R) -> option R) fuel :
  respects body -> respects (repeat_match body fuel).
Proof.
  intros Hbody. induction fuel as [|fuel IH]; intros st k1 k2 Hk; simpl; [apply Hk |].
  rewrite (Hbody st _ (fun st' => if consumed st st' then repeat_match body fuel st' k2
                                   else None)).
  - destruct (body st _); [done | apply Hk].
  - intros s. destruct (consumed st s); [by apply IH | done].
Qed.

Lemma mseq_ext_Forall rs :
  Forall (fun r => respects (m (R := R) r)) rs -> respects (mseq (R := R) rs).
Proof.
  induction 1 as [|r rs Hr _ IH]; intros st k1 k2 Hk; simpl; [apply Hk |].
  apply Hr. intros s. by apply IH.
Qed.

Lemma m_ext : forall r, respects (m (R := R) r).
Proof.
  fix IH 1. intros r.
  destruct r as [c| |neg cs| | |i body|body|r|r|r]; intros st k1 k2 Hk.
  - simpl. destruct (rest st); [done |]. destruct (bool_decide _); [apply Hk | done].
  - simpl. destruct (rest st); [done |]. destruct (line_terminator _); [done | apply Hk].
  - simpl. destruct (rest st); [done |]. destruct (xorb _ _); [apply Hk | done].
  - simpl. destruct (bool_decide _); [apply Hk | done].
  - simpl. destruct (rest st); [apply Hk | done].
  - change (mseq body st (fun st' => k1 (set_cap i st st')) =
            mseq body st (fun st' => k2 (set_cap i st st'))).
    revert st k1 k2 Hk.
    assert (Hb : respects (mseq (R := R) body)).
    { induction body as [|r' body IHb]; intros st k1 k2 Hk; simpl; [apply Hk |].
      apply IH. intros s. by apply IHb. }
    intros st k1 k2 Hk. apply Hb. intros s. apply Hk.
  - change (mseq body st k1 = mseq body st k2).
    revert st k1 k2 Hk.
    induction body as [|r' body IHb]; intros st k1 k2 Hk; simpl; [apply Hk |].
    apply IH. intros s. by apply IHb.
  - simpl. apply IH. intros s. apply repeat_match_ext; [| done].
    intros s' k1' k2' Hk'. by apply IH.
  - simpl. apply repeat_match_ext; [| done].
    intros s' k1' k2' Hk'. by apply IH.
  - simpl. rewrite (IH r _ _ (fun st' => if consumed st st' then k2 st' else None)).
    + destruct (m r _ _); [done | apply Hk].
    + intros s. destruct (consumed st s); [apply Hk | done].
Qed.

Lemma mseq_ext rs : respects (mseq (R := R) rs).
Proof. apply mseq_ext_Forall, Forall_forall. intros r _. apply m_ext. Qed.

Lemma mseq_app a b st k :
  mseq (a ++ b) st k = mseq a st (fun st' => mseq b st' k).
Proof.
  revert st k. induction a as [|r a IH]; intros st k; simpl; [done |].
  apply m_ext. intros s. apply IH.
Qed.

Lemma mseq_literal t : forall p r c k,
  "^"%char ∉ t -> "$"%char ∉ t ->
  mseq (map lit t) (MState p (t ++ r) c) k = k (MState (length t + p) r c).
Proof.
  induction t as [|x t IH]; intros p r c k Hb He; [done |].
  apply not_elem_of_cons in Hb as [Hxb Hb]. apply not_elem_of_cons in He as [Hxe He].
  cbn [map mseq app length]. unfold lit at 1.
  rewrite !bool_decide_false by done. simpl.
  rewrite bool_decide_true by done. unfold advance. simpl.
  rewrite IH by done. f_equal. f_equal. lia.
Qed.

Lemma repeat_match_S (body : mstate -> (mstate -> option R) -> option R) fuel st k :
  repeat_match body (S fuel) st k =
  match body st (fun st' => if consumed st st' then repeat_match body fuel st' k
                            else None) with
  | Some r => Some r
  | None => k st
  end.
Proof. reflexivity. Qed.

Lemma m_class_in cs a p l c k :
  a ∈ cs -> m (RSet true cs) (clear_caps [] (MState p (a :: l) c)) k = None.
Proof. intros H. simpl. by rewrite bool_decide_true. Qed.

Lemma m_class_out cs a p l c k :
  a ∉ cs ->
  m (RSet true cs) (clear_caps [] (MState p (a :: l) c)) k = k (MState (S p) l c).
Proof. intros H. simpl. by rewrite bool_decide_false. Qed.

Lemma m_class_end cs p c k :
  m (RSet true cs) (clear_caps [] (MState p [] c)) k = None.
Proof. reflexivity. Qed.

(** The class atom repeated greedily takes the whole of a text that stays
    in the class and is followed by the end or by a character outside. *)
Lemma repeat_class cs v : forall p r c fuel k x,
  Forall (fun a => a ∉ cs) v ->
  match r with [] => True | a :: _ => a ∈ cs end ->
  length v <= fuel ->
  k (MState (length v + p) r c) = Some x ->
  repeat_match (fun s k' => m (RSet true cs) (clear_caps [] s) k')
    fuel (MState p (v ++ r) c) k = Some x.
Proof.
  induction v as [|a v IH]; intros p r c fuel k x Hv Hr Hfuel Hk.
  - simpl in Hk. destruct fuel as [|fuel]; [done |].
    rewrite repeat_match_S. simpl app.
    destruct r as [|a r]; [by rewrite m_class_end | by rewrite m_class_in].
  - apply Forall_cons in Hv as [Ha Hv]. destruct fuel as [|fuel]; [simpl in Hfuel; lia |].
    rewrite repeat_match_S. simpl app. rewrite m_class_out by done.
    unfold consumed. simpl rest. rewrite bool_decide_true by (simpl; lia).
    erewrite IH; [done | done | done | simpl in Hfuel; lia |].
    rewrite <- Hk. f_equal. f_equal. simpl. lia.
Qed.

Lemma m_plus_class cs st k :
  m (RPlus (RSet true cs)) st k =
  m (RSet true cs) (clear_caps [] st)
    (fun st' =>
       repeat_match (fun s k' => m (RSet true cs) (clear_caps [] s) k')
         (length (rest st')) st' k).
Proof. reflexivity. Qed.

Lemma mseq_cons r rs st k : mseq (r :: rs) st k = m r st (fun st' => mseq rs st' k).
Proof. reflexivity. Qed.

Lemma mseq_nil st k : mseq [] st k = k st.
Proof. reflexivity. Qed.

Lemma m_capture i cs v p r c k x :
  v ≠ [] ->
  Forall (fun a => a ∉ cs) v ->
  match r with [] => True | a :: _ => a ∈ cs end ->
  k (MState (length v + p) r (<[pred i := Some v]> c)) = Some x ->
  m (capture_atom i cs) (MState p (v ++ r) c) k = Some x.
Proof.
  intros Hne Hv Hr Hk. unfold capture_atom. rewrite m_group.
  destruct v as [|a v]; [done |]. apply Forall_cons in Hv as [Ha Hv].
  rewrite mseq_cons, m_plus_class. simpl app. rewrite m_class_out by done.
  apply repeat_class; [done | done | simpl; rewrite length_app; lia |].
  rewrite mseq_nil. unfold set_cap. simpl. rewrite <- Hk.
  replace (S (length (v ++ r)) - length r) with (S (length v))
    by (rewrite length_app; lia).
  replace (length v + S p) with (S (length v + p)) by lia.
  simpl. by rewrite take_app_length.
Qed.

Lemma m_query_absent i p r c k :
  match r with [] => True | a :: _ => a ≠ ";"%char end ->
  m (query_atom i) (MState p r c) k = k (MState p r c).
Proof.
  intros Hr. unfold query_atom. simpl.
  destruct r as [|a r]; [done |]. by rewrite bool_decide_false.
Qed.

End Matching.

(** *** The fragment of a segment against the text [generate] writes *)

Section Segments.
Context {R : Type} (P : gmap (list ascii) value).
Implicit Types (k : mstate -> option R).

Lemma mseq_query_absent i p r c k :
  match r with [] => True | a :: _ => a ≠ ";"%char end ->
  mseq [query_atom i] (MState p r c) k = k (MState p r c).
Proof. intros Hr. rewrite mseq_cons, m_query_absent by done. reflexivity. Qed.

Lemma mseq_segment seg n p r c k x :
  seg_ok P seg ->
  match r with [] => True | a :: _ => a = "/"%char end ->
  k (MState (length (seg_value P seg) + p) r (seg_caps P n seg c)) = Some x ->
  mseq (fst (seg_prog n seg)) (MState p (seg_value P seg ++ r) c) k = Some x.
Proof.
  intros Hok Hr Hk.
  assert (Hr' : match r with [] => True | a :: _ => a ≠ ";"%char end).
  { destruct r as [|a r]; [done |]. by subst a. }
  assert (Hr1 : match r with [] => True | a :: _ => a ∈ ["/"%char] end).
  { destruct r as [|a r]; [done |]. subst a. by left. }
  assert (Hr2 : match r with [] => True | a :: _ => a ∈ ["/"%char; ";"%char] end).
  { destruct r as [|a r]; [done |]. subst a. by left. }
  unfold seg_ok in Hok. unfold seg_prog. unfold seg_caps, seg_value, Segment_generate in *.
  destruct (kind seg) as [t| |nm|nm]; try done.
  - destruct Hok as [Hb He]. simpl in *.
    destruct (given (query seg)); simpl.
    + rewrite mseq_app, mseq_literal by done. by rewrite mseq_query_absent.
    + by rewrite mseq_literal.
  - simpl in Hk. cbn [fst app]. by rewrite mseq_query_absent.
  - destruct Hok as (s & HP & Hne & Hslash & Hsemi).
    unfold param, get in *. rewrite HP in *. simpl in *.
    destruct (given (query seg)); simpl fst; rewrite mseq_cons.
    + eapply m_capture; [done | | done |].
      * apply Forall_forall. intros a Ha Hin.
        apply list_elem_of_In in Hin. simpl in Hin.
        destruct Hin as [<- | [<- | []]]; [exact (Hslash Ha) | exact (Hsemi Ha)].
      * by rewrite mseq_query_absent.
    + eapply m_capture; [done | | done |].
      * apply Forall_forall. intros a Ha Hin.
        apply list_elem_of_In in Hin. simpl in Hin.
        destruct Hin as [<- | []]. exact (Hslash Ha).
      * by rewrite mseq_nil.
Qed.

Lemma path_of_head segs :
  match path_of P segs with [] => True | a :: _ => a = "/"%char end.
Proof. by destruct segs. Qed.

Lemma m_char a p l c k :
  m (RChar a) (MState p (a :: l) c) k = k (MState (S p) l c).
Proof. simpl. by rewrite bool_decide_true. Qed.

Lemma mseq_segments segs : forall n p c k x,
  Forall (seg_ok P) segs ->
  k (MState (length (path_of P segs) + p) [] (segments_caps P n segs c)) = Some x ->
  mseq (fst (segments_prog n segs)) (MState p (path_of P segs) c) k = Some x.
Proof.
  induction segs as [|seg segs IH]; intros n p c k x Hok Hk; [done |].
  apply Forall_cons in Hok as [Hseg Hok].
  change (path_of P (seg :: segs)) with ("/"%char :: seg_value P seg ++ path_of P segs) in *.
  simpl segments_prog. simpl segments_caps in Hk.
  destruct (seg_prog n seg) as [a n1] eqn:Ha.
  destruct (segments_prog n1 segs) as [b n2] eqn:Hb.
  simpl fst. rewrite mseq_cons, m_char, mseq_app.
  replace a with (fst (seg_prog n seg)) by by rewrite Ha.
  apply mseq_segment; [done | apply path_of_head |].
  replace b with (fst (segments_prog n1 segs)) by by rewrite Hb.
  apply IH; [done |]. simpl in Hk. rewrite <- Hk. f_equal. f_equal.
  rewrite length_app. lia.
Qed.

End Segments.

Lemma search_unfold p i s :
  search p i s =
  match match_at p i s with
  | Some r => Some r
  | None => match s with [] => None | _ :: s' => search p (S i) s' end
  end.
Proof. by destruct s. Qed.

Lemma exec_segments P src segs N :
  Forall (seg_ok P) segs ->
  exec (Build_regexp src (RBol :: fst (segments_prog 0 segs) ++ [REol]) N)
    (path_of P segs) =
  Some (Some (path_of P segs) :: segments_caps P 0 segs (replicate N None)).
Proof.
  intros Hok. unfold exec. rewrite search_unfold. unfold match_at. simpl prog.
  rewrite mseq_cons. simpl m. rewrite mseq_app.
  erewrite mseq_segments; [done | done |].
  rewrite mseq_cons. simpl. rewrite Nat.sub_0_r. by rewrite firstn_all.
Qed.

Lemma exec_key P src seg N :
  seg_ok P seg ->
  is_Some (exec (Build_regexp src (RBol :: fst (seg_prog 0 seg) ++ [REol]) N)
             (seg_value P seg)).
Proof.
  intros Hok. unfold exec. rewrite search_unfold. unfold match_at. simpl prog.
  rewrite mseq_cons. simpl m. rewrite mseq_app.
  rewrite <- (app_nil_r (seg_value P seg)).
  erewrite mseq_segment; [done | done | done |].
  rewrite mseq_cons. simpl. done.
Qed.

(** *** What [parse] produces *)

Lemma split_pieces c s : Forall (fun p => c ∉ p) (split c s).
Proof.
  induction s as [|x s IH]; simpl.
  - repeat constructor. apply not_elem_of_nil.
  - case_bool_decide as Hx.
    + constructor; [apply not_elem_of_nil | done].
    + destruct (split c s) as [|p ps].
      * repeat constructor. apply not_elem_of_cons. split; [congruence | apply not_elem_of_nil].
      * apply Forall_cons in IH as [Hp Hps]. constructor; [| done].
        apply not_elem_of_cons. split; [congruence | done].
Qed.

Lemma parse_segment_spec results names types piece names0 :
  Forall seg_parsed results ->
  names = names0 ++ seg_names results ->
  "/"%char ∉ piece ->
  let '(results', names', _) := parse_segment (results, names, types) piece in
  Forall seg_parsed results' /\ names' = names0 ++ seg_names results'.
Proof.
  intros Hres Hnames Hpiece. unfold parse_segment.
  destruct (exec dynamicRe piece) as [mt|].
  { split.
    - apply Forall_app. split; [done |]. repeat constructor; done.
    - unfold seg_names. rewrite flat_map_app. simpl.
      fold (seg_names results). rewrite Hnames. by rewrite <- app_assoc. }
  destruct (exec starRe piece) as [mt|].
  { split.
    - apply Forall_app. split; [done |]. repeat constructor; done.
    - unfold seg_names. rewrite flat_map_app. simpl.
      fold (seg_names results). rewrite Hnames. by rewrite <- app_assoc. }
  case_bool_decide as Hempty; [done |].
  split.
  - apply Forall_app. split; [done |]. repeat constructor; done.
  - unfold seg_names. rewrite flat_map_app. simpl.
    fold (seg_names results). by rewrite app_nil_r.
Qed.

Lemma parse_fold_spec pieces : forall results names types names0,
  Forall seg_parsed results ->
  names = names0 ++ seg_names results ->
  Forall (fun p => "/"%char ∉ p) pieces ->
  let '(results', names', _) := foldl parse_segment (results, names, types) pieces in
  Forall seg_parsed results' /\ names' = names0 ++ seg_names results'.
Proof.
  induction pieces as [|piece pieces IH]; intros results names types names0 Hres Hn Hp.
  - simpl. done.
  - apply Forall_cons in Hp as [Hpiece Hp]. cbn [foldl].
    pose proof (parse_segment_spec results names types piece names0 Hres Hn Hpiece) as H.
    destruct (parse_segment (results, names, types) piece) as [[results' names'] types'].
    destruct H as [H1 H2]. by apply IH.
Qed.

Lemma parse_spec tpl types segs nms tys :
  parse tpl [] types = (segs, nms, tys) ->
  Forall seg_parsed segs /\ nms = seg_names segs.
Proof.
  unfold parse. intros H.
  pose proof (parse_fold_spec
                (split "/" (if starts_with "/" tpl then drop 1 tpl else tpl))
                [] [] types [] (Forall_nil_2 _) eq_refl (split_pieces _ _)) as Hspec.
  rewrite H in Hspec. exact Hspec.
Qed.

(** *** A chain of fresh states *)

Lemma chain_path_shape σ σ' s keys fin :
  chain_path σ s keys fin ->
  (forall i, shape <$> σ' !! i = shape <$> σ !! i) ->
  chain_path σ' s keys fin.
Proof.
  intros Hpath Hshape. induction Hpath as [s | s st c stc key keys fin Hs Hnext Hc Hkey _ IH].
  - constructor.
  - pose proof (Hshape s) as Hs'. rewrite Hs in Hs'.
    destruct (σ' !! s) as [st'|] eqn:Es; [| done].
    pose proof (Hshape c) as Hc'. rewrite Hc in Hc'.
    destruct (σ' !! c) as [stc'|] eqn:Ec; [| done].
    unfold shape in Hs', Hc'. simpl in Hs', Hc'.
    injection Hs' as Hk1 Hn1. injection Hc' as Hk2 Hn2.
    apply (chain_step σ' s st' c stc' key keys fin); [done | congruence | done | congruence | done].
Qed.

Lemma shape_alter (f : State.t -> State.t) s (σ : list State.t) i :
  (forall st, shape (f st) = shape st) ->
  shape <$> alter f s σ !! i = shape <$> σ !! i.
Proof.
  intros Hf. destruct (decide (s = i)) as [-> | Hne].
  - rewrite list_lookup_alter_eq. destruct (σ !! i); simpl; [by rewrite Hf | done].
  - by rewrite list_lookup_alter_ne.
Qed.

Lemma put_fresh rr cur frag st_cur :
  states rr !! cur = Some st_cur ->
  State.nextStates st_cur = [] ->
  State_put cur frag rr =
    (Ok (length (states rr)),
     Build_RouteRecognizer
       (alter (push_child (length (states rr))) cur
          (states rr ++ [State.new (Some (str "^" ++ frag ++ str "$"))]))
       (rootState rr) (names rr)).
Proof.
  intros Hcur Hnext. unfold State_put, State_get, bind, deref.
  rewrite Hcur, Hnext. reflexivity.
Qed.

Lemma add_chain marked : forall rr cur re st_cur,
  states rr !! cur = Some st_cur ->
  State.nextStates st_cur = [] ->
  exists σ' fin st_fin,
    foldM add_segment (cur, re) marked rr =
      (Ok (fin, re ++ segments_text marked),
       Build_RouteRecognizer σ' (rootState rr) (names rr)) /\
    chain_path σ' cur (map key_of marked) fin /\
    (forall i, i < length (states rr) -> i ≠ cur -> σ' !! i = states rr !! i) /\
    (exists st', σ' !! cur = Some st' /\
                 State.segmentRegex st' = State.segmentRegex st_cur) /\
    σ' !! fin = Some st_fin /\
    (marked = [] -> σ' = states rr).
Proof.
  induction marked as [|seg marked IH]; intros rr cur re st_cur Hcur Hnext.
  - exists (states rr), cur, st_cur. simpl. unfold ret. rewrite app_nil_r.
    destruct rr. repeat split; eauto. constructor.
  - assert (Hlt : cur < length (states rr)) by (by eapply lookup_lt_Some).
    set (L := length (states rr)).
    set (key := str "^" ++ Segment_regex seg ++ str "$").
    set (σ1 := alter (push_child L) cur (states rr ++ [State.new (Some key)])).
    set (rr1 := Build_RouteRecognizer σ1 (rootState rr) (names rr)).
    assert (HL : σ1 !! L = Some (State.new (Some key))).
    { unfold σ1. rewrite list_lookup_alter_ne by lia. by apply list_lookup_middle. }
    assert (Hcur1 : σ1 !! cur = Some (push_child L st_cur)).
    { unfold σ1. rewrite list_lookup_alter_eq, lookup_app_l, Hcur by done. done. }
    destruct (IH rr1 L (re ++ str "/" ++ Segment_regex seg) (State.new (Some key)) HL eq_refl)
      as (σ' & fin & st_fin & Hfold & Hpath & Hframe & (stL & HstL & HkeyL) & Hfin & _).
    exists σ', fin, st_fin.
    assert (Hlen1 : length σ1 = S L).
    { unfold σ1. rewrite length_alter, length_app. simpl. lia. }
    assert (Hcur' : σ' !! cur = Some (push_child L st_cur)).
    { rewrite Hframe; [done | simpl; lia | lia]. }
    split; [| split; [| split; [| split; [| split]]]].
    + cbn [foldM]. unfold bind at 1. unfold add_segment at 1. unfold bind at 1.
      rewrite (put_fresh rr cur _ st_cur Hcur Hnext). fold L key σ1 rr1.
      unfold ret at 1. rewrite Hfold. rewrite segments_text_cons.
      unfold rr1. cbn [rootState names]. do 3 f_equal. rewrite <- !app_assoc. reflexivity.
    + simpl. apply (chain_step σ' cur (push_child L st_cur) L stL (key_of seg) _ fin);
        [exact Hcur' | simpl; by rewrite Hnext | exact HstL | | exact Hpath].
      rewrite HkeyL. reflexivity.
    + intros i Hi Hne. rewrite Hframe by (simpl; lia).
      unfold rr1, σ1. cbn [states].
      rewrite list_lookup_alter_ne by done. by rewrite lookup_app_l.
    + exists (push_child L st_cur). done.
    + done.
    + done.
Qed.

(** *** Walking a chain *)

Lemma State_match_single rr s st c stc segment :
  states rr !! s = Some st -> State.nextStates st = [c] ->
  states rr !! c = Some stc ->
  string_matches segment (State.segmentRegex stc) = Ok true ->
  State_match s segment rr = (Ok [c], rr).
Proof.
  intros Hs Hnext Hc Hm. unfold State_match, bind, deref.
  rewrite Hs, Hnext. simpl. unfold bind, deref. rewrite Hc. unfold lift. rewrite Hm.
  reflexivity.
Qed.

Lemma recognize_loop_chain rr s keys fin :
  chain_path (states rr) s keys fin ->
  forall strs,
    Forall2 (fun key segment => string_matches segment (Some key) = Ok true) keys strs ->
    recognize_loop [s] strs rr = (Ok [fin], rr).
Proof.
  induction 1 as [s | s st c stc key keys fin Hs Hnext Hc Hkey _ IH]; intros strs Hall.
  - apply Forall2_nil_inv_l in Hall as ->. reflexivity.
  - apply Forall2_cons_inv_l in Hall as (segment & strs' & Hm & Hall & ->).
    cbn [recognize_loop]. unfold bind at 1. unfold recognizeSegment.
    cbn [foldM]. unfold bind at 1. unfold bind at 1.
    rewrite (State_match_single rr s st c stc segment) by (by rewrite ?Hkey).
    unfold ret at 1. unfold ret at 1. simpl app.
    rewrite bool_decide_false by done. by apply IH.
Qed.

(** *** The path [generate] writes *)

Lemma generate_segment_no_query P output seg :
  generate_segment P ∅ output seg = output ++ "/"%char :: seg_value P seg.
Proof.
  unfold generate_segment, seg_value. rewrite lookup_empty.
  destruct (given (query seg)); by rewrite <- app_assoc.
Qed.

Lemma generate_fold_no_query P segs : forall output,
  foldl (generate_segment P ∅) output segs = output ++ path_of P segs.
Proof.
  induction segs as [|seg segs IH]; intros output; simpl.
  - by rewrite app_nil_r.
  - rewrite IH, generate_segment_no_query, <- app_assoc. reflexivity.
Qed.

Lemma generate_path rr R P all hs :
  names rr !! R = Some (Named.mk all hs) -> all ≠ [] ->
  generate R P ∅ rr = (Ok (path_of P all), rr).
Proof.
  intros HR Hne. unfold generate, bind, this_names. simpl. rewrite (names_get_own _ _ _ HR). simpl.
  rewrite generate_fold_no_query. simpl. by destruct all.
Qed.

Lemma split_path_tail P segs : forall v,
  "/"%char ∉ v ->
  Forall (fun seg => "/"%char ∉ seg_value P seg) segs ->
  split "/" (v ++ path_of P segs) = v :: map (seg_value P) segs.
Proof.
  induction segs as [|seg segs IH]; intros v Hv Hall.
  - simpl. rewrite app_nil_r. by apply split_absent.
  - apply Forall_cons in Hall as [Hseg Hall].
    change (path_of P (seg :: segs)) with ("/"%char :: seg_value P seg ++ path_of P segs).
    rewrite split_app by done. simpl. f_equal. by apply IH.
Qed.

Lemma split_path P segs :
  Forall (fun seg => "/"%char ∉ seg_value P seg) segs ->
  split "/" (path_of P segs) = [] :: map (seg_value P) segs.
Proof.
  intros Hall. rewrite <- (app_nil_l (path_of P segs)).
  apply split_path_tail; [apply not_elem_of_nil | done].
Qed.

Lemma normalize_id p :
  starts_with "/" p = true ->
  (length p <= 1 \/ p !! (length p - 1) ≠ Some "/"%char) ->
  normalize p = p.
Proof.
  intros Hstart Hend. unfold normalize. rewrite Hstart. simpl.
  case_bool_decide as Hlen; [| done]. simpl.
  destruct Hend as [Hle | Hlast]; [lia |].
  unfold char_at_is. destruct (p !! (length p - 1)) as [x|]; [| done].
  rewrite bool_decide_false; [done | congruence].
Qed.

Lemma path_of_snoc P init last :
  path_of P (init ++ [last]) = path_of P init ++ "/"%char :: seg_value P last.
Proof. unfold path_of. rewrite flat_map_app. simpl. by rewrite app_nil_r. Qed.

Lemma normalize_path P init last :
  seg_value P last ≠ [] -> "/"%char ∉ seg_value P last ->
  normalize (path_of P (init ++ [last])) = path_of P (init ++ [last]).
Proof.
  intros Hne Hslash. apply normalize_id.
  - by destruct init.
  - right. rewrite path_of_snoc.
    destruct (seg_value P last) as [|x v] eqn:Ev using rev_ind; [done |]. clear IHv.
    replace (path_of P init ++ "/"%char :: v ++ [x])
      with ((path_of P init ++ "/"%char :: v) ++ [x]) by (by rewrite <- app_assoc).
    rewrite length_app. simpl. rewrite Nat.add_sub.
    rewrite list_lookup_middle by done. intros [= ->].
    apply Hslash. apply elem_of_app. right. by left.
Qed.

(** *** The captures and the parameters *)

Lemma seg_prog_snd_le n seg : n <= snd (seg_prog n seg).
Proof.
  unfold seg_prog. destruct (kind seg); destruct (given (query seg)); simpl; lia.
Qed.

Lemma seg_caps_length P n seg c : length (seg_caps P n seg c) = length c.
Proof. unfold seg_caps. destruct (kind seg); by rewrite ?length_insert. Qed.

Lemma segments_caps_below P segs : forall n c i,
  i < n -> segments_caps P n segs c !! i = c !! i.
Proof.
  induction segs as [|seg segs IH]; intros n c i Hi; [done |].
  simpl. rewrite IH by (pose proof (seg_prog_snd_le n seg); lia).
  unfold seg_caps. destruct (kind seg); try done.
  rewrite list_lookup_insert_ne; [done | lia].
Qed.

Lemma segments_prog_groups segs : forall n,
  n + length (seg_names segs) <= snd (segments_prog n segs).
Proof.
  induction segs as [|seg segs IH]; intros n; simpl; [lia |].
  destruct (seg_prog n seg) as [a n1] eqn:Ha.
  specialize (IH n1). destruct (segments_prog n1 segs) as [b n2]. simpl in *.
  rewrite length_app.
  assert (n + length match kind seg with
                     | DynamicSegment n0 | StarSegment n0 => [n0]
                     | _ => []
                     end <= n1); [| lia].
  unfold seg_prog in Ha.
  destruct (kind seg); destruct (given (query seg)); injection Ha as <- <-; simpl; lia.
Qed.

Lemma read_params_segments P full segs : forall n c params,
  only_last_query segs ->
  Forall (seg_ok P) segs ->
  n + length (seg_names segs) <= length c ->
  read_params (Some (full :: segments_caps P n segs c)) (seg_names segs) (S n) params =
  Ok (foldl (fun m nm => assign nm (param P nm) m) params (seg_names segs),
      S n + length (seg_names segs)).
Proof.
  induction segs as [|seg segs IH]; intros n c params Hlast Hok Hlen.
  - simpl. by rewrite Nat.add_0_r.
  - destruct Hlast as [Hq Hlast]. apply Forall_cons in Hok as [Hseg Hok].
    unfold seg_names in *. cbn [flat_map segments_caps] in *.
    fold (seg_names segs) in *.
    unfold seg_ok in Hseg. unfold seg_prog, seg_caps, seg_value, Segment_generate.
    destruct (kind seg) as [t| |nm|nm] eqn:Hkind; try done.
    + simpl app in *. destruct Hq as [-> | [-> _]];
        [simpl; by rewrite Nat.add_0_r |]. simpl snd. by apply IH.
    + simpl app in *. destruct Hq as [-> | [_ Hne]]; [| exfalso; by apply Hne].
      simpl. by rewrite Nat.add_0_r.
    + destruct Hseg as (s & HP & Hne & Hslash & Hsemi).
      rewrite length_app in Hlen. simpl in Hlen.
      simpl app. cbn [read_params].
      set (n' := snd (if given (query seg)
                      then ([capture_atom (S n) ["/"%char; ";"%char];
                             query_atom (S (S n))], S (S n))
                      else ([capture_atom (S n) ["/"%char]], S n))).
      assert (Hn' : n < n') by (unfold n'; destruct (given (query seg)); simpl; lia).
      assert (Hcap : capture (Some (full :: segments_caps P n' segs
                                      (<[n := Some (to_string (param P nm))]> c))) (S n) =
                     Ok (param P nm)).
      { unfold capture. cbn [lookup list_lookup].
        change ((full :: ?l) !! S n) with (l !! n).
        rewrite segments_caps_below by done.
        rewrite list_lookup_insert_eq by lia. unfold param, get. by rewrite HP. }
      rewrite Hcap.
      destruct Hq as [-> | [Hq _]].
      * simpl. do 2 f_equal. lia.
      * unfold n'. rewrite Hq. simpl snd.
        rewrite IH; [| done | done | rewrite length_insert; lia].
        simpl. do 2 f_equal. lia.
Qed.

Lemma foldl_params_lookup P names : forall (m : gmap (list ascii) value) k,
  foldl (fun m nm => <[nm := param P nm]> m) m names !! k =
  if bool_decide (k ∈ names) then Some (param P k) else m !! k.
Proof.
  induction names as [|nm names IH]; intros m k; simpl; [done |].
  rewrite IH. case_bool_decide as Hin.
  - rewrite bool_decide_true; [done | by right].
  - destruct (decide (k = nm)) as [-> | Hne].
    + rewrite bool_decide_true by by left. by rewrite lookup_insert_eq.
    + rewrite bool_decide_false by (by intros [? | ?]%elem_of_cons).
      by rewrite lookup_insert_ne.
Qed.

Lemma foldl_params P names :
  (forall n, n ∈ names <-> is_Some (P !! n)) ->
  proto_key ∉ names ->
  foldl (fun m nm => assign nm (param P nm) m) ∅ names = P.
Proof.
  intros Hdom Hproto.
  assert (Hassign : forall m : gmap (list ascii) value,
             foldl (fun m nm => assign nm (param P nm) m) m names =
             foldl (fun m nm => <[nm := param P nm]> m) m names).
  { clear Hdom. induction names as [|nm names IH]; intros m; [done |].
    apply not_elem_of_cons in Hproto as [Hne Hproto]. cbn [foldl].
    unfold assign at 2. rewrite bool_decide_false by done. by apply IH. }
  rewrite Hassign.
  apply map_eq. intros k. rewrite foldl_params_lookup.
  case_bool_decide as Hin.
  - apply Hdom in Hin as [v Hv]. unfold param, get. by rewrite Hv.
  - rewrite lookup_empty. symmetry. apply eq_None_not_Some. by rewrite <- Hdom.
Qed.

(** *** [mark_last] *)

Lemma mark_last_snoc h init last :
  mark_last h (init ++ [last]) = init ++ [Build_Segment (kind last) (Some h)].
Proof.
  unfold mark_last. rewrite imap_app, length_app. simpl. f_equal.
  - rewrite <- (list_fmap_id init) at 2. rewrite <- imap_const.
    apply imap_ext. intros i x Hi. apply lookup_lt_Some in Hi.
    rewrite bool_decide_false; [done | lia].
  - rewrite bool_decide_true; [done | lia].
Qed.

Lemma only_last_query_snoc init last :
  Forall (fun seg => given (query seg) = false /\ kind seg ≠ EpsilonSegment) init ->
  only_last_query (init ++ [last]).
Proof.
  induction init as [|seg init IH]; intros Hall; simpl.
  - split; [by left | done].
  - apply Forall_cons in Hall as [Hseg Hall]. split; [by right | by apply IH].
Qed.

(** *** One route in a new recognizer *)

Lemma bind_ok {A B} (c : M A) (f : A -> M B) rr a rr' :
  c rr = (Ok a, rr') -> bind c f rr = f a rr'.
Proof. intros H. unfold bind. by rewrite H. Qed.

Ltac run_bind H := rewrite (bind_ok _ _ _ _ _ H); cbn beta.
Ltac run_pure := erewrite bind_ok by reflexivity; cbn beta.

Lemma add_route_single tpl h segs nms tys v rr σ' fin re :
  parse tpl [] (types v) = (segs, nms, tys) ->
  foldM add_segment (currentState v, regex_text v) (mark_last h segs) rr =
    (Ok (fin, re), Build_RouteRecognizer σ' (rootState rr) (names rr)) ->
  foldM add_route v [Route.mk tpl h] rr =
    (Ok (Build_add_vars fin re tys (handlers v ++ [Handler.mk h nms None])
           (allSegments v ++ mark_last h segs)
           (isEmpty v && bool_decide (mark_last h segs = []))),
     Build_RouteRecognizer σ' (rootState rr) (names rr)).
Proof.
  intros Hparse Hfold. cbn [foldM]. unfold add_route.
  cbn [Route.path Route.handler]. rewrite Hparse.
  unfold bind at 1. unfold bind at 1. rewrite Hfold. reflexivity.
Qed.

Lemma add_single tpl h R segs nms tys :
  parse tpl [] (Build_Types 0 0 0) = (segs, nms, tys) ->
  R ≠ [] ->
  exists all keys fin st σ,
    snd (add [Route.mk tpl h] (Some R) RouteRecognizer_new) =
      Build_RouteRecognizer σ 0 {[ R := Named.mk all [Handler.mk h nms None] ]} /\
    chain_path σ 0 keys fin /\
    σ !! fin = Some st /\
    State.handlers st = Some [Handler.mk h nms None] /\
    State.regex st =
      Some (Build_regexp (str "^" ++ segments_text all ++ str "$")
              (RBol :: fst (segments_prog 0 all) ++ [REol])
              (snd (segments_prog 0 all))) /\
    ((segs = [] /\ all = [Build_Segment EpsilonSegment (Some h)] /\ keys = [str "^$"]) \/
     (segs ≠ [] /\ all = mark_last h segs /\ keys = map key_of all)).
Proof.
  intros Hparse HR.
  destruct (add_chain (mark_last h segs) RouteRecognizer_new 0 (str "^") (State.new None)
              eq_refl eq_refl)
    as (σ' & fin & st_fin & Hfold & Hpath & Hframe & _ & Hfin & Hempty).
  pose proof (add_route_single tpl h segs nms tys
                (Build_add_vars 0 (str "^") (Build_Types 0 0 0) [] [] true)
                RouteRecognizer_new σ' fin _ Hparse Hfold) as Hroute.
  cbn [handlers allSegments isEmpty andb app rootState names RouteRecognizer_new] in Hroute.
  unfold add. run_pure. cbn [rootState RouteRecognizer_new]. run_bind Hroute.
  cbn [isEmpty currentState handlers regex_text allSegments types].
  assert (Hlen : length (mark_last h segs) = length segs) by apply length_imap.
  assert (HhasR : given (Some R) = true).
  { simpl. by rewrite bool_decide_false. }
  destruct (decide (segs = [])) as [-> | Hne].
  - cbn [mark_last imap] in *. rewrite bool_decide_true by done.
    specialize (Hempty eq_refl). subst σ'. inversion Hpath; subst.
    erewrite (bind_ok (bind _ _));
      [| erewrite bind_ok;
         [| apply (put_fresh RouteRecognizer_new 0 [] (State.new None) eq_refl eq_refl)];
         cbn [last]; reflexivity].
    cbn beta. cbn [currentState handlers regex_text allSegments types Handler.handler].
    run_pure.
    change ((str "^" ++ segments_text []) ++ str "/" ++
              Segment_regex (Build_Segment EpsilonSegment (Some h)))
      with (str "^" ++ segments_text [Build_Segment EpsilonSegment (Some h)]).
    rewrite <- app_assoc. erewrite bind_ok by apply new_RegExp_segments. cbn beta.
    run_pure. run_pure. rewrite HhasR.
    set (e := Build_Segment EpsilonSegment (Some h)).
    set (p := Build_regexp (str "^" ++ segments_text [e] ++ str "$")
                (RBol :: fst (segments_prog 0 [e]) ++ [REol]) (snd (segments_prog 0 [e]))).
    set (st := State.mk (Some (str "^$")) [] (Some [Handler.mk h nms None]) (Some p)
                 (Some tys)).
    exists [e], [str "^$"], 1, st, [push_child 1 (State.new None); st].
    split; [reflexivity |]. split; [| split; [reflexivity | split; [reflexivity |]]].
    + apply (chain_step _ 0 (push_child 1 (State.new None)) 1 st (str "^$") [] 1);
        try reflexivity. constructor.
    + split; [reflexivity |]. left. done.
  - rewrite bool_decide_false by (intros H0; apply Hne; destruct segs; [done | discriminate]).
    run_pure. cbn [currentState handlers regex_text allSegments types].
    run_pure. rewrite <- app_assoc.
    erewrite bind_ok by apply new_RegExp_segments. cbn beta.
    run_pure. run_pure. rewrite HhasR.
    set (all := mark_last h segs) in *.
    set (p := Build_regexp (str "^" ++ segments_text all ++ str "$")
                (RBol :: fst (segments_prog 0 all) ++ [REol]) (snd (segments_prog 0 all))).
    set (hs := [Handler.mk h nms None]).
    exists all, (map key_of all), fin,
      (set_types tys (set_regex p (set_handlers hs st_fin))),
      (alter (set_types tys) fin (alter (set_regex p) fin (alter (set_handlers hs) fin σ'))).
    split; [reflexivity |]. split; [| split; [| split; [reflexivity | split]]].
    + eapply chain_path_shape; [exact Hpath |]. intros i.
      by rewrite !shape_alter.
    + by rewrite !list_lookup_alter_eq, Hfin.
    + reflexivity.
    + right. done.
Qed.

(** *** Recognizing the generated path *)

Lemma string_matches_key P seg :
  seg_ok P seg -> string_matches (seg_value P seg) (Some (key_of seg)) = Ok true.
Proof.
  intros Hok. unfold string_matches, key_of. rewrite compile_key.
  rewrite bool_decide_true; [done |]. by apply exec_key.
Qed.

Lemma accepting_single rr fin st :
  states rr !! fin = Some st -> is_Some (State.handlers st) ->
  accepting [fin] rr = (Ok [fin], rr).
Proof.
  intros Hfin Hh. unfold accepting. cbn [foldM]. unfold bind, deref.
  rewrite Hfin. by rewrite bool_decide_true.
Qed.

Lemma sortSolutions_single rr fin st :
  states rr !! fin = Some st -> sortSolutions [fin] rr = (Ok [fin], rr).
Proof.
  intros Hfin. unfold sortSolutions. cbn [foldM]. unfold bind, deref.
  by rewrite Hfin.
Qed.

Lemma recognize_single rr path fin st :
  candidates path rr = (Ok [fin], rr) ->
  states rr !! fin = Some st ->
  is_Some (State.handlers st) ->
  recognize path rr =
    (match findHandler st (normalize path) with
     | Ok r => Ok (Some r)
     | Throw e => Throw e
     end, rr).
Proof.
  intros Hcand Hfin Hh. rewrite recognize_candidates, Hcand.
  erewrite bind_ok by (by apply (sortSolutions_single rr fin st)).
  cbn beta iota. erewrite bind_ok by (unfold deref; rewrite Hfin; reflexivity).
  cbn beta. rewrite bool_decide_true by done.
  unfold bind, lift. by destruct (findHandler st (normalize path)).
Qed.

Lemma findHandler_generated P all st h nms :
  State.handlers st = Some [Handler.mk h nms None] ->
  State.regex st =
    Some (Build_regexp (str "^" ++ segments_text all ++ str "$")
            (RBol :: fst (segments_prog 0 all) ++ [REol])
            (snd (segments_prog 0 all))) ->
  Forall (seg_ok P) all ->
  only_last_query all ->
  seg_names all = nms ->
  (forall n, n ∈ nms <-> is_Some (P !! n)) ->
  proto_key ∉ nms ->
  findHandler st (path_of P all) =
    Ok [Result.mk h P (negb (bool_decide (length nms = 0))) ∅].
Proof.
  intros Hhandlers Hregex Hok Hlast Hnames Hdom Hproto.
  unfold findHandler. rewrite Hhandlers, Hregex. unfold match_regex.
  rewrite exec_segments by done.
  cbn [read_handlers Handler.names Handler.handler Handler.hasQuery].
  rewrite <- Hnames at 1.
  rewrite read_params_segments;
    [| done | done | rewrite length_replicate; apply segments_prog_groups].
  rewrite Hnames, foldl_params by done.
  reflexivity.
Qed.

Lemma candidates_chain rr keys fin st strs path :
  chain_path (states rr) (rootState rr) keys fin ->
  states rr !! fin = Some st ->
  is_Some (State.handlers st) ->
  drop 1 (split "/" (normalize path)) = strs ->
  Forall2 (fun key segment => string_matches segment (Some key) = Ok true) keys strs ->
  candidates path rr = (Ok [fin], rr).
Proof.
  intros Hpath Hfin Hh Hstrs Hall. unfold candidates. run_pure. rewrite Hstrs.
  erewrite bind_ok by (by apply (recognize_loop_chain rr _ keys fin)).
  cbn beta. by apply (accepting_single rr fin st).
Qed.

(** *** The template and the parameters *)

Lemma seg_names_elem seg segs nm :
  seg ∈ segs -> kind seg = DynamicSegment nm -> nm ∈ seg_names segs.
Proof.
  intros Hin Hkind. unfold seg_names. apply list_elem_of_In, in_flat_map.
  exists seg. split; [by apply list_elem_of_In |]. rewrite Hkind. by left.
Qed.

Lemma parsed_segments_ready P segs :
  Forall seg_parsed segs ->
  Forall simple_segment segs ->
  (forall n, n ∈ seg_names segs -> exists v, P !! n = Some v /\ simple_value v) ->
  Forall (seg_ready P) segs.
Proof.
  intros Hparsed Hsimple HP. apply Forall_forall. intros seg Hin.
  rewrite Forall_forall in Hparsed. rewrite Forall_forall in Hsimple.
  destruct (Hparsed seg Hin) as [Hq Hk]. specialize (Hsimple seg Hin).
  unfold seg_ready, seg_ok, seg_value, Segment_generate, simple_segment in *.
  rewrite Hq. destruct (kind seg) as [t| |nm|nm] eqn:Hkind; try done.
  - destruct Hk as [Hne Hslash]. simpl. done.
  - destruct (HP nm) as (v & Hv & s & -> & Hne & Hslash & Hsemi);
      [by eapply seg_names_elem |].
    unfold param, get. rewrite Hv. simpl. repeat split; eauto.
Qed.

Lemma seg_ready_marked P h seg :
  seg_ready P seg ->
  seg_ok P (Build_Segment (kind seg) (Some h)) /\
  ("/"%char ∉ seg_value P (Build_Segment (kind seg) (Some h))) /\
  seg_value P (Build_Segment (kind seg) (Some h)) ≠ [].
Proof. intros (Hok & Hslash & Hne & _). done. Qed.

Lemma seg_names_marked h init last :
  seg_names (init ++ [Build_Segment (kind last) (Some h)]) = seg_names (init ++ [last]).
Proof. unfold seg_names. by rewrite !flat_map_app. Qed.

(** What the registration of a template gives, for parameters that fit
    it: [all] are the segments stored under the name, [keys] the keys on the
    way to the terminal state. *)
Lemma generated_route_facts P h segs nms all keys :
  Forall seg_parsed segs ->
  nms = seg_names segs ->
  Forall simple_segment segs ->
  (forall n, n ∈ nms <-> is_Some (P !! n)) ->
  (forall n v, P !! n = Some v -> simple_value v) ->
  (segs = [] /\ all = [Build_Segment EpsilonSegment (Some h)] /\ keys = [str "^$"]) \/
  (segs ≠ [] /\ all = mark_last h segs /\ keys = map key_of all) ->
  all ≠ [] /\
  Forall (seg_ok P) all /\
  Forall (fun seg => "/"%char ∉ seg_value P seg) all /\
  only_last_query all /\
  seg_names all = nms /\
  Forall2 (fun key seg => string_matches (seg_value P seg) (Some key) = Ok true) keys all /\
  normalize (path_of P all) = path_of P all.
Proof.
  intros Hparsed Hnms Hsimple Hdom Hvalues [(-> & -> & ->) | (Hne & -> & ->)].
  - subst nms. repeat split; try done.
    + repeat constructor.
    + repeat constructor. apply not_elem_of_nil.
    + by left.
    + repeat constructor.
  - assert (Hready : Forall (seg_ready P) segs).
    { apply parsed_segments_ready; [done | done |].
      intros n Hn. rewrite <- Hnms in Hn. apply Hdom in Hn as [v Hv]. eauto. }
    destruct (exists_last Hne) as (init & last & ->).
    rewrite mark_last_snoc.
    apply Forall_app in Hready as [Hinit Hlast].
    apply Forall_cons in Hlast as [Hlast _].
    destruct (seg_ready_marked P h last Hlast) as (Hok & Hslash & Hnonempty).
    split; [by destruct init |]. split; [| split; [| split; [| split; [| split]]]].
    + apply Forall_app. split; [| by repeat constructor].
      eapply Forall_impl; [exact Hinit |]. by intros seg (? & _).
    + apply Forall_app. split; [| by repeat constructor].
      eapply Forall_impl; [exact Hinit |]. by intros seg (_ & ? & _).
    + apply only_last_query_snoc.
      eapply Forall_impl; [exact Hinit |]. by intros seg (_ & _ & _ & ? & ?).
    + by rewrite seg_names_marked.
    + apply Forall2_fmap_l, Forall_Forall2_diag.
      apply Forall_app. split.
      * eapply Forall_impl; [exact Hinit |]. intros seg (? & _).
        by apply string_matches_key.
      * repeat constructor. by apply string_matches_key.
    + by apply normalize_path.
Qed.

(** *** A route registered alone *)

(** A route registered alone, as one level: [generate] returns a path, and
    [recognize] on that path yields the one entry of the handler with
    exactly the parameters. *)
Lemma round_trip_alone (tpl h R : list ascii) (P : gmap (list ascii) value)
  (segs : list Segment) (nms : list (list ascii)) (tys : Types) :
  parse tpl [] (Build_Types 0 0 0) = (segs, nms, tys) ->
  Forall simple_segment segs ->
  R ≠ [] ->
  (forall n, n ∈ nms <-> is_Some (P !! n)) ->
  (forall n v, P !! n = Some v -> simple_value v) ->
  proto_key ∉ nms ->
  let rr := snd (add [Route.mk tpl h] (Some R) RouteRecognizer_new) in
  exists path,
    generate R P ∅ rr = (Ok path, rr) /\
    recognize path rr =
      (Ok (Some [Result.mk h P (negb (bool_decide (length nms = 0))) ∅]), rr).
Proof.
  intros Hparse Hsimple HR Hdom Hvalues Hproto rr.
  destruct (add_single tpl h R segs nms tys Hparse HR)
    as (all & keys & fin & st & σ & Hrr & Hpath & Hfin & Hh & Hre & Hcase).
  destruct (parse_spec _ _ _ _ _ Hparse) as [Hparsed Hnms].
  destruct (generated_route_facts P h segs nms all keys Hparsed Hnms Hsimple Hdom Hvalues
              Hcase)
    as (Hne & Hok & Hslash & Hlast & Hnames & Hkeys & Hnorm).
  fold rr in Hrr. exists (path_of P all). split.
  - eapply generate_path; [| done]. rewrite Hrr. simpl. apply lookup_singleton_eq.
  - assert (Hcand : candidates (path_of P all) rr = (Ok [fin], rr)).
    { apply (candidates_chain rr keys fin st (map (seg_value P) all)).
      - by rewrite Hrr.
      - by rewrite Hrr.
      - by rewrite Hh.
      - by rewrite Hnorm, split_path.
      - by apply Forall2_fmap_r. }
    rewrite (recognize_single rr _ fin st Hcand) by (by rewrite ?Hrr, ?Hh).
    rewrite Hnorm. by erewrite findHandler_generated.
Qed.

(** *** A route added to any recognizer *)

Lemma extends_refl σ : extends σ σ.
Proof. intros s st Hs. exists st. done. Qed.

Lemma extends_trans σ1 σ2 σ3 : extends σ1 σ2 -> extends σ2 σ3 -> extends σ1 σ3.
Proof.
  intros H12 H23 s st Hs.
  destruct (H12 s st Hs) as (st2 & Hs2 & Hk2 & Hn2).
  destruct (H23 s st2 Hs2) as (st3 & Hs3 & Hk3 & Hn3).
  exists st3. split; [done |]. split; [congruence | set_solver].
Qed.

Lemma trie_path_extends σ σ' s keys fin :
  trie_path σ s keys fin -> extends σ σ' -> trie_path σ' s keys fin.
Proof.
  intros Hpath Hext.
  induction Hpath as [s | s st c stc key keys fin Hs Hin Hc Hkey _ IH]; [constructor |].
  destruct (Hext s st Hs) as (st' & Hs' & _ & Hsub).
  destruct (Hext c stc Hc) as (stc' & Hc' & Hk' & _).
  apply (trie_step σ' s st' c stc' key keys fin); [done | by apply Hsub | done | congruence | done].
Qed.

Lemma trie_path_valid σ s keys fin :
  trie_path σ s keys fin -> s < length σ -> fin < length σ.
Proof.
  induction 1 as [s | s st c stc key keys fin Hs Hin Hc Hkey _ IH]; [done |].
  intros _. apply IH. by eapply lookup_lt_Some.
Qed.

Lemma extends_alter (f : State.t -> State.t) s (σ : list State.t) :
  (forall st, shape (f st) = shape st) -> extends σ (alter f s σ).
Proof.
  intros Hf s0 st Hs0. destruct (decide (s = s0)) as [-> | Hne].
  - exists (f st). rewrite list_lookup_alter_eq, Hs0. specialize (Hf st).
    unfold shape in Hf. injection Hf as Hk Hn. by rewrite Hk, Hn.
  - exists st. by rewrite list_lookup_alter_ne.
Qed.

(** *** [put] in a well-formed trie *)

Lemma get_loop_ok rr cs key :
  (forall c, c ∈ cs -> is_Some (states rr !! c)) ->
  exists o, get_loop cs key rr = (Ok o, rr).
Proof.
  induction cs as [|c cs IH]; intros Hcs; simpl; [by eexists |].
  unfold bind, deref. destruct (Hcs c) as [st ->]; [by left |].
  case_bool_decide; [by eexists |]. apply IH. intros c' Hc'. apply Hcs. by right.
Qed.

Lemma State_put_ok rr this frag :
  trie_wf rr -> this < length (states rr) ->
  is_Some (compile (str "^" ++ frag ++ str "$")) ->
  exists rr' child stc,
    State_put this frag rr = (Ok child, rr') /\
    trie_wf rr' /\
    extends (states rr) (states rr') /\
    rootState rr' = rootState rr /\ names rr' = names rr /\
    (exists st', states rr' !! this = Some st' /\ child ∈ State.nextStates st') /\
    states rr' !! child = Some stc /\
    State.segmentRegex stc = Some (str "^" ++ frag ++ str "$").
Proof.
  intros (Hinv & Hkeys & Hroot) Hthis Hcompile.
  destruct (lookup_lt_is_Some_2 _ _ Hthis) as [st Hst].
  destruct (State_put_cases rr this frag)
    as [[e He] | [(child & st0 & Hput & Hst0 & Hin & Hkey) | (st0 & Hst0 & Hfresh & Hput)]].
  - exfalso.
    destruct (get_loop_ok rr (State.nextStates st) (str "^" ++ frag ++ str "$"))
      as [o Ho].
    { intros c Hc. apply lookup_lt_is_Some_2. destruct Hinv as [Hvalid _].
      by eapply Hvalid. }
    assert (Hget : State_get this (str "^" ++ frag ++ str "$") rr = (Ok o, rr)).
    { unfold State_get, bind, deref. by rewrite Hst. }
    unfold State_put in He. cbv zeta in He. unfold bind at 1 in He.
    rewrite Hget in He. by destruct o.
  - destruct (states rr !! child) as [stc|] eqn:Hchild; [| done].
    exists rr, child, stc. split; [done |]. split; [done |].
    split; [apply extends_refl |]. split; [done |]. split; [done |].
    split; [eauto |]. split; [done |]. simpl in Hkey. by injection Hkey.
  - rewrite Hst in Hst0. injection Hst0 as <-.
    set (L := length (states rr)) in *.
    set (key := str "^" ++ frag ++ str "$") in *.
    set (σ1 := alter (push_child L) this (states rr ++ [State.new (Some key)])) in *.
    exists (Build_RouteRecognizer σ1 (rootState rr) (names rr)), L, (State.new (Some key)).
    assert (HL : σ1 !! L = Some (State.new (Some key))).
    { unfold σ1. rewrite list_lookup_alter_ne by lia. by apply list_lookup_middle. }
    assert (Hthis1 : σ1 !! this = Some (push_child L st)).
    { unfold σ1. rewrite list_lookup_alter_eq, lookup_app_l, Hst by done. done. }
    split; [done |]. split; [| split; [| split; [done | split; [done | split; [| done]]]]].
    + split; [exact (trie_inv_put_new rr this st key Hinv Hst Hfresh) |]. split.
      * intros s st1 k Hs Hk. simpl in Hs.
        destruct (decide (this = s)) as [<- | Hne].
        -- rewrite Hthis1 in Hs. injection Hs as <-. simpl in Hk. by eapply Hkeys.
        -- unfold σ1 in Hs. rewrite list_lookup_alter_ne in Hs by done.
           apply lookup_snoc_Some in Hs as [[_ Hs] | [_ <-]]; [by eapply Hkeys |].
           simpl in Hk. by injection Hk as <-.
      * simpl. unfold σ1. rewrite length_alter, length_app. simpl. lia.
    + intros s st1 Hs. simpl.
      destruct (decide (this = s)) as [<- | Hne].
      * rewrite Hst in Hs. injection Hs as <-. exists (push_child L st).
        split; [done |]. split; [done |]. simpl. set_solver.
      * exists st1. unfold σ1. rewrite list_lookup_alter_ne by done.
        rewrite lookup_app_l by (by eapply lookup_lt_Some). done.
    + exists (push_child L st). split; [done |]. simpl. set_solver.
Qed.

Lemma add_chain_wf marked : forall rr cur re,
  trie_wf rr -> cur < length (states rr) ->
  exists rr' fin,
    foldM add_segment (cur, re) marked rr =
      (Ok (fin, re ++ segments_text marked), rr') /\
    trie_wf rr' /\
    extends (states rr) (states rr') /\
    rootState rr' = rootState rr /\ names rr' = names rr /\
    trie_path (states rr') cur (map key_of marked) fin /\
    fin < length (states rr').
Proof.
  induction marked as [|seg marked IH]; intros rr cur re Hwf Hcur.
  - exists rr, cur. simpl. unfold ret. rewrite app_nil_r.
    split; [done |]. split; [done |]. split; [apply extends_refl |].
    split; [done |]. split; [done |]. split; [constructor | done].
  - destruct (State_put_ok rr cur (Segment_regex seg) Hwf Hcur)
      as (rr1 & child & stc & Hput & Hwf1 & Hext1 & Hroot1 & Hnames1 &
          (st1 & Hst1 & Hin1) & Hchild & Hkey).
    { rewrite compile_key. eauto. }
    assert (Hchild_lt : child < length (states rr1)) by (by eapply lookup_lt_Some).
    destruct (IH rr1 child (re ++ str "/" ++ Segment_regex seg) Hwf1 Hchild_lt)
      as (rr' & fin & Hfold & Hwf' & Hext' & Hroot' & Hnames' & Hpath & Hfin).
    exists rr', fin.
    split; [| split; [done | split; [by eapply extends_trans | split; [congruence |
             split; [congruence | split; [| done]]]]]].
    + cbn [foldM]. unfold bind at 1. unfold add_segment at 1. unfold bind at 1.
      rewrite Hput. unfold ret at 1. rewrite Hfold, segments_text_cons.
      do 3 f_equal. by rewrite <- !app_assoc.
    + destruct (Hext' cur st1 Hst1) as (st' & Hst' & _ & Hsub).
      destruct (Hext' child stc Hchild) as (stc' & Hstc' & Hkey' & _).
      simpl. apply (trie_step _ cur st' child stc' (key_of seg) _ fin);
        [done | by apply Hsub | done | | done].
      rewrite Hkey'. exact Hkey.
Qed.

(** *** Walking a well-formed trie *)






(** *** [add] keeps the trie well formed *)

Lemma State_put_wf this frag :
  is_Some (compile (str "^" ++ frag ++ str "$")) ->
  preserves trie_wf (State_put this frag).
Proof.
  intros Hcompile rr Hwf.
  destruct (decide (this < length (states rr))) as [Hlt | Hge].
  - destruct (State_put_ok rr this frag Hwf Hlt Hcompile)
      as (rr' & child & stc & -> & Hwf' & _). exact Hwf'.
  - unfold State_put, State_get, bind, deref.
    rewrite (lookup_ge_None_2 (states rr) this) by lia. exact Hwf.
Qed.

Lemma modify_wf s (f : State.t -> State.t) :
  (forall st, State.segmentRegex (f st) = State.segmentRegex st) ->
  (forall st, State.nextStates (f st) = State.nextStates st) ->
  preserves trie_wf (modify s f).
Proof.
  intros Hkey Hnext rr (Hinv & Hkeys & Hroot). split; [| split].
  - by apply modify_inv.
  - intros s0 st0 k Hs0 Hk. simpl in Hs0.
    destruct (decide (s = s0)) as [<- | Hne].
    + rewrite list_lookup_alter_eq in Hs0. destruct (states rr !! s) as [st1|] eqn:E; [| done].
      simpl in Hs0. injection Hs0 as <-. rewrite Hkey in Hk. by eapply Hkeys.
    + rewrite list_lookup_alter_ne in Hs0 by done. by eapply Hkeys.
  - simpl. by rewrite length_alter.
Qed.

Lemma add_route_wf v route : preserves trie_wf (add_route v route).
Proof.
  unfold add_route. destruct (parse _ _ _) as [[segments nms] tys].
  apply preserves_bind; [| intros r; apply preserves_readonly, readonly_ret].
  apply preserves_foldM. intros [cur re] seg. unfold add_segment.
  apply preserves_bind; [| intros c; apply preserves_readonly, readonly_ret].
  apply State_put_wf. rewrite compile_key. eauto.
Qed.

Lemma add_wf routes options : preserves trie_wf (add routes options).
Proof.
  unfold add.
  apply preserves_bind; [apply preserves_readonly, readonly_this_rootState | intros root].
  apply preserves_bind; [apply preserves_foldM; intros; apply add_route_wf | intros v].
  apply preserves_bind.
  { destruct (isEmpty v); [| apply preserves_readonly, readonly_ret].
    apply preserves_bind; [apply State_put_wf; by eexists | intros c].
    destruct (last _); apply preserves_readonly; auto with readonly. }
  intros v'.
  apply preserves_bind; [by apply modify_wf | intros _].
  apply preserves_bind.
  { unfold new_RegExp. destruct (compile _); apply preserves_readonly; auto with readonly. }
  intros re.
  apply preserves_bind; [by apply modify_wf | intros _].
  apply preserves_bind; [by apply modify_wf | intros _].
  destruct (given options); [| apply preserves_readonly, readonly_ret].
  intros rr Hwf. exact Hwf.
Qed.

Lemma trie_wf_new : trie_wf RouteRecognizer_new.
Proof.
  split; [apply trie_inv_new |]. split; [| simpl; lia].
  intros [|s] st k Hs Hk; simpl in Hs; [| done]. by injection Hs as <-.
Qed.

Lemma run_adds_wf calls : forall rr, trie_wf rr -> trie_wf (run_adds calls rr).
Proof.
  induction calls as [|[routes options] calls IH]; intros rr Hrr; simpl; [done |].
  apply IH. by apply add_wf.
Qed.

(** *** One more route in a well-formed recognizer *)

Lemma finish_states rr fin (hs : list Handler.t) p tys st :
  states rr !! fin = Some st ->
  let σ := alter (set_types tys) fin
             (alter (set_regex p) fin (alter (set_handlers hs) fin (states rr))) in
  σ !! fin = Some (set_types tys (set_regex p (set_handlers hs st))) /\
  extends (states rr) σ /\ length σ = length (states rr).
Proof.
  intros Hfin σ. split; [| split].
  - unfold σ. by rewrite !list_lookup_alter_eq, Hfin.
  - unfold σ. eapply extends_trans; [| by apply extends_alter].
    eapply extends_trans; [| by apply extends_alter]. by apply extends_alter.
  - unfold σ. by rewrite !length_alter.
Qed.

Lemma add_single_wf rr0 tpl h R segs nms tys :
  trie_wf rr0 ->
  parse tpl [] (Build_Types 0 0 0) = (segs, nms, tys) ->
  R ≠ [] ->
  exists all keys fin st rr,
    snd (add [Route.mk tpl h] (Some R) rr0) = rr /\
    trie_wf rr /\
    names rr !! R = Some (Named.mk all [Handler.mk h nms None]) /\
    trie_path (states rr) (rootState rr) keys fin /\
    states rr !! fin = Some st /\
    State.handlers st = Some [Handler.mk h nms None] /\
    State.regex st =
      Some (Build_regexp (str "^" ++ segments_text all ++ str "$")
              (RBol :: fst (segments_prog 0 all) ++ [REol])
              (snd (segments_prog 0 all))) /\
    ((segs = [] /\ all = [Build_Segment EpsilonSegment (Some h)] /\ keys = [str "^$"]) \/
     (segs ≠ [] /\ all = mark_last h segs /\ keys = map key_of all)).
Proof.
  intros Hwf0 Hparse HR.
  pose proof (add_wf [Route.mk tpl h] (Some R) rr0 Hwf0) as Hwf.
  destruct (add_chain_wf (mark_last h segs) rr0 (rootState rr0) (str "^") Hwf0)
    as (rr1 & fin & Hfold & Hwf1 & Hext1 & Hroot1 & Hnames1 & Hpath & Hfin).
  { apply Hwf0. }
  destruct rr1 as [σ1 root1 names1]. simpl in Hroot1, Hnames1. subst root1 names1.
  pose proof (add_route_single tpl h segs nms tys
                (Build_add_vars (rootState rr0) (str "^") (Build_Types 0 0 0) [] [] true)
                rr0 σ1 fin _ Hparse Hfold) as Hroute.
  cbn [handlers allSegments isEmpty andb app] in Hroute.
  revert Hwf. unfold add. run_pure. run_bind Hroute.
  cbn [isEmpty currentState handlers regex_text allSegments types].
  assert (HhasR : given (Some R) = true).
  { simpl. by rewrite bool_decide_false. }
  set (rr1 := Build_RouteRecognizer σ1 (rootState rr0) (names rr0)) in *.
  destruct (decide (segs = [])) as [-> | Hne].
  - cbn [mark_last imap] in *. rewrite bool_decide_true by done.
    inversion Hpath; subst.
    destruct (State_put_ok rr1 (rootState rr0) [] Hwf1 Hfin)
      as (rr2 & child & stc & Hput & Hwf2 & Hext2 & Hroot2 & Hnames2 &
          (st_root & Hst_root & Hin) & Hchild & Hkey); [by eexists |].
    erewrite (bind_ok (bind _ _));
      [| erewrite bind_ok by exact Hput; cbn [last]; reflexivity].
    cbn beta. cbn [currentState handlers regex_text allSegments types Handler.handler].
    run_pure.
    change ((str "^" ++ segments_text []) ++ str "/" ++
              Segment_regex (Build_Segment EpsilonSegment (Some h)))
      with (str "^" ++ segments_text [Build_Segment EpsilonSegment (Some h)]).
    rewrite <- app_assoc. erewrite bind_ok by apply new_RegExp_segments. cbn beta.
    run_pure. run_pure. rewrite HhasR. intros Hwf.
    set (e := Build_Segment EpsilonSegment (Some h)).
    set (p := Build_regexp (str "^" ++ segments_text [e] ++ str "$")
                (RBol :: fst (segments_prog 0 [e]) ++ [REol]) (snd (segments_prog 0 [e]))).
    set (hs := [Handler.mk h nms None]).
    destruct (finish_states rr2 child hs p tys stc Hchild) as (Hfin' & Hext' & _).
    eexists [e], [str "^$"], child, _, _. split; [reflexivity |].
    split; [exact Hwf |]. cbn [names rootState states set_name snd modify].
    split; [rewrite Hnames2; apply lookup_insert_eq |].
    split; [| split; [exact Hfin' | split; [reflexivity | split; [reflexivity |]]]].
    + rewrite Hroot2. eapply trie_path_extends; [| exact Hext'].
      apply (trie_step _ (rootState rr0) st_root child stc (str "^$") [] child);
        try done. constructor.
    + left. done.
  - rewrite bool_decide_false by (intros H0; apply Hne; destruct segs; [done | discriminate]).
    run_pure. cbn [currentState handlers regex_text allSegments types].
    run_pure. rewrite <- app_assoc.
    erewrite bind_ok by apply new_RegExp_segments. cbn beta.
    run_pure. run_pure. rewrite HhasR. intros Hwf.
    set (all := mark_last h segs) in *.
    set (p := Build_regexp (str "^" ++ segments_text all ++ str "$")
                (RBol :: fst (segments_prog 0 all) ++ [REol]) (snd (segments_prog 0 all))).
    set (hs := [Handler.mk h nms None]).
    destruct (lookup_lt_is_Some_2 σ1 fin Hfin) as [st_fin Hst_fin].
    destruct (finish_states rr1 fin hs p tys st_fin Hst_fin) as (Hfin' & Hext' & _).
    eexists all, (map key_of all), fin, _, _. split; [reflexivity |].
    split; [exact Hwf |]. cbn [names rootState states set_name snd modify].
    split; [apply lookup_insert_eq |].
    split; [| split; [exact Hfin' | split; [reflexivity | split; [reflexivity |]]]].
    + eapply trie_path_extends; [exact Hpath | exact Hext'].
    + right. done.
Qed.

(** *** The round trip *)



(** * Further properties *)

(** ** What [add] leaves alone *)

Lemma keeps_refl σ : keeps σ σ.
Proof. split; [done |]. intros s st' Hs. by rewrite Hs. Qed.

Lemma keeps_trans σ1 σ2 σ3 : keeps σ1 σ2 -> keeps σ2 σ3 -> keeps σ1 σ3.
Proof.
  intros [Hl12 H12] [Hl23 H23]. split; [lia |].
  intros s st3 Hs3. specialize (H23 s st3 Hs3).
  destruct (σ2 !! s) as [st2|] eqn:Hs2.
  - specialize (H12 s st2 Hs2). destruct (σ1 !! s) as [st1|]; [congruence |].
    unfold terminal_data in H23. congruence.
  - rewrite (lookup_ge_None_2 σ1 s); [done |].
    apply lookup_ge_None_1 in Hs2. lia.
Qed.

Lemma steps_readonly (Rel : list State.t -> list State.t -> Prop) {A} (c : M A) :
  (forall σ, Rel σ σ) -> readonly c -> steps Rel c.
Proof. intros Hrefl Hc rr. by rewrite Hc. Qed.

Lemma steps_bind (Rel : list State.t -> list State.t -> Prop) {A B}
  (c : M A) (f : A -> M B) :
  (forall σ1 σ2 σ3, Rel σ1 σ2 -> Rel σ2 σ3 -> Rel σ1 σ3) ->
  steps Rel c -> (forall a, steps Rel (f a)) -> steps Rel (bind c f).
Proof.
  intros Htrans Hc Hf rr. unfold bind. specialize (Hc rr).
  destruct (c rr) as [[a|e] rr1]; simpl in *; [| done].
  eapply Htrans; [exact Hc | apply Hf].
Qed.

Lemma steps_foldM (Rel : list State.t -> list State.t -> Prop) {A B}
  (f : B -> A -> M B) (l : list A) :
  (forall σ, Rel σ σ) ->
  (forall σ1 σ2 σ3, Rel σ1 σ2 -> Rel σ2 σ3 -> Rel σ1 σ3) ->
  (forall b a, steps Rel (f b a)) -> forall b, steps Rel (foldM f b l).
Proof.
  intros Hrefl Htrans Hf. induction l as [|a l IH]; intros b; simpl.
  - by apply steps_readonly; [| apply readonly_ret].
  - apply steps_bind; [done | apply Hf | intros b'; apply IH].
Qed.

Lemma State_put_keeps this frag : steps keeps (State_put this frag).
Proof.
  intros rr.
  destruct (State_put_cases rr this frag)
    as [[e ->] | [(child & st & -> & _) | (st & Hthis & _ & ->)]];
    try apply keeps_refl.
  cbn [snd states]. split.
  - rewrite length_alter, length_app. simpl. lia.
  - intros s st' Hs. destruct (decide (this = s)) as [<- | Hne].
    + rewrite list_lookup_alter_eq, lookup_app_l, Hthis in Hs by (by eapply lookup_lt_Some).
      simpl in Hs. injection Hs as <-. by rewrite Hthis.
    + rewrite list_lookup_alter_ne in Hs by done.
      apply lookup_snoc_Some in Hs as [[_ Hs] | [-> <-]]; [by rewrite Hs |].
      by rewrite (lookup_ge_None_2 (states rr) (length (states rr))).
Qed.

Lemma add_route_keeps v route : steps keeps (add_route v route).
Proof.
  unfold add_route. destruct (parse _ _ _) as [[segments nms] tys].
  apply steps_bind; [apply keeps_trans | |].
  - apply steps_foldM; [apply keeps_refl | apply keeps_trans |].
    intros [cur re] seg. unfold add_segment.
    apply steps_bind; [apply keeps_trans | apply State_put_keeps |].
    intros c. apply steps_readonly; [apply keeps_refl | apply readonly_ret].
  - intros r. apply steps_readonly; [apply keeps_refl | apply readonly_ret].
Qed.

Lemma add_routes_keeps v routes : steps keeps (foldM add_route v routes).
Proof.
  apply steps_foldM; [apply keeps_refl | apply keeps_trans |].
  intros; apply add_route_keeps.
Qed.

(** ** What [add] computes *)

Lemma parse_segment_fst acc1 acc2 piece :
  fst acc1 = fst acc2 ->
  fst (parse_segment acc1 piece) = fst (parse_segment acc2 piece).
Proof.
  destruct acc1 as [[r1 n1] t1], acc2 as [[r2 n2] t2]. simpl. intros [= -> ->].
  unfold parse_segment.
  destruct (exec dynamicRe piece); [done |].
  destruct (exec starRe piece); [done |].
  by case_bool_decide.
Qed.

Lemma parse_fold_fst pieces : forall acc1 acc2,
  fst acc1 = fst acc2 ->
  fst (foldl parse_segment acc1 pieces) = fst (foldl parse_segment acc2 pieces).
Proof.
  induction pieces as [|piece pieces IH]; intros acc1 acc2 H; [done |].
  simpl. apply IH. by apply parse_segment_fst.
Qed.

Lemma parse_template tpl tys :
  parse tpl [] tys = (template_segments tpl, template_names tpl, template_types tpl tys).
Proof.
  unfold template_segments, template_names, template_types, parse.
  set (pieces := split "/" _).
  pose proof (parse_fold_fst pieces ([], [], tys) ([], [], Build_Types 0 0 0) eq_refl) as H.
  destruct (foldl parse_segment ([], [], tys) pieces) as [[a b] c].
  destruct (foldl parse_segment ([], [], Build_Types 0 0 0) pieces) as [[a' b'] c'].
  simpl in *. by injection H as -> ->.
Qed.

Lemma trie_path_app σ a ks b ks' c :
  trie_path σ a ks b -> trie_path σ b ks' c -> trie_path σ a (ks ++ ks') c.
Proof.
  induction 1 as [s | s st c0 stc key keys fin Hs Hin Hc Hkey _ IH]; intros H2; [done |].
  simpl. eapply trie_step; eauto.
Qed.

Lemma add_route_ok v route rr :
  trie_wf rr -> currentState v < length (states rr) ->
  exists fin rr',
    add_route v route rr =
      (Ok (Build_add_vars fin
             (regex_text v ++ segments_text (level_segments route))
             (template_types (Route.path route) (types v))
             (handlers v ++ [level_handler route])
             (allSegments v ++ level_segments route)
             (isEmpty v && bool_decide (level_segments route = []))), rr') /\
    trie_wf rr' /\
    extends (states rr) (states rr') /\
    rootState rr' = rootState rr /\ names rr' = names rr /\
    trie_path (states rr') (currentState v) (map key_of (level_segments route)) fin /\
    fin < length (states rr').
Proof.
  intros Hwf Hcur.
  destruct (add_chain_wf (level_segments route) rr (currentState v) (regex_text v) Hwf Hcur)
    as (rr' & fin & Hfold & Hwf' & Hext & Hroot & Hnames & Hpath & Hfin).
  exists fin, rr'. split; [| done].
  unfold add_route. rewrite parse_template.
  fold (level_segments route). run_bind Hfold. reflexivity.
Qed.

Lemma add_routes_ok routes : forall v rr,
  trie_wf rr -> currentState v < length (states rr) ->
  exists fin rr',
    foldM add_route v routes rr =
      (Ok (Build_add_vars fin
             (regex_text v ++ segments_text (flat_map level_segments routes))
             (foldl (fun tys route => template_types (Route.path route) tys) (types v) routes)
             (handlers v ++ map level_handler routes)
             (allSegments v ++ flat_map level_segments routes)
             (isEmpty v && bool_decide (flat_map level_segments routes = []))), rr') /\
    trie_wf rr' /\
    extends (states rr) (states rr') /\
    rootState rr' = rootState rr /\ names rr' = names rr /\
    trie_path (states rr') (currentState v) (map key_of (flat_map level_segments routes)) fin /\
    fin < length (states rr').
Proof.
  induction routes as [|route routes IH]; intros v rr Hwf Hcur.
  - exists (currentState v), rr. simpl. rewrite !app_nil_r, andb_true_r.
    split; [by destruct v |]. split; [done |]. split; [apply extends_refl |].
    split; [done |]. split; [done |]. split; [constructor | done].
  - destruct (add_route_ok v route rr Hwf Hcur)
      as (fin1 & rr1 & Hroute & Hwf1 & Hext1 & Hroot1 & Hnames1 & Hpath1 & Hfin1).
    set (v1 := Build_add_vars _ _ _ _ _ _) in Hroute.
    destruct (IH v1 rr1 Hwf1 Hfin1)
      as (fin & rr' & Hfold & Hwf' & Hext' & Hroot' & Hnames' & Hpath' & Hfin).
    exists fin, rr'. split; [| split; [done | split; [by eapply extends_trans |
      split; [congruence | split; [congruence | split; [| done]]]]]].
    + cbn [foldM]. run_bind Hroute. rewrite Hfold. unfold v1.
      cbn [regex_text types handlers allSegments isEmpty flat_map map foldl].
      rewrite segments_text_app, <- !app_assoc. do 3 f_equal.
      rewrite <- andb_assoc. f_equal.
      destruct (level_segments route), (flat_map level_segments routes); done.
    + cbn [flat_map]. rewrite map_app. eapply trie_path_app; [| exact Hpath'].
      eapply trie_path_extends; [exact Hpath1 | exact Hext'].
Qed.

Lemma last_map {A B} (f : A -> B) (l : list A) : last (map f l) = f <$> last l.
Proof.
  induction l as [|a l IH]; [done |]. destruct l as [|b l]; [done |].
  exact IH.
Qed.

Lemma segments_text_snoc segs e :
  (str "^" ++ segments_text segs) ++ str "/" ++ Segment_regex e =
  str "^" ++ segments_text (segs ++ [e]).
Proof.
  rewrite segments_text_app, (segments_text_cons e []). unfold segments_text at 2.
  simpl flat_map. rewrite app_nil_r. by rewrite <- !app_assoc.
Qed.

Lemma chain_segments_some routes :
  routes ≠ [] ->
  chain_segments routes =
    let segs := flat_map level_segments routes in
    if bool_decide (segs = []) then
      [Build_Segment EpsilonSegment (Route.handler <$> last routes)]
    else segs.
Proof.
  intros Hne. unfold chain_segments. cbv zeta. case_bool_decide; [| done].
  destruct (last routes) as [r|] eqn:E; [done |].
  apply last_None in E. done.
Qed.

Lemma add_ok routes options rr :
  trie_wf rr -> routes ≠ [] ->
  exists fin st rr',
    add routes options rr = (Ok tt, rr') /\
    trie_wf rr' /\
    extends (states rr) (states rr') /\
    rootState rr' = rootState rr /\
    names rr' =
      (if given options
       then <[default [] options :=
                Named.mk (chain_segments routes) (map level_handler routes)]> (names rr)
       else names rr) /\
    trie_path (states rr') (rootState rr') (chain_keys routes) fin /\
    states rr' !! fin = Some st /\
    State.handlers st = Some (map level_handler routes) /\
    State.regex st = Some (compiled (chain_segments routes)) /\
    State.types st = Some (chain_types routes) /\
    (forall s st',
        states rr' !! s = Some st' -> s ≠ fin ->
        match states rr !! s with
        | Some st0 => terminal_data st' = terminal_data st0
        | None => State.handlers st' = None
        end).
Proof.
  intros Hwf Hne.
  set (v0 := Build_add_vars (rootState rr) (str "^") (Build_Types 0 0 0) [] [] true).
  destruct (add_routes_ok routes v0 rr Hwf) as
    (fin1 & rr1 & Hfold & Hwf1 & Hext1 & Hroot1 & Hnames1 & Hpath1 & Hfin1);
    [apply Hwf |].
  cbn [v0 regex_text types handlers allSegments isEmpty currentState andb app] in Hfold, Hpath1.
  fold (chain_types routes) in Hfold.
  set (segs := flat_map level_segments routes) in *.
  assert (Hlast : exists r, last routes = Some r).
  { destruct (last routes) eqn:E; [eauto |]. by apply last_None in E. }
  destruct Hlast as [r Hr].
  set (v1 := Build_add_vars fin1 (str "^" ++ segments_text segs) (chain_types routes)
               (map level_handler routes) segs (bool_decide (segs = []))) in *.
  assert (Hstep : exists fin rr2,
    (if isEmpty v1 then
       let* currentState := State_put (currentState v1) [] in
       match last (handlers v1) with
       | None => throw TypeError
       | Some lastHandler =>
           let e := Build_Segment EpsilonSegment (Some (Handler.handler lastHandler)) in
           ret (Build_add_vars currentState
                  (regex_text v1 ++ str "/" ++ Segment_regex e)
                  (types v1) (handlers v1) (allSegments v1 ++ [e]) true)
       end
     else ret v1) rr1 =
      (Ok (Build_add_vars fin (str "^" ++ segments_text (chain_segments routes))
             (chain_types routes) (map level_handler routes) (chain_segments routes)
             (bool_decide (segs = []))), rr2) /\
    trie_wf rr2 /\ extends (states rr) (states rr2) /\
    rootState rr2 = rootState rr /\ names rr2 = names rr /\
    trie_path (states rr2) (rootState rr2) (chain_keys routes) fin /\
    fin < length (states rr2) /\ keeps (states rr1) (states rr2)).
  { unfold chain_segments, chain_keys. fold segs. rewrite Hr.
    cbn [v1 isEmpty currentState handlers regex_text types allSegments].
    case_bool_decide as Hsegs.
    - rewrite Hsegs in *. inversion Hpath1; subst.
      destruct (State_put_ok rr1 (rootState rr) [] Hwf1 Hfin1)
        as (rr2 & child & stc & Hput & Hwf2 & Hext2 & Hroot2 & Hnames2 &
            (st_root & Hst_root & Hin) & Hchild & Hkey); [by eexists |].
      exists child, rr2. run_bind Hput. rewrite last_map, Hr. cbn [fmap option_fmap option_map].
      unfold ret. cbn [level_handler Handler.handler]. rewrite segments_text_snoc.
      split; [done |]. split; [done |]. split; [by eapply extends_trans |].
      split; [congruence |]. split; [congruence |].
      split; [| split; [by eapply lookup_lt_Some |]].
      + rewrite Hroot2, Hroot1.
        apply (trie_step _ (rootState rr) st_root child stc (str "^$") [] child);
          try done. constructor.
      + pose proof (State_put_keeps (rootState rr) [] rr1) as Hk. by rewrite Hput in Hk.
    - exists fin1, rr1. unfold ret. split; [done |]. split; [done |]. split; [done |].
      split; [done |]. split; [done |]. split; [by rewrite Hroot1 |].
      split; [done | apply keeps_refl]. }
  destruct Hstep
    as (fin & rr2 & Hstep & Hwf2 & Hext2 & Hroot2 & Hnames2 & Hpath2 & Hfin2 & Hkeeps2).
  assert (Hkeeps : keeps (states rr) (states rr2)).
  { eapply keeps_trans; [| exact Hkeeps2].
    pose proof (add_routes_keeps v0 routes rr) as Hk. by rewrite Hfold in Hk. }
  destruct (lookup_lt_is_Some_2 _ _ Hfin2) as [st_fin Hst_fin].
  set (hs := map level_handler routes) in *.
  set (p := compiled (chain_segments routes)).
  destruct (finish_states rr2 fin hs p (chain_types routes) st_fin Hst_fin)
    as (Hfin' & Hext' & Hlen').
  pose proof (add_wf routes options rr Hwf) as Hwf'.
  revert Hwf'. unfold add. run_pure. fold v0.
  run_bind Hfold. fold v1. run_bind Hstep. cbn [currentState handlers regex_text allSegments types].
  run_pure. rewrite <- app_assoc.
  erewrite bind_ok by apply new_RegExp_segments. cbn beta.
  run_pure. run_pure. fold p hs. intros Hwf'.
  destruct (given options); cbn [set_name ret snd fst names states rootState modify] in *.
  all: eexists fin, _, _; split; [reflexivity |].
  all: cbn [names states rootState].
  all: split; [exact Hwf' |]; split; [by eapply extends_trans |].
  all: split; [done |]; split; [by rewrite Hnames2 |].
  all: split; [eapply trie_path_extends; [exact Hpath2 | exact Hext'] |].
  all: split; [exact Hfin' |].
  all: split; [done |]; split; [done |]; split; [done |].
  all: intros s st' Hs Hne'; rewrite !list_lookup_alter_ne in Hs by done.
  all: by apply (proj2 Hkeeps).
Qed.

Lemma add_empty options rr :
  trie_wf rr ->
  add [] options rr = (Throw TypeError, snd (State_put (rootState rr) [] rr)).
Proof.
  intros Hwf.
  destruct (State_put_ok rr (rootState rr) [] Hwf)
    as (rr2 & child & stc & Hput & _); [apply Hwf | by eexists |].
  unfold add. run_pure. cbn [foldM]. run_pure. cbn [isEmpty currentState handlers].
  unfold bind at 1. unfold bind at 1. rewrite Hput. reflexivity.
Qed.

(** In a recognizer built by any sequence of [add] calls, [add] throws
    exactly when it is given no level, a [TypeError] for the handler of a
    last level that is not there; given at least one level it returns,
    whatever the templates are. *)
Theorem add_throws_exactly_without_levels
  (calls : list (list Route.t * option (list ascii)))
  (routes : list Route.t) (options : option (list ascii)) :
  fst (add routes options (run_adds calls RouteRecognizer_new)) =
  if bool_decide (routes = []) then Throw TypeError else Ok tt.
Proof.
  assert (Hwf : trie_wf (run_adds calls RouteRecognizer_new))
    by apply run_adds_wf, trie_wf_new.
  case_bool_decide as Hroutes.
  - subst routes. by rewrite (add_empty options _ Hwf).
  - destruct (add_ok routes options _ Hwf Hroutes) as (fin & st & rr' & -> & _).
    reflexivity.
Qed.

(** After [add] with levels and a name, the name is known and
    [handlersFor] gives one entry for each level, in order: the handler of
    the level with the parameter names of its template. *)
Theorem add_registers_the_chain
  (calls : list (list Route.t * option (list ascii)))
  (routes : list Route.t) (name : list ascii) :
  routes ≠ [] -> name ≠ [] ->
  let rr := snd (add routes (Some name) (run_adds calls RouteRecognizer_new)) in
  hasRoute name rr = (Ok true, rr) /\
  handlersFor name rr =
    (Ok (map (fun route =>
                Handler.mk (Route.handler route) (template_names (Route.path route)) None)
           routes), rr).
Proof.
  intros Hroutes Hname rr.
  assert (Hwf : trie_wf (run_adds calls RouteRecognizer_new))
    by apply run_adds_wf, trie_wf_new.
  destruct (add_ok routes (Some name) _ Hwf Hroutes)
    as (fin & st & rr' & Hadd & _ & _ & _ & Hnames & _).
  assert (Hrr : rr = rr') by (unfold rr; by rewrite Hadd). rewrite Hrr.
  assert (Hgiven : given (Some name) = true) by (simpl; by rewrite bool_decide_false).
  rewrite Hgiven in Hnames. simpl in Hnames.
  unfold hasRoute, handlersFor, bind, this_names. rewrite Hnames.
  erewrite names_get_own by apply lookup_insert_eq. split.
  - reflexivity.
  - cbn [Named.handlers]. rewrite foldM_push. reflexivity.
Qed.

Lemma add_registers_the_chain_witness :
  let rr := snd (add [Examples.level "/posts" "posts"; Examples.level "/:id" "post"]
                   (Some (str "post")) (run_adds [] RouteRecognizer_new)) in
  hasRoute (str "post") rr = (Ok true, rr) /\
  handlersFor (str "post") rr =
    (Ok [Handler.mk (str "posts") [] None; Handler.mk (str "post") [str "id"] None], rr).
Proof.
  apply (add_registers_the_chain []
           [Examples.level "/posts" "posts"; Examples.level "/:id" "post"] (str "post"));
    discriminate.
Defined.

Lemma State_put_names this frag rr : names (snd (State_put this frag rr)) = names rr.
Proof.
  destruct (State_put_cases rr this frag)
    as [[e ->] | [(child & st & -> & _) | (st & _ & _ & ->)]]; reflexivity.
Qed.

Section Names.
Context (N : gmap (list ascii) Named.t).
Let P (rr : RouteRecognizer) : Prop := names rr = N.

Lemma State_put_keeps_names this frag : preserves P (State_put this frag).
Proof. intros rr H. unfold P. by rewrite State_put_names. Qed.

Lemma modify_keeps_names s (f : State.t -> State.t) : preserves P (modify s f).
Proof. intros rr H. exact H. Qed.

Lemma add_route_keeps_names v route : preserves P (add_route v route).
Proof.
  unfold add_route. destruct (parse _ _ _) as [[segments nms] tys].
  apply preserves_bind; [| intros r; apply preserves_readonly, readonly_ret].
  apply preserves_foldM. intros [cur re] seg. unfold add_segment.
  apply preserves_bind; [apply State_put_keeps_names |].
  intros c. apply preserves_readonly, readonly_ret.
Qed.

Lemma add_names routes options rr rr' :
  P rr -> snd (add routes options rr) = rr' ->
  names rr' = N \/
  (given options = true /\ exists r, names rr' = <[default [] options := r]> N).
Proof.
  intros HP Hadd. revert Hadd. unfold add. unfold bind at 1. unfold this_rootState at 1.
  unfold bind at 1.
  match goal with |- context [foldM add_route ?v0 routes rr] =>
    pose proof (preserves_foldM P add_route routes add_route_keeps_names v0 rr HP) as H1;
    destruct (foldM add_route v0 routes rr) as [[v|e] rr1]; simpl in H1; [| by intros <-; left]
  end.
  unfold bind at 1.
  match goal with |- context [(if isEmpty v then ?a else ?b) rr1] =>
    assert (H2 : preserves P (if isEmpty v then a else b));
    [| specialize (H2 rr1 H1);
       destruct ((if isEmpty v then a else b) rr1) as [[v'|e] rr2]; simpl in H2; [| by intros <-; left]]
  end.
  { destruct (isEmpty v); [| apply preserves_readonly, readonly_ret].
    apply preserves_bind; [apply State_put_keeps_names | intros c].
    destruct (last _); apply preserves_readonly; auto with readonly. }
  unfold bind at 1. unfold modify at 1. unfold bind at 1. unfold new_RegExp.
  destruct (compile _) as [re|]; [| by intros <-; left].
  unfold ret at 1. unfold bind, modify. cbn [fst snd].
  destruct (given options); [| by intros <-; left].
  intros <-. right. split; [done |]. eexists. simpl. unfold P in H2. rewrite <- H2.
  reflexivity.
Qed.
End Names.

(** [add] touches the registry only under the name it is given: what the
    registry answers for every other name, a route, something it inherits
    or nothing, is what it answered before, and without a name (or with the
    empty one) that holds for every name; also when [add] throws. The name
    [__proto__] is left out: registering under it replaces the prototype of
    the registry, through which [segments] and [handlers] are then found. *)
Theorem add_keeps_the_other_names (rr : RouteRecognizer)
  (routes : list Route.t) (options : option (list ascii)) (n : list ascii) :
  options ≠ Some proto_key ->
  given options = false \/ options ≠ Some n ->
  names_get (names (snd (add routes options rr))) n = names_get (names rr) n.
Proof.
  intros Hproto Hn.
  destruct (add_names (names rr) routes options rr _ eq_refl eq_refl)
    as [-> | (Hgiven & r & ->)]; [done |].
  destruct Hn as [Hn | Hn]; [congruence |].
  destruct options as [name|]; [| done].
  change (default [] (Some name)) with name.
  unfold names_get.
  rewrite lookup_insert_ne by congruence.
  rewrite (lookup_insert_ne _ name proto_key) by congruence. done.
Qed.

Lemma add_keeps_the_other_names_witness :
  names_get (names (snd (add [Examples.level "/about" "about"] (Some (str "about"))
                           Examples.post_table))) (str "post") =
  names_get (names Examples.post_table) (str "post").
Proof.
  apply (add_keeps_the_other_names Examples.post_table
           [Examples.level "/about" "about"] (Some (str "about")) (str "post")).
  - discriminate.
  - right. discriminate.
Defined.

(** ** The path [recognize] works on *)

Lemma recognize_normalize p p' rr :
  normalize p = normalize p' -> recognize p rr = recognize p' rr.
Proof. intros H. unfold recognize. by rewrite H. Qed.

Lemma normalize_rooted p :
  starts_with "/" p = true ->
  normalize p =
    if bool_decide (1 < length p) && bool_decide (last p = Some "/"%char)
    then take (length p - 1) p else p.
Proof.
  intros Hp. unfold normalize. rewrite Hp. simpl negb. cbv iota.
  unfold char_at_is. rewrite last_lookup.
  replace (pred (length p)) with (length p - 1) by lia.
  destruct (p !! (length p - 1)) as [x|]; [| done].
  destruct (decide (x = "/"%char)) as [-> | Hx]; [done |].
  rewrite (bool_decide_false (x = _)), (bool_decide_false (Some x = _)) by congruence.
  reflexivity.
Qed.

Lemma normalize_trailing p :
  starts_with "/" p = true -> normalize (p ++ str "/") = p.
Proof.
  intros Hp. rewrite normalize_rooted by (by destruct p).
  change (str "/") with ["/"%char]. rewrite last_snoc, length_app. simpl length.
  rewrite bool_decide_true by (destruct p; [done | simpl; lia]).
  rewrite bool_decide_true by done. simpl.
  replace (length p + 1 - 1) with (length p) by lia. by rewrite take_app_length.
Qed.

(** For a path that starts with the separator, one more separator at the
    end changes nothing: [recognize] answers for [p/] what it answers for
    [p], [p] being [/] or not ending with the separator. *)
Theorem one_trailing_separator_is_ignored (rr : RouteRecognizer) (p : list ascii) :
  starts_with "/" p = true ->
  p = str "/" \/ last p ≠ Some "/"%char ->
  recognize (p ++ str "/") rr = recognize p rr.
Proof.
  intros Hp Hlast. apply recognize_normalize.
  rewrite normalize_trailing by done. rewrite normalize_rooted by done.
  destruct Hlast as [-> | Hlast]; [done |].
  rewrite (bool_decide_false (last p = _)) by done. by rewrite andb_false_r.
Qed.

Lemma one_trailing_separator_is_ignored_witness :
  recognize (str "/posts/5/") Examples.post_table =
  recognize (str "/posts/5") Examples.post_table.
Proof.
  apply (one_trailing_separator_is_ignored Examples.post_table (str "/posts/5")).
  - reflexivity.
  - right. discriminate.
Defined.

Lemma normalize_unrooted q c :
  q ≠ [] -> starts_with "/" q = false ->
  normalize (q ++ ["/"%char; c]) = str "/" ++ q.
Proof.
  intros Hq Hs. unfold normalize.
  assert (Hs' : starts_with "/" (q ++ ["/"%char; c]) = false) by (by destruct q).
  rewrite Hs'. simpl negb. cbv iota. rewrite length_app. simpl length.
  rewrite bool_decide_true by lia.
  unfold char_at_is.
  replace (length q + 2 - 1) with (S (length q)) by lia.
  change (str "/" ++ q ++ ["/"%char; c]) with ("/"%char :: q ++ ["/"%char; c]).
  rewrite lookup_cons. rewrite lookup_app_r by lia. rewrite Nat.sub_diag. simpl.
  by rewrite take_app_length.
Qed.

(** For a path without the leading separator [recognize] looks for the
    trailing one a character too early: when the last character but one is
    the separator, the path is cut there, so that [q/c] is answered as
    [/q] is. *)
Theorem path_without_leading_separator_is_cut (rr : RouteRecognizer)
  (q : list ascii) (c : ascii) :
  q ≠ [] -> starts_with "/" q = false -> last q ≠ Some "/"%char ->
  recognize (q ++ ["/"%char; c]) rr = recognize ("/"%char :: q) rr.
Proof.
  intros Hq Hs Hlast. apply recognize_normalize.
  rewrite normalize_unrooted by done.
  rewrite normalize_rooted by done.
  change (last ("/"%char :: q)) with (last (["/"%char] ++ q)).
  rewrite last_app. destruct (last q) as [x|] eqn:E.
  - rewrite (bool_decide_false (Some x = _)) by congruence. by rewrite andb_false_r.
  - apply last_None in E. done.
Qed.

Lemma path_without_leading_separator_is_cut_witness :
  recognize (str "posts/5") Examples.list_table =
  recognize (str "/posts") Examples.list_table.
Proof.
  apply (path_without_leading_separator_is_cut Examples.list_table (str "posts") "5");
    [discriminate | reflexivity | discriminate].
Defined.

(** ** What the query codec gives back *)

Lemma serialize_pair_written k v :
  plain_written (k, v) ->
  serialize_pair (k, v) = if truthy v then k ++ "="%char :: to_string v else k.
Proof.
  intros [Hk Hv]. simpl in *. destruct (truthy v).
  - by rewrite !escape_query_plain by auto.
  - by rewrite escape_query_plain.
Qed.

Lemma deserialize_step_flag (query : gmap (list ascii) value) k :
  plain k ->
  (let pair := split "=" k in
   assign (unescape_query (default [] (pair !! 0)))
     match pair !! 1 with
     | Some v => VStr (unescape_query v)
     | None => VBool true
     end query) = assign k (VBool true) query.
Proof.
  intros Hk. simpl. rewrite split_absent by apply Hk. simpl.
  by rewrite unescape_query_plain.
Qed.

Lemma read_back_fold (l : list (list ascii * value)) :
  Forall plain_written l ->
  forall m : gmap (list ascii) value,
    foldl (fun query p =>
             let pair := split "=" p in
             assign (unescape_query (default [] (pair !! 0)))
               match pair !! 1 with
               | Some v => VStr (unescape_query v)
               | None => VBool true
               end query)
      m (map serialize_pair l) =
    foldl (fun q kv => assign (fst kv) (snd kv) q) m
      (map (fun kv => (fst kv, read_back (snd kv))) l).
Proof.
  induction 1 as [|[k v] l Hkv Hall IH]; intros m; [done |].
  cbn [map foldl fst snd]. rewrite serialize_pair_written by done.
  destruct Hkv as [Hk Hv]. simpl in Hk, Hv. unfold read_back.
  destruct (truthy v).
  - rewrite deserialize_step_plain by auto. apply IH.
  - rewrite deserialize_step_flag by done. apply IH.
Qed.

(** For a query object that is not empty, with plain keys and plain texts
    of the values written, decoding the encoding gives each key what its
    value is read back as: a string for a string that is not empty, the
    string ["true"] for [true], and [true] for [false], the empty string
    and [undefined], which are written as flags. A key [__proto__] is
    written and does not come back: the decoder assigns to it a string or
    [true], which the setter ignores. *)
Theorem query_codec_image (query : list (list ascii * value)) :
  query ≠ [] ->
  NoDup (map fst query) ->
  Forall plain_written query ->
  deserializeQueryString (serializeQuery query) =
  list_to_map (map (fun kv => (fst kv, read_back (snd kv)))
                 (filter (fun kv => fst kv ≠ proto_key) query)).
Proof.
  intros Hne Hnd Hall.
  change (serializeQuery query) with (join [";"%char] (map serialize_pair query)).
  unfold deserializeQueryString. rewrite split_join.
  - rewrite read_back_fold by done. rewrite foldl_assign.
    assert (Hfilter :
      filter (fun kv : list ascii * value => fst kv ≠ proto_key)
        (map (fun kv => (fst kv, read_back (snd kv))) query) =
      map (fun kv => (fst kv, read_back (snd kv)))
        (filter (fun kv => fst kv ≠ proto_key) query)).
    { clear. induction query as [|[k v] query IH]; [done |].
      cbn [map]. rewrite !filter_cons. cbn [fst snd].
      destruct (decide (k ≠ proto_key)); [cbn [map fst snd]; by rewrite IH | done]. }
    rewrite Hfilter.
    rewrite foldl_insert_list_to_map; [by rewrite (right_id_L ∅ (∪)) |].
    rewrite map_map. cbn [fst]. by apply filter_keys_NoDup.
  - by destruct query.
  - apply Forall_map. eapply Forall_impl; [exact Hall |].
    intros [k v] Hkv. rewrite serialize_pair_written by done.
    destruct Hkv as [Hk Hv]. simpl in Hk, Hv. destruct (truthy v).
    + apply plain_pair_no_semicolon; auto.
    + apply Hk.
Qed.

Lemma query_codec_image_witness :
  deserializeQueryString
    (serializeQuery [(str "sort", VStr (str "asc")); (str "archived", VBool true);
                     (proto_key, VStr (str "x")); (str "draft", VBool false)]) =
  {[ str "sort" := VStr (str "asc"); str "archived" := VStr (str "true");
     str "draft" := VBool true ]}.
Proof.
  apply (query_codec_image
           [(str "sort", VStr (str "asc")); (str "archived", VBool true);
            (proto_key, VStr (str "x")); (str "draft", VBool false)]).
  - discriminate.
  - apply (bool_decide_unpack _). vm_compute. exact I.
  - repeat constructor; simpl; try discriminate;
      intros; apply (bool_decide_unpack _); vm_compute; exact I.
Defined.

(** ** [put] and [get] *)

Lemma State_put_get this frag rr :
  State_put this frag rr =
  let key := str "^" ++ frag ++ str "$" in
  match State_get this key rr with
  | (Ok (Some child), rr') => (Ok child, rr')
  | (Ok None, rr') =>
      (Ok (length (states rr')),
       Build_RouteRecognizer
         (alter (push_child (length (states rr'))) this
            (states rr' ++ [State.new (Some key)]))
         (rootState rr') (names rr'))
  | (Throw e, rr') => (Throw e, rr')
  end.
Proof.
  unfold State_put, bind. cbv zeta.
  destruct (State_get this _ rr) as [[[c|]|e] rr']; reflexivity.
Qed.

Lemma get_loop_skip cs cs' key rr :
  (forall c, c ∈ cs ->
     exists st, states rr !! c = Some st /\ State.segmentRegex st ≠ Some key) ->
  get_loop (cs ++ cs') key rr = get_loop cs' key rr.
Proof.
  induction cs as [|c cs IH]; intros H; [done |].
  destruct (H c) as (st & Hst & Hkey); [by left |].
  simpl. unfold bind at 1. unfold deref. rewrite Hst.
  rewrite bool_decide_false by done. apply IH. intros c' Hc'. apply H. by right.
Qed.

(** In a recognizer built by any sequence of [add] calls, [put] on a state
    returns a child that [get] then finds under the anchored key, a second
    [put] of the same fragment returns the same child and changes nothing,
    and a [put] makes at most one state. *)
Theorem put_then_get_finds_the_child
  (calls : list (list Route.t * option (list ascii)))
  (this : nat) (frag : list ascii) :
  let rr := run_adds calls RouteRecognizer_new in
  this < length (states rr) ->
  exists child rr',
    State_put this frag rr = (Ok child, rr') /\
    State_get this (str "^" ++ frag ++ str "$") rr' = (Ok (Some child), rr') /\
    State_put this frag rr' = (Ok child, rr') /\
    length (states rr') <= S (length (states rr)).
Proof.
  intros rr Hthis.
  assert (Hinv : trie_inv rr) by apply run_adds_inv, trie_inv_new.
  destruct Hinv as [Hvalid Hdistinct].
  destruct (lookup_lt_is_Some_2 _ _ Hthis) as [st Hst].
  set (key := str "^" ++ frag ++ str "$").
  destruct (get_loop_ok rr (State.nextStates st) key) as [o Ho].
  { intros c Hc. apply lookup_lt_is_Some_2. by eapply Hvalid. }
  assert (Hget : State_get this key rr = (Ok o, rr)).
  { unfold State_get, bind, deref. by rewrite Hst. }
  destruct o as [child|].
  - exists child, rr. rewrite State_put_get. fold key. cbv zeta. rewrite Hget.
    split; [done |]. split; [done |]. split; [done | lia].
  - set (L := length (states rr)).
    set (σ1 := alter (push_child L) this (states rr ++ [State.new (Some key)])).
    set (rr1 := Build_RouteRecognizer σ1 (rootState rr) (names rr)).
    assert (Hput : State_put this frag rr = (Ok L, rr1)).
    { rewrite State_put_get. fold key. cbv zeta. by rewrite Hget. }
    assert (HL : states rr1 !! L = Some (State.new (Some key))).
    { cbn [states rr1]. unfold σ1. rewrite list_lookup_alter_ne by (unfold L; lia).
      by apply list_lookup_middle. }
    assert (Hthis1 : states rr1 !! this = Some (push_child L st)).
    { cbn [states rr1]. unfold σ1.
      by rewrite list_lookup_alter_eq, lookup_app_l, Hst by done. }
    assert (Hget1 : State_get this key rr1 = (Ok (Some L), rr1)).
    { unfold State_get, bind, deref. rewrite Hthis1.
      cbn [push_child State.nextStates].
      rewrite get_loop_skip.
      - cbn [get_loop]. unfold bind, deref. rewrite HL.
        cbn [State.new State.segmentRegex]. by rewrite bool_decide_true.
      - intros c Hc. assert (Hlt : c < L) by (by eapply Hvalid).
        destruct (lookup_lt_is_Some_2 _ _ Hlt) as [stc Hstc].
        pose proof (get_loop_None rr (State.nextStates st) key) as Hnone.
        rewrite Ho in Hnone. specialize (Hnone eq_refl c Hc).
        rewrite Hstc in Hnone. simpl in Hnone.
        destruct (decide (this = c)) as [<- | Hne].
        + rewrite Hthis1. eexists. split; [reflexivity |]. simpl.
          rewrite Hst in Hstc. injection Hstc as <-. congruence.
        + cbn [states rr1]. unfold σ1.
          rewrite list_lookup_alter_ne, lookup_app_l by done.
          exists stc. split; [done | congruence]. }
    exists L, rr1. split; [done |]. split; [done |]. split.
    + rewrite State_put_get. fold key. cbv zeta. by rewrite Hget1.
    + cbn [states rr1]. unfold σ1. rewrite length_alter, length_app. simpl. lia.
Qed.

Lemma put_then_get_finds_the_child_witness :
  exists child rr',
    State_put 0 (str "posts") (run_adds [] RouteRecognizer_new) = (Ok child, rr') /\
    State_get 0 (str "^posts$") rr' = (Ok (Some child), rr') /\
    State_put 0 (str "posts") rr' = (Ok child, rr') /\
    length (states rr') <= 2.
Proof.
  apply (put_then_get_finds_the_child [] 0 (str "posts")). simpl. lia.
Defined.

(** ** The grammar of templates *)

Lemma search_anchored p rs s : forall i,
  prog p = RBol :: rs -> search p (S i) s = None.
Proof.
  induction s as [|x s IH]; intros i Hp.
  - simpl. unfold match_at. by rewrite Hp.
  - rewrite search_unfold. unfold match_at at 1. rewrite Hp. simpl. by apply IH.
Qed.

(** An anchored expression that asks for the character [c] and captures
    what follows, one or more characters other than the separator. *)
Lemma exec_marker src c piece :
  "/"%char ∉ piece ->
  exec (Build_regexp src [RBol; RChar c; capture_atom 1 ["/"%char]; REol] 1) piece =
  match piece with
  | x :: name =>
      if bool_decide (x = c) && negb (bool_decide (name = []))
      then Some [Some piece; Some name] else None
  | [] => None
  end.
Proof.
  intros Hpiece. unfold exec. rewrite search_unfold.
  destruct piece as [|x name]; [reflexivity |].
  apply not_elem_of_cons in Hpiece as [_ Hname].
  unfold match_at. cbn [prog groups]. rewrite mseq_cons. cbn [m pos].
  rewrite bool_decide_true by done. rewrite mseq_cons. cbn [m rest].
  case_bool_decide as Hx; cbn [andb].
  2: { by erewrite search_anchored. }
  subst x. unfold advance. cbn [pos caps rest].
  case_bool_decide as Hn; cbn [negb].
  - subst name. cbn. reflexivity.
  - rewrite mseq_cons. rewrite <- (app_nil_r name) at 1.
    erewrite m_capture; [reflexivity | done | | done |].
    + apply Forall_forall. intros a Ha Hin. apply list_elem_of_singleton in Hin as ->.
      done.
    + rewrite mseq_cons. cbn. rewrite firstn_all. reflexivity.
Qed.

Lemma exec_dynamicRe piece :
  "/"%char ∉ piece ->
  exec dynamicRe piece =
  match piece with
  | x :: name =>
      if bool_decide (x = ":"%char) && negb (bool_decide (name = []))
      then Some [Some piece; Some name] else None
  | [] => None
  end.
Proof. apply exec_marker. Qed.

Lemma exec_starRe piece :
  "/"%char ∉ piece ->
  exec starRe piece =
  match piece with
  | x :: name =>
      if bool_decide (x = "*"%char) && negb (bool_decide (name = []))
      then Some [Some piece; Some name] else None
  | [] => None
  end.
Proof. apply exec_marker. Qed.

Lemma parse_segment_kind results names types piece :
  "/"%char ∉ piece ->
  parse_segment (results, names, types) piece =
  match piece_kind piece with
  | None => (results, names, types)
  | Some k =>
      (results ++ [Build_Segment k None],
       names ++ seg_names [Build_Segment k None],
       count_types types [Build_Segment k None])
  end.
Proof.
  intros Hpiece. unfold parse_segment, piece_kind.
  rewrite exec_dynamicRe, exec_starRe by done.
  destruct piece as [|x name]; [reflexivity |].
  destruct (bool_decide (x = ":"%char) && negb (bool_decide (name = []))).
  { unfold count_types, group_text. simpl. f_equal. f_equal; lia. }
  destruct (bool_decide (x = "*"%char) && negb (bool_decide (name = []))).
  { unfold count_types, group_text. simpl. f_equal. f_equal; lia. }
  rewrite bool_decide_false by done.
  unfold count_types. simpl. rewrite app_nil_r. f_equal. f_equal; lia.
Qed.

Lemma seg_names_app a b : seg_names (a ++ b) = seg_names a ++ seg_names b.
Proof. unfold seg_names. apply flat_map_app. Qed.

Lemma count_types_app types a b :
  count_types (count_types types a) b = count_types types (a ++ b).
Proof.
  unfold count_types. simpl. rewrite !filter_app, !length_app. f_equal; lia.
Qed.

Lemma count_types_nil types : count_types types [] = types.
Proof. destruct types. unfold count_types. simpl. f_equal; lia. Qed.

Lemma parse_fold_kinds pieces : forall results names types,
  Forall (fun p => "/"%char ∉ p) pieces ->
  foldl parse_segment (results, names, types) pieces =
  let segs := map (fun k => Build_Segment k None) (omap piece_kind pieces) in
  (results ++ segs, names ++ seg_names segs, count_types types segs).
Proof.
  induction pieces as [|piece pieces IH]; intros results names types Hall.
  - simpl. by rewrite !app_nil_r, count_types_nil.
  - apply Forall_cons in Hall as [Hpiece Hall]. cbn [foldl].
    rewrite parse_segment_kind by done.
    change (omap piece_kind (piece :: pieces))
      with (match piece_kind piece with
            | Some y => y :: omap piece_kind pieces
            | None => omap piece_kind pieces
            end).
    destruct (piece_kind piece) as [k|].
    + rewrite IH by done. cbv zeta. cbn [map].
      rewrite count_types_app, <- !app_assoc, <- seg_names_app. reflexivity.
    + by apply IH.
Qed.

(** [parse] reads a template piece by piece, the pieces being what stands
    between the separators once one leading separator is dropped: each
    piece gives the segment it stands for, empty pieces give none; the
    names of the dynamic and star segments are added to [names] in order,
    and each counter grows by the number of segments of its kind. *)
Theorem parse_follows_the_grammar (tpl : list ascii) (names : list (list ascii))
  (types : Types) :
  let pieces := split "/" (if starts_with "/" tpl then drop 1 tpl else tpl) in
  let segs := map (fun k => Build_Segment k None) (omap piece_kind pieces) in
  parse tpl names types = (segs, names ++ seg_names segs, count_types types segs).
Proof.
  unfold parse. cbv zeta. rewrite parse_fold_kinds by apply split_pieces.
  reflexivity.
Qed.

(** ** What the matcher finds *)

Section Sem.
Context {R : Type}.
Implicit Types (k : mstate -> option R).

Lemma repeat_sem (body : mstate -> (mstate -> option R) -> option R)
  (bsem : mstate -> mstate -> Prop) :
  (forall s k, is_Some (body s k) <-> exists s', bsem s s' /\ is_Some (k s')) ->
  forall fuel a k,
    is_Some (repeat_match body fuel a k) <->
    exists b, iter_sem bsem fuel a b /\ is_Some (k b).
Proof.
  intros Hbody. induction fuel as [|fuel IH]; intros a k.
  - simpl. split; [eauto | by intros (b & -> & ?)].
  - rewrite repeat_match_S. cbn [iter_sem]. split.
    + destruct (body a _) as [x|] eqn:E.
      * intros _. assert (Hs : is_Some (body a (fun st' =>
                    if consumed a st' then repeat_match body fuel st' k else None)))
          by (rewrite E; eauto).
        apply Hbody in Hs as (mid & Hmid & Hk).
        destruct (consumed a mid) eqn:Hc; [| by destruct Hk].
        apply IH in Hk as (b & Hb & Hk). exists b. split; [| done]. left. eauto.
      * intros Hk. exists a. split; [by right | done].
    + intros (b & [(mid & Hmid & Hc & Hiter) | ->] & Hk).
      * assert (Hs : is_Some (body a (fun st' =>
                    if consumed a st' then repeat_match body fuel st' k else None))).
        { apply Hbody. exists mid. split; [done |]. rewrite Hc. apply IH. eauto. }
        destruct Hs as [x ->]. eauto.
      * destruct (body a _); [eauto | done].
Qed.

Lemma mseq_sem_Forall rs :
  Forall (fun r => forall a k,
            is_Some (m (R := R) r a k) <-> exists b, sem r a b /\ is_Some (k b)) rs ->
  forall a k, is_Some (mseq rs a k) <-> exists b, semseq rs a b /\ is_Some (k b).
Proof.
  induction 1 as [|r rs Hr _ IH]; intros a k.
  - simpl. split; [eauto | by intros (b & -> & ?)].
  - cbn [mseq semseq]. rewrite Hr. split.
    + intros (mid & Hmid & Hk). apply IH in Hk as (b & Hb & Hk). eauto.
    + intros (b & (mid & Hmid & Hb) & Hk). exists mid. split; [done |].
      apply IH. eauto.
Qed.

Lemma m_sem : forall r a k,
  is_Some (m (R := R) r a k) <-> exists b, sem r a b /\ is_Some (k b).
Proof.
  fix IH 1. intros r.
  destruct r as [c| |neg cs| | |i body|body|r|r|r]; intros a k.
  - simpl. destruct (rest a) as [|x xs]; [split; [by intros [] | by intros (? & [] & _)] |].
    case_bool_decide as Hx.
    + split; [eauto | by intros (b & [_ ->] & ?)].
    + split; [by intros [] | by intros (b & [? _] & _)].
  - simpl. destruct (rest a) as [|x xs]; [split; [by intros [] | by intros (? & [] & _)] |].
    destruct (line_terminator x).
    + split; [by intros [] | by intros (b & [? _] & _)].
    + split; [eauto | by intros (b & [_ ->] & ?)].
  - simpl. destruct (rest a) as [|x xs]; [split; [by intros [] | by intros (? & [] & _)] |].
    destruct (xorb neg _).
    + split; [eauto | by intros (b & [_ ->] & ?)].
    + split; [by intros [] | by intros (b & [? _] & _)].
  - simpl. case_bool_decide as Hp.
    + split; [eauto | by intros (b & [_ ->] & ?)].
    + split; [by intros [] | by intros (b & [? _] & _)].
  - simpl. destruct (rest a) as [|x xs].
    + split; [eauto | by intros (b & [_ ->] & ?)].
    + split; [by intros [] | by intros (b & [? _] & _)].
  - change (is_Some (mseq body a (fun st' => k (set_cap i a st'))) <->
            exists b, (exists inner, semseq body a inner /\ b = set_cap i a inner) /\
                      is_Some (k b)).
    assert (Hb : Forall (fun r => forall a k,
              is_Some (m (R := R) r a k) <-> exists b, sem r a b /\ is_Some (k b)) body).
    { induction body as [|r' body IHb]; constructor; [apply IH | apply IHb]. }
    rewrite (mseq_sem_Forall body Hb). split.
    + intros (inner & Hinner & Hk). eauto.
    + intros (b & (inner & Hinner & ->) & Hk). eauto.
  - change (is_Some (mseq body a k) <-> exists b, semseq body a b /\ is_Some (k b)).
    assert (Hb : Forall (fun r => forall a k,
              is_Some (m (R := R) r a k) <-> exists b, sem r a b /\ is_Some (k b)) body).
    { induction body as [|r' body IHb]; constructor; [apply IH | apply IHb]. }
    apply (mseq_sem_Forall body Hb).
  - cbn [m sem]. rewrite IH. split.
    + intros (first & Hfirst & Hk).
      apply (repeat_sem _ (fun s s' => sem r (clear_caps (group_ids r) s) s')) in Hk
        as (b & Hb & Hk); [eauto |].
      intros s k'. apply IH.
    + intros (b & (first & Hfirst & Hiter) & Hk). exists first. split; [done |].
      apply (repeat_sem _ (fun s s' => sem r (clear_caps (group_ids r) s) s'));
        [intros s k'; apply IH | eauto].
  - cbn [m sem].
    apply (repeat_sem _ (fun s s' => sem r (clear_caps (group_ids r) s) s')).
    intros s k'. apply IH.
  - cbn [m sem]. split.
    + destruct (m r _ _) as [x|] eqn:E.
      * intros _.
        assert (Hs : is_Some (m r (clear_caps (group_ids r) a)
                                (fun st' => if consumed a st' then k st' else None)))
          by (rewrite E; eauto).
        apply IH in Hs as (b & Hb & Hk).
        destruct (consumed a b) eqn:Hc; [| by destruct Hk]. eauto.
      * intros Hk. eauto.
    + intros (b & [[Hb Hc] | ->] & Hk).
      * assert (Hs : is_Some (m r (clear_caps (group_ids r) a)
                                (fun st' => if consumed a st' then k st' else None))).
        { apply IH. exists b. by rewrite Hc. }
        destruct Hs as [x ->]. eauto.
      * destruct (m r _ _); [eauto | done].
Qed.

Lemma mseq_sem rs a k :
  is_Some (mseq (R := R) rs a k) <-> exists b, semseq rs a b /\ is_Some (k b).
Proof. apply mseq_sem_Forall, Forall_forall. intros r _. apply m_sem. Qed.

End Sem.

(** *** Atoms that take one character *)

Section CharAtom.
Context (r : re) (ok : ascii -> Prop).
Hypothesis Hr : forall a b,
  sem r (clear_caps (group_ids r) a) b <->
  exists x xs, rest a = x :: xs /\ ok x /\ b = MState (S (pos a)) xs (caps a).

Let body := fun s s' => sem r (clear_caps (group_ids r) s) s'.

Lemma iter_chars_intro v : forall fuel p r' c,
  length v <= fuel -> Forall ok v ->
  iter_sem body fuel (MState p (v ++ r') c) (MState (length v + p) r' c).
Proof.
  induction v as [|x v IH]; intros fuel p r' c Hfuel Hv.
  - destruct fuel; simpl; [done | by right].
  - apply Forall_cons in Hv as [Hx Hv].
    destruct fuel as [|fuel]; [simpl in Hfuel; lia |].
    cbn [iter_sem]. left. exists (MState (S p) (v ++ r') c).
    split; [| split].
    + apply Hr. exists x, (v ++ r'). done.
    + unfold consumed. simpl. rewrite bool_decide_true; [done | lia].
    + replace (length (x :: v) + p) with (length v + S p) by (simpl; lia).
      apply IH; [simpl in Hfuel; lia | done].
Qed.

Lemma iter_chars_elim fuel : forall a b,
  iter_sem body fuel a b ->
  exists v, Forall ok v /\ rest a = v ++ rest b /\ pos b = length v + pos a.
Proof.
  induction fuel as [|fuel IH]; intros a b H.
  - simpl in H. subst b. by exists [].
  - cbn [iter_sem] in H. destruct H as [(mid & Hmid & _ & Hiter) | ->]; [| by exists []].
    apply Hr in Hmid as (x & xs & Ha & Hx & ->).
    apply IH in Hiter as (v & Hv & Hrest & Hpos). simpl in Hrest, Hpos.
    exists (x :: v). split; [by constructor |]. split.
    + rewrite Ha, Hrest. done.
    + rewrite Hpos. simpl. lia.
Qed.

Lemma plus_chars_intro v p r' c :
  v ≠ [] -> Forall ok v ->
  sem (RPlus r) (MState p (v ++ r') c) (MState (length v + p) r' c).
Proof.
  intros Hne Hv. destruct v as [|x v]; [done |].
  apply Forall_cons in Hv as [Hx Hv].
  cbn [sem]. exists (MState (S p) (v ++ r') c). split.
  - apply Hr. exists x, (v ++ r'). done.
  - replace (length (x :: v) + p) with (length v + S p) by (simpl; lia).
    apply iter_chars_intro; [| done]. simpl. rewrite length_app. lia.
Qed.

Lemma plus_chars_elim a b :
  sem (RPlus r) a b ->
  exists v, v ≠ [] /\ Forall ok v /\ rest a = v ++ rest b /\ pos b = length v + pos a.
Proof.
  cbn [sem]. intros (first & Hfirst & Hiter).
  apply Hr in Hfirst as (x & xs & Ha & Hx & ->).
  apply iter_chars_elim in Hiter as (v & Hv & Hrest & Hpos). simpl in Hrest, Hpos.
  exists (x :: v). split; [done |]. split; [by constructor |]. split.
  - by rewrite Ha, Hrest.
  - rewrite Hpos. simpl. lia.
Qed.

Lemma star_chars_intro v p r' c :
  Forall ok v ->
  sem (RStar r) (MState p (v ++ r') c) (MState (length v + p) r' c).
Proof.
  intros Hv. cbn [sem]. apply iter_chars_intro; [| done].
  simpl. rewrite length_app. lia.
Qed.

Lemma star_chars_elim a b :
  sem (RStar r) a b ->
  exists v, Forall ok v /\ rest a = v ++ rest b /\ pos b = length v + pos a.
Proof. cbn [sem]. apply iter_chars_elim. Qed.

End CharAtom.

Lemma sem_class neg cs a b :
  sem (RSet neg cs) (clear_caps (group_ids (RSet neg cs)) a) b <->
  exists x xs, rest a = x :: xs /\ xorb neg (bool_decide (x ∈ cs)) = true /\
               b = MState (S (pos a)) xs (caps a).
Proof.
  simpl. destruct (rest a) as [|x xs].
  - split; [done | by intros (? & ? & ? & _)].
  - split.
    + intros [Hx ->]. exists x, xs. done.
    + intros (x' & xs' & [= <- <-] & Hx & ->). done.
Qed.

Lemma sem_any a b :
  sem RAny (clear_caps (group_ids RAny) a) b <->
  exists x xs, rest a = x :: xs /\ line_terminator x = false /\
               b = MState (S (pos a)) xs (caps a).
Proof.
  simpl. destruct (rest a) as [|x xs].
  - split; [done | by intros (? & ? & ? & _)].
  - split.
    + intros [Hx ->]. exists x, xs. done.
    + intros (x' & xs' & [= <- <-] & Hx & ->). done.
Qed.

Lemma outside_class (cs v : list ascii) :
  Forall (fun x => xorb true (bool_decide (x ∈ cs)) = true) v <->
  forall c, c ∈ cs -> c ∉ v.
Proof.
  rewrite Forall_forall. split.
  - intros H c Hc Hv. specialize (H c Hv).
    rewrite bool_decide_true in H by done. discriminate H.
  - intros H x Hx. destruct (decide (x ∈ cs)) as [Hin | Hin].
    + by destruct (H x Hin).
    + by rewrite bool_decide_false.
Qed.

(** *** Static texts *)

Lemma lit_clean t : "^"%char ∉ t -> "$"%char ∉ t -> map lit t = map RChar t.
Proof.
  induction t as [|x t IH]; intros Hb He; [done |].
  apply not_elem_of_cons in Hb as [? ?]. apply not_elem_of_cons in He as [? ?].
  simpl. unfold lit at 1. rewrite !bool_decide_false by done. by rewrite IH.
Qed.

Lemma semseq_app x y a b :
  semseq (x ++ y) a b <-> exists mid, semseq x a mid /\ semseq y mid b.
Proof.
  revert a. induction x as [|r x IH]; intros a; simpl.
  - split; [eauto | by intros (mid & -> & ?)].
  - split.
    + intros (m1 & H1 & H2). apply IH in H2 as (mid & ? & ?). eauto.
    + intros (mid & (m1 & H1 & H2) & H3). exists m1. split; [done |]. apply IH. eauto.
Qed.

Lemma chars_intro t : forall p r' c,
  semseq (map RChar t) (MState p (t ++ r') c) (MState (length t + p) r' c).
Proof.
  induction t as [|x t IH]; intros p r' c; [done |].
  simpl. exists (MState (S p) (t ++ r') c). split; [done |].
  replace (S (length t + p)) with (length t + S p) by lia. apply IH.
Qed.

Lemma chars_elim t : forall a b,
  semseq (map RChar t) a b -> rest a = t ++ rest b /\ pos b = length t + pos a.
Proof.
  induction t as [|x t IH]; intros a b H.
  - simpl in H. by subst.
  - simpl in H. destruct H as (mid & Hmid & H).
    destruct (rest a) as [|y ys] eqn:Ha; [done |]. destruct Hmid as [-> ->].
    apply IH in H as [Hrest Hpos]. simpl in Hrest, Hpos.
    split; [by rewrite Hrest | rewrite Hpos; simpl; lia].
Qed.

(** *** Capturing groups and the query group *)

Lemma capture_intro i r (ok : ascii -> Prop) v p r' c :
  (forall a b,
     sem r (clear_caps (group_ids r) a) b <->
     exists x xs, rest a = x :: xs /\ ok x /\ b = MState (S (pos a)) xs (caps a)) ->
  v ≠ [] -> Forall ok v ->
  sem (RGroup i [RPlus r]) (MState p (v ++ r') c)
    (MState (length v + p) r' (<[pred i := Some v]> c)).
Proof.
  intros Hr Hne Hv.
  change (exists inner,
            semseq [RPlus r] (MState p (v ++ r') c) inner /\
            MState (length v + p) r' (<[pred i := Some v]> c) =
              set_cap i (MState p (v ++ r') c) inner).
  exists (MState (length v + p) r' c). split.
  - cbn [semseq]. eexists. split; [by apply (plus_chars_intro r ok Hr) | done].
  - unfold set_cap. simpl. rewrite length_app.
    replace (length v + length r' - length r') with (length v) by lia.
    by rewrite take_app_length.
Qed.

Lemma capture_elim i r (ok : ascii -> Prop) a b :
  (forall a b,
     sem r (clear_caps (group_ids r) a) b <->
     exists x xs, rest a = x :: xs /\ ok x /\ b = MState (S (pos a)) xs (caps a)) ->
  sem (RGroup i [RPlus r]) a b ->
  exists v, v ≠ [] /\ Forall ok v /\ rest a = v ++ rest b /\ pos b = length v + pos a.
Proof.
  intros Hr H.
  change (exists inner, semseq [RPlus r] a inner /\ b = set_cap i a inner) in H.
  destruct H as (inner & (mid & Hplus & ->) & ->).
  exact (plus_chars_elim r ok Hr a mid Hplus).
Qed.

Lemma query_skip i a : sem (query_atom i) a a.
Proof. unfold query_atom. cbn [sem]. by right. Qed.

Lemma query_intro i t p r' c :
  "/"%char ∉ t ->
  exists c',
    sem (query_atom i) (MState p (";"%char :: t ++ r') c)
      (MState (length (";"%char :: t) + p) r' c').
Proof.
  intros Ht. exists (<[pred i := Some t]> (<[pred i := None]> c)).
  set (c1 := <[pred i := None]> c).
  set (mid := MState (S p) (t ++ r') c1).
  set (inner := MState (length t + S p) r' c1).
  assert (Hstar : sem (RStar (RSet true ["/"%char])) mid inner).
  { apply (star_chars_intro _ _ (sem_class true ["/"%char])).
    apply outside_class. intros c0 Hc0. by apply list_elem_of_singleton in Hc0 as ->. }
  assert (Hcap : set_cap i mid inner =
            MState (length (";"%char :: t) + p) r' (<[pred i := Some t]> c1)).
  { unfold set_cap, mid, inner. cbn [pos rest caps]. rewrite length_app.
    replace (length t + length r' - length r') with (length t) by lia.
    rewrite take_app_length. f_equal. simpl. lia. }
  rewrite <- Hcap. unfold query_atom. cbn [sem]. left. split.
  - change (semseq [RChar ";"; RGroup i [RStar (RSet true ["/"%char])]]
              (MState p (";"%char :: t ++ r') c1) (set_cap i mid inner)).
    cbn [semseq]. exists mid. split; [done |].
    exists (set_cap i mid inner). split; [| done].
    change (exists inner',
              semseq [RStar (RSet true ["/"%char])] mid inner' /\
              set_cap i mid inner = set_cap i mid inner').
    exists inner. split; [| done]. cbn [semseq]. eauto.
  - unfold consumed, set_cap. simpl. rewrite length_app.
    rewrite bool_decide_true; [done | lia].
Qed.

Lemma query_elim i a b :
  sem (query_atom i) a b ->
  exists q, query_text q /\ rest a = q ++ rest b /\ pos b = length q + pos a.
Proof.
  unfold query_atom. cbn [sem]. intros [[H _] | ->].
  2: { exists []. split; [by left | done]. }
  change (semseq [RChar ";"; RGroup i [RStar (RSet true ["/"%char])]]
            (clear_caps [i] a) b) in H.
  cbn [semseq] in H. destruct H as (m1 & H1 & m2 & H2 & ->).
  cbn [sem clear_caps rest] in H1.
  destruct (rest a) as [|x xs] eqn:Ha; [done |]. destruct H1 as [-> ->].
  change (exists inner,
            semseq [RStar (RSet true ["/"%char])]
              (advance (clear_caps [i] a) xs) inner /\
            m2 = set_cap i (advance (clear_caps [i] a) xs) inner) in H2.
  destruct H2 as (inner & (m3 & Hstar & ->) & ->).
  apply (star_chars_elim _ _ (sem_class true ["/"%char])) in Hstar
    as (t & Ht & Hrest & Hpos).
  simpl in Hrest, Hpos. exists (";"%char :: t). split; [| split].
  - right. exists t. split; [done |].
    apply (proj1 (outside_class ["/"%char] t) Ht). by left.
  - simpl. by rewrite Hrest.
  - simpl. rewrite Hpos. lia.
Qed.

(** *** The fragment of a segment *)

Lemma query_part i q p r' c :
  query_text q ->
  exists c', sem (query_atom i) (MState p (q ++ r') c) (MState (length q + p) r' c').
Proof.
  intros [-> | (t & -> & Ht)].
  - exists c. apply query_skip.
  - by apply query_intro.
Qed.

Lemma semseq_one r a b : semseq [r] a b <-> sem r a b.
Proof. simpl. split; [by intros (mid & ? & ->) | eauto]. Qed.

Lemma semseq_two r1 r2 a b :
  semseq [r1; r2] a b <-> exists mid, sem r1 a mid /\ sem r2 mid b.
Proof.
  simpl. split.
  - intros (mid & ? & m2 & ? & ->). eauto.
  - intros (mid & ? & ?). eauto.
Qed.

(** A value followed by a query text, through a capture and the query
    group. *)
Lemma value_query_sem (g : re) i v q p r' c :
  (forall p' s c0, exists c1, sem g (MState p' (v ++ s) c0) (MState (length v + p') s c1)) ->
  query_text q ->
  exists c', semseq [g; query_atom i] (MState p ((v ++ q) ++ r') c)
               (MState (length (v ++ q) + p) r' c').
Proof.
  intros Hg Hq. destruct (Hg p (q ++ r') c) as [c1 H1].
  destruct (query_part i q (length v + p) r' c1 Hq) as [c2 H2].
  exists c2. apply semseq_two. eexists. rewrite <- app_assoc. split; [exact H1 |].
  rewrite length_app. replace (length v + length q + p) with (length q + (length v + p)) by lia.
  exact H2.
Qed.

Lemma accepts_sem seg s n p r' c :
  clean seg -> accepts seg s ->
  exists c', semseq (fst (seg_prog n seg)) (MState p (s ++ r') c)
               (MState (length s + p) r' c').
Proof.
  intros Hclean (v & q & -> & Hv & Hq & Hnoq).
  unfold clean, value_text, has_query, seg_prog in *.
  destruct (kind seg) as [t| |nm|nm].
  - subst v. destruct Hclean as [Hb He]. destruct (given (query seg)); cbn [fst].
    + destruct (query_part (S n) q (length t + p) r' c Hq) as [c2 H2].
      exists c2. rewrite lit_clean by done. apply semseq_app.
      eexists. rewrite <- app_assoc. split; [apply chars_intro |].
      apply semseq_one. rewrite length_app.
      replace (length t + length q + p) with (length q + (length t + p)) by lia.
      exact H2.
    + rewrite (Hnoq eq_refl), app_nil_r. exists c. rewrite lit_clean by done.
      apply chars_intro.
  - subst v. cbn [fst app]. destruct (query_part (S n) q p r' c Hq) as [c2 H2].
    exists c2. by apply semseq_one.
  - destruct Hv as (Hne & Hslash & Hsemi). destruct (given (query seg)); cbn [fst].
    + apply value_query_sem; [| done]. intros p' s c0. eexists.
      apply (capture_intro _ _ _ _ _ _ _ (sem_class true ["/"%char; ";"%char])); [done |].
      apply outside_class. intros c1 Hc1. apply list_elem_of_In in Hc1. simpl in Hc1.
      destruct Hc1 as [<- | [<- | []]]; auto.
    + rewrite (Hnoq eq_refl), app_nil_r. eexists. apply semseq_one.
      apply (capture_intro _ _ _ _ _ _ _ (sem_class true ["/"%char])); [done |].
      apply outside_class. intros c1 Hc1. by apply list_elem_of_singleton in Hc1 as ->.
  - destruct Hv as (Hne & Hv). destruct (given (query seg)); cbn [fst].
    + apply value_query_sem; [| done]. intros p' s c0. eexists.
      apply (capture_intro _ _ _ _ _ _ _ (sem_class true [";"%char])); [done |].
      apply outside_class. intros c1 Hc1. by apply list_elem_of_singleton in Hc1 as ->.
    + rewrite (Hnoq eq_refl), app_nil_r. eexists. apply semseq_one.
      by apply (capture_intro _ _ _ _ _ _ _ sem_any).
Qed.

Lemma sem_accepts seg n a b :
  clean seg ->
  semseq (fst (seg_prog n seg)) a b ->
  exists u, accepts seg u /\ rest a = u ++ rest b /\ pos b = length u + pos a.
Proof.
  intros Hclean H. unfold accepts, clean, value_text, has_query, seg_prog in *.
  assert (Hnil : query_text []) by (by left).
  destruct (kind seg) as [t| |nm|nm].
  - destruct Hclean as [Hb He]. rewrite lit_clean in H by done.
    destruct (given (query seg)); cbn [fst] in H.
    + apply semseq_app in H as (mid & H1 & H2). apply semseq_one in H2.
      apply chars_elim in H1 as [Hr1 Hp1].
      apply query_elim in H2 as (q & Hq & Hr2 & Hp2).
      exists (t ++ q). split; [exists t, q; done |]. split.
      * rewrite Hr1, Hr2. by rewrite app_assoc.
      * rewrite Hp2, Hp1, length_app. lia.
    + apply chars_elim in H as [Hr1 Hp1].
      exists t. split; [| done]. exists t, []. by rewrite app_nil_r.
  - cbn [fst] in H. apply semseq_one in H.
    apply query_elim in H as (q & Hq & Hr2 & Hp2).
    exists q. split; [| done]. exists [], q. done.
  - destruct (given (query seg)); cbn [fst] in H.
    + apply semseq_two in H as (mid & H1 & H2).
      apply (capture_elim _ _ _ _ _ (sem_class true ["/"%char; ";"%char])) in H1
        as (v & Hne & Hv & Hr1 & Hp1).
      apply query_elim in H2 as (q & Hq & Hr2 & Hp2).
      pose proof (proj1 (outside_class _ _) Hv) as Hout.
      exists (v ++ q). split; [| split].
      * exists v, q. split; [done |]. split; [| done].
        split; [done |]. split; [apply Hout; by left |].
        intros _. apply Hout. right. by left.
      * rewrite Hr1, Hr2. by rewrite app_assoc.
      * rewrite Hp2, Hp1, length_app. lia.
    + apply semseq_one in H.
      apply (capture_elim _ _ _ _ _ (sem_class true ["/"%char])) in H
        as (v & Hne & Hv & Hr1 & Hp1).
      pose proof (proj1 (outside_class _ _) Hv) as Hout.
      exists v. split; [| done]. exists v, []. rewrite app_nil_r.
      split; [done |]. split; [| done]. split; [done |]. split; [apply Hout; by left | done].
  - destruct (given (query seg)); cbn [fst] in H.
    + apply semseq_two in H as (mid & H1 & H2).
      apply (capture_elim _ _ _ _ _ (sem_class true [";"%char])) in H1
        as (v & Hne & Hv & Hr1 & Hp1).
      apply query_elim in H2 as (q & Hq & Hr2 & Hp2).
      pose proof (proj1 (outside_class _ _) Hv) as Hout.
      exists (v ++ q). split; [| split].
      * exists v, q. split; [done |]. split; [| done].
        split; [done |]. apply Hout. by left.
      * rewrite Hr1, Hr2. by rewrite app_assoc.
      * rewrite Hp2, Hp1, length_app. lia.
    + apply semseq_one in H.
      apply (capture_elim _ _ _ _ _ sem_any) in H as (v & Hne & Hv & Hr1 & Hp1).
      exists v. split; [| done]. exists v, []. rewrite app_nil_r. done.
Qed.

(** *** Anchored expressions *)

Lemma exec_anchored p rs s : prog p = RBol :: rs -> exec p s = match_at p 0 s.
Proof.
  intros Hp. unfold exec. rewrite search_unfold.
  destruct (match_at p 0 s); [done |]. destruct s; [done |].
  by eapply search_anchored.
Qed.

Lemma exec_sem p rs s :
  prog p = RBol :: rs ->
  is_Some (exec p s) <->
  exists b, semseq rs (MState 0 s (replicate (groups p) None)) b.
Proof.
  intros Hp. rewrite (exec_anchored p rs s Hp). unfold match_at.
  rewrite mseq_sem, Hp. split.
  - intros (b & (mid & [_ ->] & Hb) & _). eauto.
  - intros (b & Hb). exists b. split; [| eauto]. eexists. split; [| exact Hb]. done.
Qed.

Lemma key_sem seg s :
  clean seg ->
  is_Some (exec (Build_regexp (key_of seg) (RBol :: fst (seg_prog 0 seg) ++ [REol])
                   (snd (seg_prog 0 seg))) s) <->
  accepts seg s.
Proof.
  intros Hclean. rewrite (exec_sem _ (fst (seg_prog 0 seg) ++ [REol])) by done.
  cbn [groups]. split.
  - intros (b & Hb). apply semseq_app in Hb as (mid & Hmid & Hend).
    apply semseq_one in Hend. destruct Hend as [Hend ->].
    apply sem_accepts in Hmid as (u & Hu & Hrest & _); [| done].
    simpl in Hrest. rewrite Hend, app_nil_r in Hrest. by subst u.
  - intros Hacc.
    destruct (accepts_sem seg s 0 0 [] (replicate (snd (seg_prog 0 seg)) None) Hclean Hacc)
      as [c' Hsem].
    rewrite app_nil_r in Hsem. eexists. apply semseq_app. eexists. split; [exact Hsem |].
    by apply semseq_one.
Qed.

(** ** What an edge of the trie accepts *)

(** The key [add] gives the state of a clean segment matches a text when
    the segment accepts it, and only then: a static segment its own text; a
    dynamic segment a text that is not empty and holds no separator; a star
    segment a text that is not empty and holds no line terminator; and when
    the segment ends a level, the value, which then holds no [;], may be
    followed by [;] and a query text without the separator. *)
Theorem key_matches_what_the_segment_accepts (seg : Segment) (s : list ascii) :
  clean seg ->
  exists b,
    string_matches s (Some (key_of seg)) = Ok b /\
    (b = true <-> accepts seg s).
Proof.
  intros Hclean. unfold string_matches, key_of. rewrite compile_key.
  eexists. split; [reflexivity |].
  rewrite bool_decide_eq_true. by apply key_sem.
Qed.

Lemma key_matches_what_the_segment_accepts_witness :
  exists b,
    string_matches (str "5;page=2")
      (Some (key_of (Build_Segment (DynamicSegment (str "id")) (Some (str "post"))))) =
      Ok b /\
    (b = true <->
     accepts (Build_Segment (DynamicSegment (str "id")) (Some (str "post")))
       (str "5;page=2")).
Proof.
  apply (key_matches_what_the_segment_accepts
           (Build_Segment (DynamicSegment (str "id")) (Some (str "post")))
           (str "5;page=2")).
  exact I.
Defined.

(** ** The trie is a tree *)

Lemma tree_inv_new : tree_inv RouteRecognizer_new.
Proof.
  split; [| split; [| split]].
  - intros [|s] st c Hs Hc; simpl in Hs; [| done].
    injection Hs as <-. by apply elem_of_nil in Hc.
  - intros [|s1] st1 s2 st2 c Hs1 Hc1; simpl in Hs1; [| done].
    injection Hs1 as <-. by apply elem_of_nil in Hc1.
  - intros [|s] st Hs; simpl in Hs; [| done]. injection Hs as <-. apply not_elem_of_nil.
  - simpl. lia.
Qed.

Lemma tree_inv_valid rr s st c :
  tree_inv rr -> states rr !! s = Some st -> c ∈ State.nextStates st ->
  c < length (states rr).
Proof.
  intros (Hkeyed & _) Hs Hc. destruct (Hkeyed s st c Hs Hc) as (stc & key & Hstc & _).
  by eapply lookup_lt_Some.
Qed.

Lemma State_put_tree this frag : preserves tree_inv (State_put this frag).
Proof.
  intros rr Hinv.
  destruct (State_put_cases rr this frag)
    as [[e ->] | [(child & st & -> & _) | (st & Hthis & _ & ->)]]; try done.
  pose proof Hinv as (Hkeyed & Hparent & Horphan & Hroot).
  set (L := length (states rr)).
  set (key := str "^" ++ frag ++ str "$").
  set (σ1 := alter (push_child L) this (states rr ++ [State.new (Some key)])).
  assert (Hthis_lt : this < L) by (by eapply lookup_lt_Some).
  assert (HL : σ1 !! L = Some (State.new (Some key))).
  { unfold σ1. rewrite list_lookup_alter_ne by lia. by apply list_lookup_middle. }
  assert (Hthis1 : σ1 !! this = Some (push_child L st)).
  { unfold σ1. by rewrite list_lookup_alter_eq, lookup_app_l, Hthis by done. }
  assert (Hother : forall s, s ≠ this -> s ≠ L -> σ1 !! s = states rr !! s).
  { intros s Hs1 Hs2. unfold σ1. rewrite list_lookup_alter_ne by done.
    destruct (decide (s < L)) as [Hlt | Hge]; [by rewrite lookup_app_l |].
    rewrite !lookup_ge_None_2; [done | fold L; lia | rewrite length_app; simpl; fold L; lia]. }
  (* the children of a state of [σ1]: those it had, and [L] for [this] *)
  assert (Hchildren : forall s st1 c,
            σ1 !! s = Some st1 -> c ∈ State.nextStates st1 ->
            (c = L /\ s = this) \/
            (c ≠ L /\ exists st0, states rr !! s = Some st0 /\ c ∈ State.nextStates st0)).
  { intros s st1 c Hs Hc. destruct (decide (s = this)) as [-> | Hne1].
    - rewrite Hthis1 in Hs. injection Hs as <-. simpl in Hc.
      apply elem_of_app in Hc as [Hc | Hc].
      + right. split; [| eauto].
        pose proof (tree_inv_valid rr this st c Hinv Hthis Hc). fold L in H. lia.
      + apply list_elem_of_singleton in Hc. by left.
    - destruct (decide (s = L)) as [-> | Hne2].
      + rewrite HL in Hs. injection Hs as <-. by apply elem_of_nil in Hc.
      + rewrite Hother in Hs by done. right. split; [| eauto].
        pose proof (tree_inv_valid rr s st1 c Hinv Hs Hc). fold L in H. lia. }
  split; [| split; [| split]]; cbn [snd states rootState].
  - intros s st1 c Hs Hc.
    destruct (Hchildren s st1 c Hs Hc) as [[-> _] | (Hne & st0 & Hs0 & Hc0)].
    + exists (State.new (Some key)), key. done.
    + destruct (Hkeyed s st0 c Hs0 Hc0) as (stc & k & Hstc & Hk).
      destruct (decide (c = this)) as [-> | Hne1].
      * rewrite Hthis in Hstc. injection Hstc as <-.
        exists (push_child L st), k. done.
      * exists stc, k. by rewrite Hother.
  - intros s1 st1 s2 st2 c Hs1 Hc1 Hs2 Hc2.
    destruct (Hchildren s1 st1 c Hs1 Hc1) as [[Hc1' ->] | (Hne1 & st10 & Hs10 & Hc10)];
      destruct (Hchildren s2 st2 c Hs2 Hc2) as [[Hc2' ->] | (Hne2 & st20 & Hs20 & Hc20)];
      try done.
    by eapply Hparent.
  - intros s st1 Hs Hc.
    destruct (Hchildren s st1 _ Hs Hc) as [[Hc' _] | (_ & st0 & Hs0 & Hc0)].
    + fold L in Hroot. lia.
    + by eapply Horphan.
  - unfold σ1. rewrite length_alter, length_app. simpl. lia.
Qed.

Lemma modify_tree s (f : State.t -> State.t) :
  (forall st, State.segmentRegex (f st) = State.segmentRegex st) ->
  (forall st, State.nextStates (f st) = State.nextStates st) ->
  preserves tree_inv (modify s f).
Proof.
  intros Hkey Hnext rr (Hkeyed & Hparent & Horphan & Hroot).
  assert (Hlook : forall i st1,
            alter f s (states rr) !! i = Some st1 ->
            exists st0, states rr !! i = Some st0 /\
                        State.nextStates st1 = State.nextStates st0 /\
                        State.segmentRegex st1 = State.segmentRegex st0).
  { intros i st1 Hi. destruct (decide (s = i)) as [<- | Hne].
    - rewrite list_lookup_alter_eq in Hi. destruct (states rr !! s) as [st0|]; [| done].
      simpl in Hi. injection Hi as <-. eauto.
    - rewrite list_lookup_alter_ne in Hi by done. eauto. }
  split; [| split; [| split]]; cbn [snd modify states rootState].
  - intros i st1 c Hi Hc. destruct (Hlook i st1 Hi) as (st0 & Hi0 & Hn & _).
    rewrite Hn in Hc. destruct (Hkeyed i st0 c Hi0 Hc) as (stc & k & Hstc & Hk).
    destruct (decide (s = c)) as [<- | Hne].
    + exists (f stc), k. rewrite list_lookup_alter_eq, Hstc. by rewrite Hkey.
    + exists stc, k. by rewrite list_lookup_alter_ne.
  - intros s1 st1 s2 st2 c Hs1 Hc1 Hs2 Hc2.
    destruct (Hlook s1 st1 Hs1) as (st10 & Hs10 & Hn1 & _).
    destruct (Hlook s2 st2 Hs2) as (st20 & Hs20 & Hn2 & _).
    rewrite Hn1 in Hc1. rewrite Hn2 in Hc2. by eapply Hparent.
  - intros i st1 Hi. destruct (Hlook i st1 Hi) as (st0 & Hi0 & Hn & _).
    rewrite Hn. by eapply Horphan.
  - by rewrite length_alter.
Qed.

Lemma add_route_tree v route : preserves tree_inv (add_route v route).
Proof.
  unfold add_route. destruct (parse _ _ _) as [[segments nms] tys].
  apply preserves_bind; [| intros r; apply preserves_readonly, readonly_ret].
  apply preserves_foldM. intros [cur re] seg. unfold add_segment.
  apply preserves_bind; [| intros c; apply preserves_readonly, readonly_ret].
  apply State_put_tree.
Qed.

Lemma add_tree routes options : preserves tree_inv (add routes options).
Proof.
  unfold add.
  apply preserves_bind; [apply preserves_readonly, readonly_this_rootState | intros root].
  apply preserves_bind; [apply preserves_foldM; intros; apply add_route_tree | intros v].
  apply preserves_bind.
  { destruct (isEmpty v); [| apply preserves_readonly, readonly_ret].
    apply preserves_bind; [apply State_put_tree | intros c].
    destruct (last _); apply preserves_readonly; auto with readonly. }
  intros v'.
  apply preserves_bind; [by apply modify_tree | intros _].
  apply preserves_bind.
  { unfold new_RegExp. destruct (compile _); apply preserves_readonly; auto with readonly. }
  intros re.
  apply preserves_bind; [by apply modify_tree | intros _].
  apply preserves_bind; [by apply modify_tree | intros _].
  destruct (given options); [| apply preserves_readonly, readonly_ret].
  intros rr Hinv. exact Hinv.
Qed.

Lemma run_adds_tree calls : forall rr, tree_inv rr -> tree_inv (run_adds calls rr).
Proof.
  induction calls as [|[routes options] calls IH]; intros rr Hrr; simpl; [done |].
  apply IH. by apply add_tree.
Qed.

(** A way of the trie, seen from its end. *)
Lemma trie_path_snoc σ s keys p stp fin stf key :
  trie_path σ s keys p ->
  σ !! p = Some stp -> fin ∈ State.nextStates stp ->
  σ !! fin = Some stf -> State.segmentRegex stf = Some key ->
  trie_path σ s (keys ++ [key]) fin.
Proof.
  intros Hpath Hp Hin Hfin Hkey. eapply trie_path_app; [exact Hpath |].
  eapply trie_step; eauto. constructor.
Qed.

Lemma trie_path_snoc_inv σ keys key : forall s fin,
  trie_path σ s (keys ++ [key]) fin ->
  exists p stp stf,
    trie_path σ s keys p /\ σ !! p = Some stp /\ fin ∈ State.nextStates stp /\
    σ !! fin = Some stf /\ State.segmentRegex stf = Some key.
Proof.
  induction keys as [|k keys IH]; intros s fin H.
  - inversion H as [|s0 st c stc k0 ks fin0 Hs Hc Hstc Hk Hrest]; subst.
    inversion Hrest; subst. exists s, st, stc. split; [constructor | done].
  - inversion H as [|s0 st c stc k0 ks fin0 Hs Hc Hstc Hk Hrest]; subst.
    apply IH in Hrest as (p & stp & stf & Hpath & Hp & Hin & Hfin & Hkey).
    exists p, stp, stf. split; [| done]. eapply trie_step; eauto.
Qed.

(** In a tree there is one way from the root to a state. *)
Lemma trie_path_unique rr keys1 : forall keys2 fin,
  tree_inv rr ->
  trie_path (states rr) (rootState rr) keys1 fin ->
  trie_path (states rr) (rootState rr) keys2 fin ->
  keys1 = keys2.
Proof.
  induction keys1 as [|k1 keys1 IH] using rev_ind; intros keys2 fin Hinv H1 H2.
  - inversion H1; subst. destruct keys2 as [|k2 keys2 _] using rev_ind; [done |].
    apply trie_path_snoc_inv in H2 as (p & stp & stf & _ & Hp & Hin & _).
    destruct Hinv as (_ & _ & Horphan & _). by destruct (Horphan p stp Hp).
  - apply trie_path_snoc_inv in H1 as (p1 & stp1 & stf1 & Hpath1 & Hp1 & Hin1 & Hf1 & Hk1).
    destruct keys2 as [|k2 keys2 _] using rev_ind.
    + inversion H2; subst. destruct Hinv as (_ & _ & Horphan & _).
      by destruct (Horphan p1 stp1 Hp1).
    + apply trie_path_snoc_inv in H2
        as (p2 & stp2 & stf2 & Hpath2 & Hp2 & Hin2 & Hf2 & Hk2).
      assert (p1 = p2) as <-.
      { destruct Hinv as (_ & Hparent & _). by eapply Hparent. }
      rewrite Hf1 in Hf2. injection Hf2 as <-. rewrite Hk1 in Hk2. injection Hk2 as <-.
      f_equal. by eapply IH.
Qed.

(** ** Every terminal state is where [add] ended *)

Lemma terminals_registered_mono (P Q : list Route.t -> Prop) rr :
  (forall routes, P routes -> Q routes) ->
  terminals_registered P rr -> terminals_registered Q rr.
Proof.
  intros HPQ H s st Hs Hh. destruct (H s st Hs Hh) as (routes & HP & Hspec). eauto.
Qed.

Lemma terminals_registered_new P : terminals_registered P RouteRecognizer_new.
Proof.
  intros [|s] st Hs Hh; simpl in Hs; [| done]. injection Hs as <-.
  simpl in Hh. by destruct Hh.
Qed.

Lemma terminal_transfer rr rr' s st0 st' routes :
  terminal_of_chain rr s st0 routes ->
  extends (states rr) (states rr') -> rootState rr' = rootState rr ->
  terminal_data st' = terminal_data st0 ->
  terminal_of_chain rr' s st' routes.
Proof.
  intros (Hne & Hpath & Hh & Hre & Hty) Hext Hroot [= H1 H2 H3].
  split; [done |]. split; [| by rewrite H1, H2, H3].
  rewrite Hroot. by eapply trie_path_extends.
Qed.

Lemma add_registered (P : list Route.t -> Prop) routes options rr :
  trie_wf rr -> terminals_registered P rr ->
  (routes ≠ [] -> P routes) ->
  terminals_registered P (snd (add routes options rr)).
Proof.
  intros Hwf Hreg HP. destruct (decide (routes = [])) as [-> | Hne].
  - rewrite (add_empty options rr Hwf). cbn [snd].
    destruct (State_put_ok rr (rootState rr) [] Hwf)
      as (rr2 & child & stc & Hput & _ & Hext & Hroot & _); [apply Hwf | by eexists |].
    pose proof (State_put_keeps (rootState rr) [] rr) as [_ Hkeeps].
    rewrite Hput in *. cbn [snd] in *.
    intros s st' Hs Hh. specialize (Hkeeps s st' Hs).
    destruct (states rr !! s) as [st0|] eqn:Hs0.
    + destruct (Hreg s st0 Hs0) as (routes0 & HP0 & Hspec).
      { injection Hkeeps as Hh' _ _. by rewrite <- Hh'. }
      exists routes0. split; [done |]. by eapply terminal_transfer.
    + rewrite Hkeeps in Hh. by destruct Hh.
  - destruct (add_ok routes options rr Hwf Hne)
      as (fin & st & rr' & Hadd & _ & Hext & Hroot & _ & Hpath & Hfin & Hh & Hre & Hty &
          Hothers).
    rewrite Hadd. cbn [snd]. intros s st' Hs Hh'.
    destruct (decide (s = fin)) as [-> | Hne'].
    + rewrite Hfin in Hs. injection Hs as <-. exists routes. split; [by apply HP |].
      done.
    + specialize (Hothers s st' Hs Hne').
      destruct (states rr !! s) as [st0|] eqn:Hs0.
      * destruct (Hreg s st0 Hs0) as (routes0 & HP0 & Hspec).
        { injection Hothers as Hh0 _ _. by rewrite <- Hh0. }
        exists routes0. split; [done |]. by eapply terminal_transfer.
      * rewrite Hothers in Hh'. by destruct Hh'.
Qed.

Lemma run_adds_registered (P : list Route.t -> Prop) calls : forall rr,
  trie_wf rr -> terminals_registered P rr ->
  Forall (fun call : list Route.t * option (list ascii) => fst call ≠ [] -> P (fst call))
    calls ->
  terminals_registered P (run_adds calls rr).
Proof.
  induction calls as [|[routes options] calls IH]; intros rr Hwf Hreg Hall; [done |].
  apply Forall_cons in Hall as [HP Hall]. simpl. apply IH; [| | done].
  - by apply add_wf.
  - by apply add_registered.
Qed.

(** ** The walk of [recognize] *)

Lemma State_match_fold_exact rr segment cs : forall acc,
  (forall c, c ∈ cs ->
     exists stc, states rr !! c = Some stc /\
                 forall k, State.segmentRegex stc = Some k -> is_Some (compile k)) ->
  foldM (fun returned child =>
           let* c := deref child in
           let* b := lift (string_matches segment (State.segmentRegex c)) in
           ret (if b : bool then returned ++ [child] else returned))
    acc cs rr =
  (Ok (acc ++ filter (fun c => edge_matches rr segment c = true) cs), rr).
Proof.
  induction cs as [|c cs IH]; intros acc Hcs.
  - simpl. by rewrite app_nil_r.
  - destruct (Hcs c) as (stc & Hstc & Hk); [by left |].
    assert (Hm : exists b, string_matches segment (State.segmentRegex stc) = Ok b).
    { unfold string_matches. destruct (State.segmentRegex stc) as [k|]; [| eauto].
      destruct (Hk k eq_refl) as [p ->]. eauto. }
    destruct Hm as [b Hm].
    cbn [foldM]. unfold bind at 1. unfold bind at 1. unfold deref at 1. rewrite Hstc.
    unfold bind at 1. unfold lift at 1. rewrite Hm. unfold ret at 1.
    rewrite IH by (intros c' Hc'; apply Hcs; by right).
    assert (He : edge_matches rr segment c = b).
    { unfold edge_matches. by rewrite Hstc, Hm. }
    rewrite filter_cons, He. destruct b.
    + rewrite decide_True by done. by rewrite <- app_assoc.
    + by rewrite decide_False by done.
Qed.

Lemma wf_children rr s st c :
  trie_wf rr -> states rr !! s = Some st -> c ∈ State.nextStates st ->
  exists stc, states rr !! c = Some stc /\
              forall k, State.segmentRegex stc = Some k -> is_Some (compile k).
Proof.
  intros ((Hvalid & _) & Hkeys & _) Hs Hc.
  destruct (lookup_lt_is_Some_2 (states rr) c) as [stc Hstc]; [by eapply Hvalid |].
  exists stc. split; [done |]. intros k Hk. by eapply Hkeys.
Qed.

Lemma State_match_exact rr s st segment :
  trie_wf rr -> states rr !! s = Some st ->
  State_match s segment rr =
  (Ok (filter (fun c => edge_matches rr segment c = true) (State.nextStates st)), rr).
Proof.
  intros Hwf Hs. unfold State_match, bind at 1, deref at 1. rewrite Hs.
  rewrite State_match_fold_exact; [done |].
  intros c Hc. by eapply wf_children.
Qed.

Lemma recognizeSegment_fold_exact rr segment frontier : forall acc,
  trie_wf rr ->
  (forall s, s ∈ frontier -> s < length (states rr)) ->
  foldM (fun nextStates state =>
           let* matched := State_match state segment in
           ret (nextStates ++ matched))
    acc frontier rr =
  (Ok (acc ++ step_frontier rr frontier segment), rr).
Proof.
  induction frontier as [|s frontier IH]; intros acc Hwf Hvalid.
  - simpl. by rewrite app_nil_r.
  - destruct (lookup_lt_is_Some_2 (states rr) s) as [st Hst]; [apply Hvalid; by left |].
    cbn [foldM]. unfold bind at 1. unfold bind at 1.
    rewrite (State_match_exact rr s st segment Hwf Hst). unfold ret at 1.
    rewrite IH by (try done; intros s' Hs'; apply Hvalid; by right).
    unfold step_frontier. cbn [flat_map]. unfold children at 2. rewrite Hst.
    by rewrite <- app_assoc.
Qed.

Lemma step_frontier_elem rr frontier segment c :
  c ∈ step_frontier rr frontier segment <->
  exists s st, s ∈ frontier /\ states rr !! s = Some st /\
               c ∈ State.nextStates st /\ edge_matches rr segment c = true.
Proof.
  unfold step_frontier. rewrite list_elem_of_In, in_flat_map. split.
  - intros (s & Hs & Hc). apply list_elem_of_In in Hs, Hc.
    apply list_elem_of_filter in Hc as [Hm Hc]. unfold children in Hc.
    destruct (states rr !! s) as [st|] eqn:Hst; [| by apply elem_of_nil in Hc].
    exists s, st. done.
  - intros (s & st & Hs & Hst & Hc & Hm). exists s.
    rewrite <- !list_elem_of_In. split; [done |].
    apply list_elem_of_filter. split; [done |]. unfold children. by rewrite Hst.
Qed.

Lemma step_frontier_valid rr frontier segment c :
  trie_wf rr -> c ∈ step_frontier rr frontier segment -> c < length (states rr).
Proof.
  intros ((Hvalid & _) & _) Hc.
  apply step_frontier_elem in Hc as (s & st & _ & Hst & Hc & _). by eapply Hvalid.
Qed.

Lemma recognize_loop_exact rr segments : forall frontier,
  trie_wf rr ->
  (forall s, s ∈ frontier -> s < length (states rr)) ->
  recognize_loop frontier segments rr = (Ok (walk rr frontier segments), rr).
Proof.
  induction segments as [|segment segments IH]; intros frontier Hwf Hvalid; [done |].
  cbn [recognize_loop walk]. unfold bind at 1. unfold recognizeSegment.
  rewrite (recognizeSegment_fold_exact rr segment frontier [] Hwf Hvalid).
  cbn [app]. case_bool_decide as Hnext; [by rewrite Hnext |].
  apply IH; [done |]. intros c Hc. by eapply step_frontier_valid.
Qed.

Lemma walk_valid rr segments : forall frontier s,
  trie_wf rr ->
  (forall s, s ∈ frontier -> s < length (states rr)) ->
  s ∈ walk rr frontier segments -> s < length (states rr).
Proof.
  induction segments as [|segment segments IH]; intros frontier s Hwf Hvalid Hs.
  - by apply Hvalid.
  - cbn [walk] in Hs. case_bool_decide; [by apply elem_of_nil in Hs |].
    eapply IH; [done | | exact Hs]. intros c Hc. by eapply step_frontier_valid.
Qed.

Lemma accepting_fold_exact rr frontier : forall acc,
  (forall s, s ∈ frontier -> s < length (states rr)) ->
  foldM (fun solutions s =>
           let* st := deref s in
           ret (if bool_decide (is_Some (State.handlers st)) then solutions ++ [s]
                else solutions)) acc frontier rr =
  (Ok (acc ++ filter (fun s => is_terminal rr s = true) frontier), rr).
Proof.
  induction frontier as [|s frontier IH]; intros acc Hvalid.
  - simpl. by rewrite app_nil_r.
  - destruct (lookup_lt_is_Some_2 (states rr) s) as [st Hst]; [apply Hvalid; by left |].
    cbn [foldM]. unfold bind at 1. unfold bind at 1. unfold deref at 1. rewrite Hst.
    unfold ret at 1. rewrite IH by (intros s' Hs'; apply Hvalid; by right).
    assert (He : is_terminal rr s = bool_decide (is_Some (State.handlers st))).
    { unfold is_terminal. by rewrite Hst. }
    rewrite filter_cons, He.
    destruct (bool_decide (is_Some (State.handlers st))).
    + rewrite decide_True by done. by rewrite <- app_assoc.
    + by rewrite decide_False by done.
Qed.

Lemma candidates_exact rr path :
  trie_wf rr ->
  candidates path rr =
  (Ok (filter (fun s => is_terminal rr s = true)
         (walk rr [rootState rr] (path_segments path))), rr).
Proof.
  intros Hwf. unfold candidates. run_pure.
  assert (Hroot : forall s, s ∈ [rootState rr] -> s < length (states rr)).
  { intros s Hs. apply list_elem_of_singleton in Hs as ->. apply Hwf. }
  erewrite bind_ok by (by apply recognize_loop_exact). cbn beta.
  unfold accepting. rewrite accepting_fold_exact; [done |].
  intros s Hs. by eapply walk_valid.
Qed.

Lemma edge_matches_key rr segment c stc key :
  states rr !! c = Some stc -> State.segmentRegex stc = Some key ->
  edge_matches rr segment c = true <-> string_matches segment (Some key) = Ok true.
Proof.
  intros Hc Hk. unfold edge_matches. rewrite Hc, Hk.
  destruct (string_matches segment (Some key)) as [b|e]; [| done].
  split; [by intros -> | by intros [= ->]].
Qed.

Lemma walk_sound rr segments : forall frontier fin,
  tree_inv rr ->
  fin ∈ walk rr frontier segments ->
  exists s keys,
    s ∈ frontier /\ trie_path (states rr) s keys fin /\
    Forall2 (fun key segment => string_matches segment (Some key) = Ok true)
      keys segments.
Proof.
  induction segments as [|segment segments IH]; intros frontier fin Hinv Hfin.
  - exists fin, []. split; [done |]. split; constructor.
  - cbn [walk] in Hfin. case_bool_decide; [by apply elem_of_nil in Hfin |].
    apply IH in Hfin as (c & keys & Hc & Hpath & Hall); [| done].
    apply step_frontier_elem in Hc as (s & st & Hs & Hst & Hc & Hm).
    destruct Hinv as (Hkeyed & _). destruct (Hkeyed s st c Hst Hc) as (stc & key & Hstc & Hk).
    exists s, (key :: keys). split; [done |]. split.
    + eapply trie_step; eauto.
    + constructor; [| done]. by eapply edge_matches_key.
Qed.

Lemma walk_complete rr s keys fin :
  trie_path (states rr) s keys fin ->
  forall frontier segments,
    s ∈ frontier ->
    Forall2 (fun key segment => string_matches segment (Some key) = Ok true)
      keys segments ->
    fin ∈ walk rr frontier segments.
Proof.
  induction 1 as [s | s st c stc key keys fin Hs Hc Hstc Hk _ IH];
    intros frontier segments Hin Hall.
  - apply Forall2_nil_inv_l in Hall as ->. done.
  - apply Forall2_cons_inv_l in Hall as (segment & segments' & Hm & Hall & ->).
    cbn [walk].
    assert (Hnext : c ∈ step_frontier rr frontier segment).
    { apply step_frontier_elem. exists s, st. split; [done |]. split; [done |].
      split; [done |]. by eapply edge_matches_key. }
    rewrite bool_decide_false by (intros Hnil; rewrite Hnil in Hnext; by apply elem_of_nil in Hnext).
    by apply IH.
Qed.

(** ** The whole expression of a terminal state *)

Lemma flat_split c s : flat_map (fun x => c :: x) (split c s) = c :: s.
Proof.
  induction s as [|x s IH]; [done |]. simpl. case_bool_decide as Hx.
  - subst x. simpl. by rewrite IH.
  - destruct (split c s) as [|p ps]; [done |]. simpl in *. by injection IH as ->.
Qed.

Lemma normalize_starts p : starts_with "/" (normalize p) = true.
Proof.
  unfold normalize.
  set (path := if negb (starts_with "/" p) then str "/" ++ p else p).
  assert (Hpath : starts_with "/" path = true).
  { unfold path. by destruct (starts_with "/" p) eqn:E. }
  destruct (bool_decide (1 < length p) && _) eqn:Hcut; [| done].
  apply andb_true_iff in Hcut as [Hlen _]. apply bool_decide_eq_true in Hlen.
  destruct path as [|x path]; [done |]. destruct (length p - 1) eqn:E; [lia |]. done.
Qed.

Lemma path_segments_flat path :
  flat_map (fun s => "/"%char :: s) (path_segments path) = normalize path.
Proof.
  unfold path_segments. pose proof (normalize_starts path) as Hs.
  destruct (normalize path) as [|x p]; [done |]. simpl in Hs.
  apply bool_decide_eq_true in Hs as ->. cbn [split].
  rewrite bool_decide_true by done. cbn [drop]. apply flat_split.
Qed.

Lemma segments_sem segs : forall strs n p c,
  Forall clean segs -> Forall2 accepts segs strs ->
  exists c',
    semseq (fst (segments_prog n segs))
      (MState p (flat_map (fun s => "/"%char :: s) strs) c)
      (MState (length (flat_map (fun s => "/"%char :: s) strs) + p) [] c').
Proof.
  induction segs as [|seg segs IH]; intros strs n p c Hclean Hall.
  - apply Forall2_nil_inv_l in Hall as ->. exists c. done.
  - apply Forall2_cons_inv_l in Hall as (s & strs' & Hs & Hall & ->).
    apply Forall_cons in Hclean as [Hseg Hclean].
    cbn [segments_prog flat_map].
    destruct (seg_prog n seg) as [a n1] eqn:Ha.
    destruct (segments_prog n1 segs) as [b n2] eqn:Hb. cbn [fst].
    set (tail := flat_map (fun s => "/"%char :: s) strs').
    destruct (accepts_sem seg s n (S p) tail c Hseg Hs) as [c1 H1].
    rewrite Ha in H1. cbn [fst] in H1.
    destruct (IH strs' n1 (length s + S p) c1 Hclean Hall) as [c2 H2].
    rewrite Hb in H2. cbn [fst] in H2. fold tail in H2.
    exists c2. cbn [semseq]. eexists. split; [cbn [sem rest]; split; reflexivity |].
    apply semseq_app. eexists. split; [exact H1 |].
    replace (length (("/"%char :: s) ++ tail) + p)
      with (length tail + (length s + S p)) by (simpl; rewrite length_app; lia).
    exact H2.
Qed.

Lemma compiled_matches segs strs :
  Forall clean segs -> Forall2 accepts segs strs ->
  is_Some (exec (compiled segs) (flat_map (fun s => "/"%char :: s) strs)).
Proof.
  intros Hclean Hall. unfold compiled.
  rewrite (exec_sem _ (fst (segments_prog 0 segs) ++ [REol])) by done. cbn [groups].
  destruct (segments_sem segs strs 0 0 (replicate (snd (segments_prog 0 segs)) None)
              Hclean Hall) as [c' Hsem].
  eexists. apply semseq_app. eexists. split; [exact Hsem |]. by apply semseq_one.
Qed.

Lemma matches_empty_key s : string_matches s (Some (str "^$")) = Ok true -> s = [].
Proof.
  unfold string_matches.
  change (compile (str "^$")) with (Some (Build_regexp (str "^$") [RBol; REol] 0)).
  intros [= H]. apply bool_decide_eq_true in H.
  rewrite (exec_sem _ [REol]) in H by done. destruct H as (b & H).
  apply semseq_one in H. by destruct H as [H _].
Qed.

Lemma matches_key seg s :
  clean seg -> string_matches s (Some (key_of seg)) = Ok true -> accepts seg s.
Proof.
  intros Hclean. unfold string_matches, key_of. rewrite compile_key.
  intros [= H]. apply bool_decide_eq_true in H. by apply key_sem.
Qed.

(** *** Clean templates give clean segments *)

Lemma split_outside c sep s : c ∉ s -> Forall (fun p => c ∉ p) (split sep s).
Proof.
  induction s as [|x s IH]; intros Hc; simpl.
  - repeat constructor. apply not_elem_of_nil.
  - apply not_elem_of_cons in Hc as [Hx Hs]. specialize (IH Hs).
    case_bool_decide.
    + constructor; [apply not_elem_of_nil | done].
    + destruct (split sep s) as [|p ps].
      * repeat constructor. apply not_elem_of_cons. split; [done | apply not_elem_of_nil].
      * apply Forall_cons in IH as [Hp Hps]. constructor; [| done].
        by apply not_elem_of_cons.
Qed.

Lemma piece_kind_static piece t :
  piece_kind piece = Some (StaticSegment t) -> t = piece.
Proof.
  unfold piece_kind. destruct piece as [|c name]; [done |].
  destruct (_ && _); [done |]. destruct (_ && _); [done |]. by intros [= <-].
Qed.

Lemma template_segments_clean tpl :
  clean_template tpl -> Forall clean (template_segments tpl).
Proof.
  intros [Hb He]. unfold template_segments, parse.
  set (body := if starts_with "/" tpl then drop 1 tpl else tpl).
  assert (Hbody : ("^"%char ∉ body) /\ ("$"%char ∉ body)).
  { unfold body. destruct (starts_with "/" tpl); [| done].
    split; intros H; apply list_elem_of_lookup in H as [i Hi];
      rewrite lookup_drop in Hi; [apply Hb | apply He];
      apply list_elem_of_lookup; eauto. }
  destruct Hbody as [Hb' He'].
  rewrite parse_fold_kinds by apply split_pieces. cbn [fst app].
  apply Forall_map, Forall_forall. intros k Hk.
  apply list_elem_of_omap in Hk as (piece & Hpiece & Hkind).
  unfold clean. cbn [kind]. destruct k as [t| | |]; try done.
  apply piece_kind_static in Hkind as ->.
  pose proof (split_outside "^" "/" body Hb') as H1.
  pose proof (split_outside "$" "/" body He') as H2.
  rewrite Forall_forall in H1, H2. split; [by apply H1 | by apply H2].
Qed.

Lemma mark_last_clean h segs : Forall clean segs -> Forall clean (mark_last h segs).
Proof.
  intros H. unfold mark_last. apply Forall_forall. intros seg Hseg.
  apply elem_of_lookup_imap in Hseg as (j & seg0 & -> & Hj).
  assert (Hc : clean seg0).
  { rewrite Forall_forall in H. apply H. by eapply list_elem_of_lookup_2. }
  by case_bool_decide.
Qed.

Lemma chain_segments_clean routes :
  clean_chain routes -> Forall clean (chain_segments routes).
Proof.
  intros Hclean. unfold chain_segments. cbv zeta. case_bool_decide.
  - destruct (last routes); repeat constructor.
  - apply Forall_forall. intros seg Hseg.
    apply list_elem_of_In, in_flat_map in Hseg as (route & Hroute & Hseg).
    apply list_elem_of_In in Hroute, Hseg.
    unfold clean_chain in Hclean. rewrite Forall_forall in Hclean.
    pose proof (mark_last_clean (Route.handler route) _
                  (template_segments_clean _ (Hclean route Hroute))) as Hall.
    rewrite Forall_forall in Hall. by apply Hall.
Qed.

Lemma keys_accept segs : forall strs,
  Forall clean segs ->
  Forall2 (fun key segment => string_matches segment (Some key) = Ok true)
    (map key_of segs) strs ->
  Forall2 accepts segs strs.
Proof.
  induction segs as [|seg segs IH]; intros strs Hclean Hall.
  - apply Forall2_nil_inv_l in Hall as ->. constructor.
  - apply Forall_cons in Hclean as [Hseg Hclean].
    apply Forall2_cons_inv_l in Hall as (s & strs' & Hs & Hall & ->).
    constructor; [by apply matches_key | by apply IH].
Qed.

(** The expression of the state [add] ended at matches a path whose
    segments the keys on the way to the state match, one by one. *)
Lemma chain_regex_matches routes strs :
  routes ≠ [] -> clean_chain routes ->
  Forall2 (fun key segment => string_matches segment (Some key) = Ok true)
    (chain_keys routes) strs ->
  is_Some (exec (compiled (chain_segments routes))
             (flat_map (fun s => "/"%char :: s) strs)).
Proof.
  intros Hne Hclean Hall.
  pose proof (chain_segments_clean routes Hclean) as Hsegs.
  apply compiled_matches; [done |].
  revert Hall Hsegs. unfold chain_keys, chain_segments. cbv zeta.
  case_bool_decide as Hflat.
  - intros Hall _. destruct (last routes) as [r|] eqn:Hlast.
    2: { apply last_None in Hlast. done. }
    apply Forall2_cons_inv_l in Hall as (s & strs' & Hs & Hall & ->).
    apply Forall2_nil_inv_l in Hall as ->.
    apply matches_empty_key in Hs as ->.
    constructor; [| constructor].
    exists [], []. split; [done |]. split; [done |]. split; [by left | done].
  - intros Hall Hsegs. by apply keys_accept.
Qed.

(** ** What [recognize] answers *)

Lemma read_params_total arr names : forall i params,
  exists params', read_params (Some arr) names i params = Ok (params', i + length names).
Proof.
  induction names as [|name names IH]; intros i params; simpl.
  - exists params. do 2 f_equal. lia.
  - destruct (arr !! i) as [[s|]|];
      (edestruct (IH (S i)) as [params' ->]; exists params'; do 2 f_equal; lia).
Qed.

Lemma read_params_dom caps names : forall i params params' j,
  read_params caps names i params = Ok (params', j) ->
  dom params' = dom params ∪ list_to_set (own_names names).
Proof.
  induction names as [|name names IH]; intros i params params' j H.
  - simpl in H. injection H as <- <-. simpl. by rewrite (right_id_L ∅ (∪)).
  - cbn [read_params] in H. destruct (capture caps i) as [v|e]; [| done].
    apply IH in H. rewrite H. unfold own_names, assign. rewrite filter_cons.
    destruct (decide (name ≠ proto_key)) as [Hne | Heq].
    + rewrite bool_decide_false by done. rewrite dom_insert_L. simpl.
      by rewrite (comm_L (∪) {[name]} (dom params)), (assoc_L (∪)).
    + rewrite bool_decide_true by (by destruct (decide (name = proto_key))). done.
Qed.

Lemma read_handlers_sound caps hs : forall i acc out,
  Forall (fun h => Handler.hasQuery h = None) hs ->
  read_handlers caps hs i acc = Ok out ->
  exists res, out = acc ++ res /\ Forall2 answers res hs.
Proof.
  induction hs as [|h hs IH]; intros i acc out Hnoq H.
  - simpl in H. injection H as <-. exists []. by rewrite app_nil_r.
  - apply Forall_cons in Hnoq as [Hh Hnoq]. cbn [read_handlers] in H.
    destruct (read_params caps (Handler.names h) i ∅) as [[params j]|e] eqn:Hp; [| done].
    apply read_params_dom in Hp. rewrite dom_empty_L, (left_id_L ∅ (∪)) in Hp.
    rewrite Hh in H. apply IH in H as (res & -> & Hres); [| done].
    eexists (_ :: res). rewrite <- app_assoc. split; [reflexivity |].
    constructor; [| done]. done.
Qed.

Lemma read_handlers_total arr hs : forall i acc,
  Forall (fun h => Handler.hasQuery h = None) hs ->
  exists out, read_handlers (Some arr) hs i acc = Ok out.
Proof.
  induction hs as [|h hs IH]; intros i acc Hnoq; [by eexists |].
  apply Forall_cons in Hnoq as [Hh Hnoq]. cbn [read_handlers].
  destruct (read_params_total arr (Handler.names h) i ∅) as [params ->].
  rewrite Hh. by apply IH.
Qed.

Lemma level_handlers_no_query routes :
  Forall (fun h => Handler.hasQuery h = None) (map level_handler routes).
Proof. apply Forall_map, Forall_forall. done. Qed.


Lemma sortSolutions_perm rr sols sorted rr' :
  sortSolutions sols rr = (Ok sorted, rr') -> sorted ≡ₚ sols /\ rr' = rr.
Proof.
  unfold sortSolutions. unfold bind at 1. rewrite (foldM_deref rr sols []).
  destruct (deref_all rr sols) as [sts|] eqn:Hsts; [| done]. cbn [app].
  destruct sts as [|x [|y sts]]; try (by intros [= <- <-]).
  destruct (with_types _) as [keyed|] eqn:Hkeyed; [| done].
  intros [= <- <-]. split; [| done].
  rewrite sort_perm, (with_types_fst _ _ Hkeyed). by rewrite (deref_all_fst _ _ _ Hsts).
Qed.

Lemma sortSolutions_total rr sols :
  terminals_typed rr ->
  (forall s, s ∈ sols -> is_terminal rr s = true) ->
  exists sorted, sortSolutions sols rr = (Ok sorted, rr).
Proof.
  intros Htyped Hsols.
  assert (Hsol : forall s, s ∈ sols ->
            exists st, states rr !! s = Some st /\ is_Some (State.handlers st)).
  { intros s Hs. specialize (Hsols s Hs). unfold is_terminal in Hsols.
    destruct (states rr !! s) as [st|]; [| done].
    apply bool_decide_eq_true in Hsols. eauto. }
  destruct (deref_all_Some rr sols) as [sts Hsts].
  { intros s Hs. destruct (Hsol s Hs) as (st & -> & _). eauto. }
  destruct (with_types_Some sts) as [keyed Hkeyed].
  { intros s st Hin. destruct (deref_all_elem _ _ _ _ _ Hsts Hin) as [Hs Hst].
    destruct (Hsol s Hs) as (st' & Hst' & Hh). rewrite Hst in Hst'.
    injection Hst' as <-. eapply Htyped; eauto. }
  unfold sortSolutions. unfold bind at 1. rewrite (foldM_deref rr sols []), Hsts.
  cbn [app]. destruct sts as [|x [|y sts]]; try (by eexists).
  rewrite Hkeyed. by eexists.
Qed.

(** What stands behind an answer of [recognize]: a terminal state, the
    levels [add] ended there for, and the segments of the path matched by
    the keys of these levels. *)
Lemma recognize_inversion (P : list Route.t -> Prop) rr path res rr' :
  trie_wf rr -> tree_inv rr -> terminals_registered P rr ->
  recognize path rr = (Ok (Some res), rr') ->
  exists s st routes,
    P routes /\ terminal_of_chain rr s st routes /\ states rr !! s = Some st /\
    Forall2 (fun key segment => string_matches segment (Some key) = Ok true)
      (chain_keys routes) (path_segments path) /\
    findHandler st (normalize path) = Ok res.
Proof.
  intros Hwf Htree Hreg. rewrite recognize_candidates, (candidates_exact rr path Hwf).
  set (sols := filter _ _). unfold bind at 1.
  destruct (sortSolutions sols rr) as [[sorted|e] rr1] eqn:Hsort; [| done].
  apply sortSolutions_perm in Hsort as [Hperm ->].
  destruct sorted as [|s sorted]; [done |].
  assert (Hs : s ∈ sols) by (rewrite <- Hperm; by left).
  apply list_elem_of_filter in Hs as [Hterm Hwalk]. unfold is_terminal in Hterm.
  unfold bind at 1. unfold deref at 1.
  destruct (states rr !! s) as [st|] eqn:Hst; [| done].
  rewrite Hterm. apply bool_decide_eq_true in Hterm.
  unfold bind, lift. destruct (findHandler st (normalize path)) as [r|e] eqn:Hfind; [| done].
  intros [= <- <-].
  destruct (Hreg s st Hst Hterm) as (routes & HP & Hspec).
  apply walk_sound in Hwalk as (s0 & keys & Hs0 & Hpath & Hall); [| done].
  apply list_elem_of_singleton in Hs0 as ->.
  assert (keys = chain_keys routes) as ->.
  { eapply trie_path_unique; [done | exact Hpath | apply Hspec]. }
  exists s, st, routes. done.
Qed.

(** On clean levels [recognize] returns. *)
Lemma recognize_progress (P : list Route.t -> Prop) rr path :
  trie_wf rr -> tree_inv rr -> terminals_typed rr -> terminals_registered P rr ->
  (forall routes, P routes -> clean_chain routes) ->
  exists o,
    recognize path rr = (Ok o, rr) /\
    (o = None <->
     filter (fun s => is_terminal rr s = true)
       (walk rr [rootState rr] (path_segments path)) = []).
Proof.
  intros Hwf Htree Htyped Hreg Hclean.
  rewrite recognize_candidates, (candidates_exact rr path Hwf).
  set (sols := filter _ _).
  destruct (sortSolutions_total rr sols Htyped) as [sorted Hsort].
  { intros s Hs. by apply list_elem_of_filter in Hs as [? _]. }
  pose proof (sortSolutions_perm _ _ _ _ Hsort) as [Hperm _].
  run_bind Hsort. destruct sorted as [|s sorted].
  { apply Permutation_nil_l in Hperm. exists None. by rewrite <- Hperm. }
  assert (Hs : s ∈ sols) by (rewrite <- Hperm; by left).
  assert (Hne : sols ≠ []) by (intros Hnil; rewrite Hnil in Hs; by apply elem_of_nil in Hs).
  apply list_elem_of_filter in Hs as [Hterm Hwalk]. unfold is_terminal in Hterm.
  unfold bind at 1. unfold deref at 1.
  destruct (states rr !! s) as [st|] eqn:Hst; [| done].
  rewrite Hterm. apply bool_decide_eq_true in Hterm.
  destruct (Hreg s st Hst Hterm) as (routes & HP & Hroutes & Hpath' & Hh & Hre & Hty).
  apply walk_sound in Hwalk as (s0 & keys & Hs0 & Hpath & Hall); [| done].
  apply list_elem_of_singleton in Hs0 as ->.
  assert (keys = chain_keys routes) as ->.
  { eapply trie_path_unique; [done | exact Hpath | exact Hpath']. }
  pose proof (chain_regex_matches routes _ Hroutes (Hclean _ HP) Hall) as [arr Harr].
  rewrite path_segments_flat in Harr.
  destruct (read_handlers_total arr (map level_handler routes) 1 []
              (level_handlers_no_query routes)) as [out Hout].
  exists (Some out). split; [| done].
  unfold bind, lift, findHandler. rewrite Hh, Hre. unfold match_regex. rewrite Harr, Hout.
  reflexivity.
Qed.

Lemma built_invariants (P : list Route.t -> Prop)
  (calls : list (list Route.t * option (list ascii))) :
  Forall (fun call : list Route.t * option (list ascii) => fst call ≠ [] -> P (fst call))
    calls ->
  let rr := run_adds calls RouteRecognizer_new in
  trie_wf rr /\ tree_inv rr /\ terminals_typed rr /\ terminals_registered P rr.
Proof.
  intros Hall rr. split; [| split; [| split]].
  - apply run_adds_wf, trie_wf_new.
  - apply run_adds_tree, tree_inv_new.
  - apply run_adds_typed, terminals_typed_new.
  - apply run_adds_registered;
      [apply trie_wf_new | apply terminals_registered_new | done].
Qed.

Lemma calls_registered (calls : list (list Route.t * option (list ascii))) :
  Forall (fun call : list Route.t * option (list ascii) =>
            fst call ≠ [] -> exists options, (fst call, options) ∈ calls) calls.
Proof.
  apply Forall_forall. intros [routes options] Hin _. eauto.
Qed.

(** In a recognizer built by any sequence of [add] calls, the terminal
    states left when [recognize] has consumed a path are those a way leads
    to from the root, with one edge for each segment of the path, the key
    of the edge matching the segment. So a segment of a template, a star
    segment too, stands for one segment of the path. *)
Theorem candidates_are_the_terminals_reached
  (calls : list (list Route.t * option (list ascii))) (path : list ascii) :
  let rr := run_adds calls RouteRecognizer_new in
  exists sols,
    candidates path rr = (Ok sols, rr) /\
    forall s,
      s ∈ sols <->
      is_terminal rr s = true /\
      exists keys,
        trie_path (states rr) (rootState rr) keys s /\
        Forall2 (fun key segment => string_matches segment (Some key) = Ok true)
          keys (path_segments path).
Proof.
  intros rr.
  destruct (built_invariants (fun _ => True) calls) as (Hwf & Htree & _).
  { apply Forall_forall. done. }
  fold rr in Hwf, Htree. eexists. split; [by apply candidates_exact |].
  intros s. rewrite list_elem_of_filter. split.
  - intros [Hterm Hwalk]. split; [done |].
    apply walk_sound in Hwalk as (s0 & keys & Hs0 & Hpath & Hall); [| done].
    apply list_elem_of_singleton in Hs0 as ->. eauto.
  - intros [Hterm (keys & Hpath & Hall)]. split; [done |].
    eapply walk_complete; [exact Hpath | by left | done].
Qed.

(** In a recognizer built by [add] calls whose templates hold no [^] and
    no [$], [recognize] returns for every path; it returns [undefined] when
    no terminal state is left after the path, and an answer otherwise. *)
Theorem recognize_returns_on_clean_templates
  (calls : list (list Route.t * option (list ascii))) (path : list ascii) :
  Forall (fun call : list Route.t * option (list ascii) => clean_chain (fst call)) calls ->
  let rr := run_adds calls RouteRecognizer_new in
  exists o sols,
    candidates path rr = (Ok sols, rr) /\
    recognize path rr = (Ok o, rr) /\
    (o = None <-> sols = []).
Proof.
  intros Hclean rr.
  destruct (built_invariants clean_chain calls) as (Hwf & Htree & Htyped & Hreg).
  { eapply Forall_impl; [exact Hclean |]. auto. }
  fold rr in Hwf, Htree, Htyped, Hreg.
  destruct (recognize_progress clean_chain rr path Hwf Htree Htyped Hreg) as (o & Hrec & Ho);
    [done |].
  exists o. eexists. split; [by apply candidates_exact |]. done.
Qed.

Lemma recognize_returns_on_clean_templates_witness :
  let rr := run_adds [([Examples.level "/posts/:id" "post"], None)] RouteRecognizer_new in
  exists o sols,
    candidates (str "/posts/5") rr = (Ok sols, rr) /\
    recognize (str "/posts/5") rr = (Ok o, rr) /\
    (o = None <-> sols = []).
Proof.
  apply (recognize_returns_on_clean_templates
           [([Examples.level "/posts/:id" "post"], None)] (str "/posts/5")).
  repeat constructor; apply (bool_decide_unpack _); vm_compute; exact I.
Defined.

(** An answer of [recognize], in a recognizer built by any sequence of
    [add] calls, is made from the levels of one of the calls: it has one
    entry for each level, in order, with the handler of the level,
    parameters under the names of its template and under no other, and an
    empty query; and the keys of these levels match the segments of the
    path one by one. A parameter named [__proto__] is the exception: the
    assignment of its capture is ignored and [params] has no property for
    it. *)
Theorem an_answer_is_a_registered_chain
  (calls : list (list Route.t * option (list ascii))) (path : list ascii)
  (res : list Result.t) :
  let rr := run_adds calls RouteRecognizer_new in
  recognize path rr = (Ok (Some res), rr) ->
  exists routes options,
    (routes, options) ∈ calls /\
    Forall2 (fun r route =>
               Result.handler r = Route.handler route /\
               dom (Result.params r) =
                 list_to_set (own_names (template_names (Route.path route))) /\
               Result.isDynamic r =
                 negb (bool_decide (length (template_names (Route.path route)) = 0)) /\
               Result.query r = ∅)
      res routes /\
    Forall2 (fun key segment => string_matches segment (Some key) = Ok true)
      (chain_keys routes) (path_segments path).
Proof.
  intros rr Hrec.
  destruct (built_invariants
              (fun routes => exists options, (routes, options) ∈ calls) calls
              (calls_registered calls)) as (Hwf & Htree & _ & Hreg).
  fold rr in Hwf, Htree, Hreg.
  destruct (recognize_inversion _ rr path res rr Hwf Htree Hreg Hrec)
    as (s & st & routes & [options Hin] & (_ & _ & Hh & _) & _ & Hall & Hfind).
  exists routes, options. split; [done |]. split; [| done].
  unfold findHandler in Hfind. rewrite Hh in Hfind.
  apply read_handlers_sound in Hfind as (res' & -> & Hres);
    [| apply level_handlers_no_query].
  cbn [app]. change (map level_handler routes) with (level_handler <$> routes) in Hres.
  rewrite Forall2_fmap_r in Hres.
  eapply Forall2_impl; [exact Hres |]. intros r route Hr. exact Hr.
Qed.

Lemma an_answer_is_a_registered_chain_witness :
  let calls : list (list Route.t * option (list ascii)) :=
    [([Examples.level "/posts" "posts"; Examples.level "/:id" "post"], None)] in
  let res := [Result.mk (str "posts") ∅ false ∅;
              Result.mk (str "post") {[ str "id" := VUndefined ]} true ∅] in
  exists routes options,
    (routes, options) ∈ calls /\
    Forall2 (fun r route =>
               Result.handler r = Route.handler route /\
               dom (Result.params r) =
                 list_to_set (own_names (template_names (Route.path route))) /\
               Result.isDynamic r =
                 negb (bool_decide (length (template_names (Route.path route)) = 0)) /\
               Result.query r = ∅)
      res routes /\
    Forall2 (fun key segment => string_matches segment (Some key) = Ok true)
      (chain_keys routes) (path_segments (str "/posts/5")).
Proof.
  apply (an_answer_is_a_registered_chain
           [([Examples.level "/posts" "posts"; Examples.level "/:id" "post"], None)]
           (str "/posts/5")).
  vm_compute. reflexivity.
Defined.

(** Without the condition on the templates [recognize] may throw: a [$]
    in a static segment is matched by the key of its state, which ends
    there, and not by the whole expression, so that the captures are
    [null] when the parameters are read. *)
Lemma a_dollar_in_a_template_makes_recognize_throw :
  fst (recognize (str "/a/5")
         (run_adds [([Examples.level "/a$/:id" "h"], None)] RouteRecognizer_new)) =
  Throw TypeError.
Proof. vm_compute. reflexivity. Qed.

(** ** The round trip of a registered route *)






(** ** The route DSL *)

(** *** Objects *)

Lemma obj_get_elem {V} k (v : V) o : obj_get k o = Some v -> (k, v) ∈ o.
Proof.
  induction o as [|[k' v'] o IH]; [done |]. simpl. case_bool_decide as Hk.
  - intros [= <-]. subst k'. by left.
  - intros H. right. by apply IH.
Qed.

Lemma obj_set_elem {V} k (v : V) o k0 v0 :
  (k0, v0) ∈ obj_set k v o -> (k0 = k /\ v0 = v) \/ (k0, v0) ∈ o.
Proof.
  induction o as [|[k' v'] o IH]; simpl.
  - intros H. apply list_elem_of_singleton in H as [= -> ->]. by left.
  - case_bool_decide as Hk.
    + intros H. apply elem_of_cons in H as [[= -> ->] | H]; [by left |].
      right. by right.
    + intros H. apply elem_of_cons in H as [[= -> ->] | H]; [right; by left |].
      destruct (IH H) as [? | ?]; [by left | right; by right].
Qed.

(** *** [addRoute] *)

Lemma addRoute_len routeArray :
  foldl (fun len route => len + length (Route.path route)) 0 routeArray =
  length (full_path routeArray).
Proof.
  unfold full_path.
  assert (H : forall n, foldl (fun len route => len + length (Route.path route)) n routeArray =
                        n + length (concat (map Route.path routeArray))).
  { induction routeArray as [|r ra IH]; intros n; simpl; [lia |].
    rewrite IH, length_app. lia. }
  by rewrite H.
Qed.

Lemma addRoute_full_path routeArray path handler :
  full_path (addRoute routeArray path handler) =
  full_path routeArray ++ drop (length (full_path routeArray)) path.
Proof.
  unfold addRoute. rewrite addRoute_len. unfold full_path.
  rewrite map_app, concat_app. simpl. by rewrite app_nil_r.
Qed.

Lemma addRoute_prefix routeArray path handler :
  full_path routeArray `prefix_of` path ->
  full_path (addRoute routeArray path handler) = path.
Proof.
  intros [rest ->]. rewrite addRoute_full_path. by rewrite drop_app_length.
Qed.

(** *** The nesting bounds the recursion of [eachRoute] *)

Lemma height_child k child matcher :
  (k, child) ∈ Matcher.children matcher -> height child < height matcher.
Proof.
  destruct matcher as [routes children target]. simpl. intros H.
  induction children as [|[k' c'] children IH]; [by apply elem_of_nil in H |].
  apply elem_of_cons in H as [[= <- <-] | H]; simpl; [lia |].
  specialize (IH H). lia.
Qed.

Lemma foldM_ext {A B} (f g : B -> A -> M B) (l : list A) :
  (forall b a rr, a ∈ l -> f b a rr = g b a rr) ->
  forall b rr, foldM f b l rr = foldM g b l rr.
Proof.
  induction l as [|a l IH]; intros Hfg b rr; [done |].
  cbn [foldM]. unfold bind. rewrite Hfg by (by left).
  destruct (g b a rr) as [[b'|e] rr']; [| done].
  apply IH. intros b0 a0 rr0 Ha0. apply Hfg. by right.
Qed.

Lemma eachRoute_loop_fuel callback fuel : forall baseRoute matcher rr,
  height matcher <= fuel ->
  eachRoute_loop fuel baseRoute matcher callback rr =
  eachRoute_loop (height matcher) baseRoute matcher callback rr.
Proof.
  induction fuel as [fuel IH] using lt_wf_ind. intros baseRoute matcher rr Hfuel.
  destruct fuel as [|fuel]; [destruct matcher; simpl in Hfuel; lia |].
  destruct (height matcher) as [|h] eqn:Hh; [destruct matcher; simpl in Hh; lia |].
  cbn [eachRoute_loop]. apply foldM_ext. intros [] [k handler] rr0 Hin. cbn [fst snd].
  destruct (obj_get k (Matcher.children matcher)) as [child|] eqn:Hchild; [| done].
  apply obj_get_elem, height_child in Hchild.
  rewrite (IH fuel) by lia. rewrite (IH h) by lia. done.
Qed.

(** [eachRoute] as the source writes it. *)
Lemma eachRoute_unfold baseRoute matcher callback rr :
  eachRoute baseRoute matcher callback rr =
  foldM (fun _ property =>
           let routeArray := addRoute baseRoute (fst property) (snd property) in
           match obj_get (fst property) (Matcher.children matcher) with
           | Some child => eachRoute routeArray child callback
           | None => callback routeArray
           end)
    tt (Matcher.routes matcher) rr.
Proof.
  unfold eachRoute at 1.
  destruct (height matcher) as [|h] eqn:Hh; [destruct matcher; simpl in Hh; lia |].
  cbn [eachRoute_loop]. apply foldM_ext. intros [] [k handler] rr0 Hin. cbn [fst snd].
  destruct (obj_get k (Matcher.children matcher)) as [child|] eqn:Hchild; [| done].
  apply obj_get_elem, height_child in Hchild.
  unfold eachRoute. apply eachRoute_loop_fuel. lia.
Qed.

Lemma flat_map_ext_elem {A B} (f g : A -> list B) (l : list A) :
  (forall a, a ∈ l -> f a = g a) -> flat_map f l = flat_map g l.
Proof.
  induction l as [|a l IH]; intros Hfg; [done |]. simpl.
  rewrite Hfg by (by left). f_equal. apply IH. intros a0 Ha0. apply Hfg. by right.
Qed.

Lemma leaves_loop_fuel fuel : forall baseRoute matcher,
  height matcher <= fuel ->
  leaves_loop fuel baseRoute matcher = leaves_loop (height matcher) baseRoute matcher.
Proof.
  induction fuel as [fuel IH] using lt_wf_ind. intros baseRoute matcher Hfuel.
  destruct fuel as [|fuel]; [destruct matcher; simpl in Hfuel; lia |].
  destruct (height matcher) as [|h] eqn:Hh; [destruct matcher; simpl in Hh; lia |].
  cbn [leaves_loop]. apply flat_map_ext_elem. intros [k handler] Hin. cbn [fst snd].
  destruct (obj_get k (Matcher.children matcher)) as [child|] eqn:Hchild; [| done].
  apply obj_get_elem, height_child in Hchild.
  rewrite (IH fuel) by lia. rewrite (IH h) by lia. done.
Qed.

Lemma leaves_unfold baseRoute matcher :
  leaves baseRoute matcher =
  flat_map (fun property =>
              let routeArray := addRoute baseRoute (fst property) (snd property) in
              match obj_get (fst property) (Matcher.children matcher) with
              | Some child => leaves routeArray child
              | None => [routeArray]
              end)
    (Matcher.routes matcher).
Proof.
  unfold leaves at 1.
  destruct (height matcher) as [|h] eqn:Hh; [destruct matcher; simpl in Hh; lia |].
  cbn [leaves_loop]. apply flat_map_ext_elem. intros [k handler] Hin. cbn [fst snd].
  destruct (obj_get k (Matcher.children matcher)) as [child|] eqn:Hchild; [| done].
  apply obj_get_elem, height_child in Hchild.
  unfold leaves. apply leaves_loop_fuel. lia.
Qed.

Lemma leaf_paths_loop_fuel fuel : forall matcher,
  height matcher <= fuel ->
  leaf_paths_loop fuel matcher = leaf_paths_loop (height matcher) matcher.
Proof.
  induction fuel as [fuel IH] using lt_wf_ind. intros matcher Hfuel.
  destruct fuel as [|fuel]; [destruct matcher; simpl in Hfuel; lia |].
  destruct (height matcher) as [|h] eqn:Hh; [destruct matcher; simpl in Hh; lia |].
  cbn [leaf_paths_loop]. apply flat_map_ext_elem. intros [k handler] Hin. cbn [fst snd].
  destruct (obj_get k (Matcher.children matcher)) as [child|] eqn:Hchild; [| done].
  apply obj_get_elem, height_child in Hchild.
  rewrite (IH fuel) by lia. rewrite (IH h) by lia. done.
Qed.

Lemma leaf_paths_unfold matcher :
  leaf_paths matcher =
  flat_map (fun property =>
              match obj_get (fst property) (Matcher.children matcher) with
              | Some child => leaf_paths child
              | None => [fst property]
              end)
    (Matcher.routes matcher).
Proof.
  unfold leaf_paths at 1.
  destruct (height matcher) as [|h] eqn:Hh; [destruct matcher; simpl in Hh; lia |].
  cbn [leaf_paths_loop]. apply flat_map_ext_elem. intros [k handler] Hin. cbn [fst snd].
  destruct (obj_get k (Matcher.children matcher)) as [child|] eqn:Hchild; [| done].
  apply obj_get_elem, height_child in Hchild.
  unfold leaf_paths. apply leaf_paths_loop_fuel. lia.
Qed.

Lemma foldM_app {A B} (f : B -> A -> M B) (l1 l2 : list A) : forall b rr,
  foldM f b (l1 ++ l2) rr = (let* b' := foldM f b l1 in foldM f b' l2) rr.
Proof.
  induction l1 as [|a l1 IH]; intros b rr; [done |].
  cbn [app foldM]. unfold bind.
  destruct (f b a rr) as [[b'|e] rr']; [| done]. rewrite IH. done.
Qed.

(** [eachRoute] calls its callback on the route arrays of the matcher, in
    order, until one of the calls throws. *)
Lemma eachRoute_leaves callback : forall matcher baseRoute rr,
  eachRoute baseRoute matcher callback rr =
  foldM (fun _ routeArray => callback routeArray) tt (leaves baseRoute matcher) rr.
Proof.
  intros matcher. remember (height matcher) as h eqn:Hh.
  revert matcher Hh. induction h as [h IH] using lt_wf_ind. intros matcher -> baseRoute rr.
  rewrite eachRoute_unfold, leaves_unfold.
  assert (Hin : forall p, p ∈ Matcher.routes matcher -> p ∈ Matcher.routes matcher) by done.
  revert Hin rr. generalize (Matcher.routes matcher) at 1 3 4.
  induction l as [|[k handler] l IHl]; intros Hin rr; [done |].
  cbn [foldM flat_map fst snd]. rewrite foldM_app. unfold bind.
  destruct (obj_get k (Matcher.children matcher)) as [child|] eqn:Hchild.
  - pose proof (height_child _ _ _ (obj_get_elem _ _ _ Hchild)) as Hlt.
    rewrite (IH (height child) Hlt child eq_refl).
    destruct (foldM _ tt (leaves _ child) rr) as [[[]|e] rr']; [| done].
    apply IHl. intros p Hp. apply Hin. by right.
  - cbn [foldM]. unfold bind.
    destruct (callback _ rr) as [[[]|e] rr']; [| done].
    unfold ret. apply IHl. intros p Hp. apply Hin. by right.
Qed.

(** *** The calls of a callback *)

Lemma call_nested_ind (P : call -> Prop) :
  (forall path target, P (CallTo path target None)) ->
  (forall path target arity body,
      Forall P body -> P (CallTo path target (Some (arity, body)))) ->
  (forall path body, Forall P body -> P (CallNested path body)) ->
  forall c, P c.
Proof.
  intros Hto Hcb Hnested. fix IH 1. intros [path target [[arity body]|] | path body].
  - apply Hcb. induction body as [|c body IHbody]; constructor; [apply IH | exact IHbody].
  - apply Hto.
  - apply Hnested. induction body as [|c body IHbody]; constructor; [apply IH | exact IHbody].
Qed.

Lemma run_call_nested fuel delegate startingPath path body matcher :
  run_call fuel delegate startingPath (CallNested path body) matcher =
  run_calls (run_call fuel delegate) (startingPath ++ path) body matcher.
Proof. destruct fuel; reflexivity. Qed.

Lemma run_call_to fuel delegate startingPath path target matcher :
  run_call fuel delegate startingPath (CallTo path target None) matcher =
  Some (Ok (Matcher_add (startingPath ++ path)
              (will_add delegate (Matcher.target matcher) target) matcher)).
Proof. destruct fuel; reflexivity. Qed.

Lemma run_call_to_zero fuel delegate startingPath path target body matcher :
  run_call fuel delegate startingPath (CallTo path target (Some (0, body))) matcher =
  Some (Throw no_argument).
Proof. destruct fuel; reflexivity. Qed.

Lemma run_call_to_unfold fuel delegate startingPath path target arity body matcher :
  run_call fuel delegate startingPath (CallTo path target (Some (arity, body))) matcher =
  let path' := startingPath ++ path in
  let target' := will_add delegate (Matcher.target matcher) target in
  if bool_decide (arity = 0) then Some (Throw no_argument)
  else
    let entered :=
      match delegate with
      | Some d =>
          match contextEntered d with
          | Some f =>
              match fuel with
              | 0 => None
              | S fuel' =>
                  run_calls (run_call fuel' delegate) path' (f target')
                    (Matcher.new (Some target'))
              end
          | None => Some (Ok (Matcher.new (Some target')))
          end
      | None => Some (Ok (Matcher.new (Some target')))
      end in
    match entered with
    | Some (Ok child) =>
        match run_calls (run_call fuel delegate) path' body child with
        | Some (Ok child) =>
            Some (Ok (set_child path' child (Matcher_add path' target' matcher)))
        | other => other
        end
    | other => other
    end.
Proof. destruct fuel; reflexivity. Qed.

(** [to] with a callback, when the delegate has no [contextEntered]. *)
Lemma run_call_to_callback fuel delegate startingPath path target arity body matcher :
  enters_no_context delegate -> arity ≠ 0 ->
  run_call fuel delegate startingPath (CallTo path target (Some (arity, body))) matcher =
  let path := startingPath ++ path in
  let target := will_add delegate (Matcher.target matcher) target in
  match run_calls (run_call fuel delegate) path body (Matcher.new (Some target)) with
  | Some (Ok child) => Some (Ok (set_child path child (Matcher_add path target matcher)))
  | other => other
  end.
Proof.
  intros Hd Harity. rewrite run_call_to_unfold. cbv zeta.
  rewrite bool_decide_false by done.
  destruct delegate as [d|]; simpl in Hd; try rewrite Hd; reflexivity.
Qed.

(** [to] with a callback, in general: what [contextEntered] leaves of the
    nested matcher is what the callback starts from. *)
Lemma run_call_to_entered fuel delegate startingPath path target arity body matcher m' :
  run_call fuel delegate startingPath (CallTo path target (Some (arity, body))) matcher =
    Some (Ok m') ->
  let path := startingPath ++ path in
  let target := will_add delegate (Matcher.target matcher) target in
  exists entered child,
    (entered = Matcher.new (Some target) \/
     exists fuel' calls,
       fuel = S fuel' /\
       run_calls (run_call fuel' delegate) path calls (Matcher.new (Some target)) =
         Some (Ok entered)) /\
    run_calls (run_call fuel delegate) path body entered = Some (Ok child) /\
    m' = set_child path child (Matcher_add path target matcher).
Proof.
  intros Hrun path' target'.
  rewrite run_call_to_unfold in Hrun. cbv zeta in Hrun.
  fold path' target' in Hrun. rename Hrun into Hrun'. case_bool_decide; [done |].
  match type of Hrun' with
  | match ?e with _ => _ end = _ => destruct e as [[entered|?]|] eqn:Hentered; try done
  end.
  destruct (run_calls (run_call fuel delegate) path' body entered) as [[child|?]|] eqn:Hbody;
    try done.
  injection Hrun' as <-. exists entered, child. split; [| done].
  destruct delegate as [d|]; [| injection Hentered as <-; by left].
  destruct (contextEntered d) as [f|]; [| injection Hentered as <-; by left].
  destruct fuel as [|fuel']; [done |]. right. eauto.
Qed.

(** What [to] with a callback throws. *)
Lemma run_call_to_throws fuel delegate startingPath path target arity body matcher e :
  run_call fuel delegate startingPath (CallTo path target (Some (arity, body))) matcher =
    Some (Throw e) ->
  let path := startingPath ++ path in
  let target := will_add delegate (Matcher.target matcher) target in
  e = no_argument \/
  (exists fuel' calls,
      fuel = S fuel' /\
      run_calls (run_call fuel' delegate) path calls (Matcher.new (Some target)) =
        Some (Throw e)) \/
  (exists entered, run_calls (run_call fuel delegate) path body entered = Some (Throw e)).
Proof.
  intros Hrun path' target'.
  rewrite run_call_to_unfold in Hrun. cbv zeta in Hrun.
  fold path' target' in Hrun. rename Hrun into Hrun'. case_bool_decide; [injection Hrun' as <-; by left |].
  match type of Hrun' with
  | match ?e with _ => _ end = _ => destruct e as [[entered|e']|] eqn:Hentered; try done
  end.
  - destruct (run_calls (run_call fuel delegate) path' body entered) as [[child|?]|] eqn:Hbody;
      try done.
    injection Hrun' as <-. right. right. eauto.
  - injection Hrun' as <-. right. left.
    destruct delegate as [d|]; [| done].
    destruct (contextEntered d) as [f|]; [| done].
    destruct fuel as [|fuel']; [done |]. eauto.
Qed.

(** A property the calls keep, one after the other. *)
Lemma run_calls_keep (Q : list ascii -> Matcher.t -> Prop)
  (run : list ascii -> call -> Matcher.t -> option (outcome Matcher.t)) calls :
  Forall (fun c => forall startingPath m m',
              Q startingPath m -> run startingPath c m = Some (Ok m') -> Q startingPath m')
    calls ->
  forall startingPath m m',
    Q startingPath m -> run_calls run startingPath calls m = Some (Ok m') ->
    Q startingPath m'.
Proof.
  induction 1 as [|c calls Hc _ IH]; intros startingPath m m' HQ Hrun; simpl in Hrun.
  - by injection Hrun as <-.
  - destruct (run startingPath c m) as [[m1|?]|] eqn:Hc1; try done.
    eapply IH; [| exact Hrun]. eapply Hc; [exact HQ | exact Hc1].
Qed.

Lemma run_calls_throw
  (run : list ascii -> call -> Matcher.t -> option (outcome Matcher.t)) calls :
  Forall (fun c => forall startingPath m e,
              run startingPath c m = Some (Throw e) -> e = no_argument) calls ->
  forall startingPath m e,
    run_calls run startingPath calls m = Some (Throw e) -> e = no_argument.
Proof.
  induction 1 as [|c calls Hc _ IH]; intros startingPath m e Hrun; simpl in Hrun; [done |].
  destruct (run startingPath c m) as [[m1|e1]|] eqn:Hc1; try done.
  - eapply IH, Hrun.
  - injection Hrun as <-. eapply Hc, Hc1.
Qed.

(** The only exception of the calls is the one of [to]. *)
Lemma run_call_throw delegate fuel : forall c startingPath m e,
  run_call fuel delegate startingPath c m = Some (Throw e) -> e = no_argument.
Proof.
  induction fuel as [fuel IHfuel] using lt_wf_ind.
  induction c as [path target | path target arity body IH | path body IH]
    using call_nested_ind; intros startingPath m e Hrun.
  - by rewrite run_call_to in Hrun.
  - apply run_call_to_throws in Hrun
      as [-> | [(fuel' & calls & -> & Hrun) | (entered & Hrun)]]; [done | |].
    + eapply run_calls_throw, Hrun. apply Forall_forall. intros c _.
      apply IHfuel. lia.
    + eapply run_calls_throw, Hrun. exact IH.
  - rewrite run_call_nested in Hrun. eapply run_calls_throw, Hrun. exact IH.
Qed.

(** *** The paths of a matcher extend its own *)

Lemma based_new base target : based base (Matcher.new target).
Proof. constructor; simpl; intros ? ? H; by apply elem_of_nil in H. Qed.

Lemma based_add base path handler matcher :
  based base matcher -> base `prefix_of` path ->
  based base (Matcher_add path handler matcher).
Proof.
  intros Hb Hp. inversion Hb as [? ? Hroutes Hchildren]; subst.
  constructor; simpl; [| exact Hchildren].
  intros k h Hin. apply obj_set_elem in Hin as [[-> _] | Hin]; [done | eauto].
Qed.

Lemma based_set_child base path child matcher :
  based base matcher -> based path child ->
  based base (set_child path child matcher).
Proof.
  intros Hb Hc. inversion Hb as [? ? Hroutes Hchildren]; subst.
  constructor; simpl; [exact Hroutes |].
  intros k c Hin. apply obj_set_elem in Hin as [[-> ->] | Hin]; [done | eauto].
Qed.

Lemma run_call_based delegate fuel : forall c base startingPath m m',
  based base m /\ base `prefix_of` startingPath ->
  run_call fuel delegate startingPath c m = Some (Ok m') ->
  based base m' /\ base `prefix_of` startingPath.
Proof.
  induction fuel as [fuel IHfuel] using lt_wf_ind.
  induction c as [path target | path target arity body IH | path body IH]
    using call_nested_ind; intros base startingPath m m' [Hb Hp] Hrun.
  - rewrite run_call_to in Hrun. injection Hrun as <-. split; [| done].
    apply based_add; [done |]. by apply prefix_app_r.
  - apply run_call_to_entered in Hrun as (entered & child & Hentered & Hbody & ->).
    split; [| done].
    apply based_set_child; [apply based_add; [done | by apply prefix_app_r] |].
    assert (He : based (startingPath ++ path) entered).
    { destruct Hentered as [-> | (fuel' & calls & -> & Hcalls)]; [apply based_new |].
      eapply (run_calls_keep (fun S m => based (startingPath ++ path) m /\
                                        (startingPath ++ path) `prefix_of` S));
        [| | exact Hcalls].
      - apply Forall_forall. intros c _ S m0 m1. apply IHfuel. lia.
      - split; [apply based_new | done]. }
    eapply (run_calls_keep (fun S m => based (startingPath ++ path) m /\
                                      (startingPath ++ path) `prefix_of` S));
      [| | exact Hbody].
    + eapply Forall_impl; [exact IH |]. intros c Hc S m0 m1. apply Hc.
    + done.
  - rewrite run_call_nested in Hrun. split; [| done].
    eapply (run_calls_keep (fun S m => based base m /\ base `prefix_of` S));
      [| | exact Hrun].
    + eapply Forall_impl; [exact IH |]. intros c Hc S m0 m1. apply Hc.
    + split; [done |]. by apply prefix_app_r.
Qed.

Lemma run_calls_based delegate fuel calls matcher :
  run_calls (run_call fuel delegate) [] calls (Matcher.new None) = Some (Ok matcher) ->
  based [] matcher.
Proof.
  intros Hrun.
  eapply (run_calls_keep (fun S m => based [] m /\ [] `prefix_of` S)); [| | exact Hrun].
  - apply Forall_forall. intros c _ S m0 m1. apply run_call_based.
  - split; [apply based_new | done].
Qed.

(** *** The route arrays of a matcher *)

Lemma leaves_full_path : forall matcher base baseRoute,
  based base matcher -> full_path baseRoute = base ->
  map full_path (leaves baseRoute matcher) = leaf_paths matcher.
Proof.
  intros matcher. remember (height matcher) as h eqn:Hh.
  revert matcher Hh. induction h as [h IH] using lt_wf_ind.
  intros matcher -> base baseRoute Hb Hbase.
  rewrite leaves_unfold, leaf_paths_unfold.
  inversion Hb as [? ? Hroutes Hchildren]; subst.
  assert (Hin : forall p, p ∈ Matcher.routes matcher -> p ∈ Matcher.routes matcher) by done.
  revert Hin. generalize (Matcher.routes matcher) at 1 3 4.
  induction l as [|[k handler] l IHl]; intros Hin; [done |].
  cbn [flat_map fst snd]. rewrite map_app. f_equal; [| apply IHl; intros p Hp; apply Hin; by right].
  assert (Hk : full_path (addRoute baseRoute k handler) = k).
  { apply addRoute_prefix. eapply Hroutes, Hin. by left. }
  destruct (obj_get k (Matcher.children matcher)) as [child|] eqn:Hchild.
  - apply obj_get_elem in Hchild.
    eapply (IH (height child)); [by eapply height_child | done | | exact Hk].
    by eapply Hchildren.
  - simpl. by rewrite Hk.
Qed.

Lemma leaves_nonempty : forall matcher baseRoute,
  Forall (fun routeArray => routeArray ≠ []) (leaves baseRoute matcher).
Proof.
  intros matcher. remember (height matcher) as h eqn:Hh.
  revert matcher Hh. induction h as [h IH] using lt_wf_ind.
  intros matcher -> baseRoute.
  rewrite leaves_unfold.
  assert (Hin : forall p, p ∈ Matcher.routes matcher -> p ∈ Matcher.routes matcher) by done.
  revert Hin. generalize (Matcher.routes matcher) at 1 3.
  induction l as [|[k handler] l IHl]; intros Hin; [constructor |].
  cbn [flat_map fst snd]. apply Forall_app. split; [| apply IHl; intros p Hp; apply Hin; by right].
  destruct (obj_get k (Matcher.children matcher)) as [child|] eqn:Hchild.
  - apply obj_get_elem in Hchild.
    eapply (IH (height child)); [by eapply height_child | done].
  - repeat constructor. unfold addRoute. by destruct baseRoute.
Qed.

(** The default callback of [map], on the route arrays of a matcher. *)
Lemma adds_of_leaves routeArrays : forall rr,
  trie_wf rr -> Forall (fun routeArray => routeArray ≠ []) routeArrays ->
  foldM (fun _ routeArray => add routeArray None) tt routeArrays rr =
  (Ok tt, run_adds (map (fun routeArray => (routeArray, None)) routeArrays) rr).
Proof.
  induction routeArrays as [|routes routeArrays IH]; intros rr Hwf Hne; [done |].
  apply Forall_cons in Hne as [Hne Hall].
  destruct (add_ok routes None rr Hwf Hne) as (fin & st & rr' & Hadd & Hwf' & _).
  cbn [foldM map]. unfold bind, run_adds. cbn [foldl fst snd]. rewrite Hadd. cbn [snd].
  by apply IH.
Qed.

Lemma run_adds_app calls1 calls2 rr :
  run_adds (calls1 ++ calls2) rr = run_adds calls2 (run_adds calls1 rr).
Proof. unfold run_adds. by rewrite foldl_app. Qed.

(** *** Callbacks that register each path once *)

Lemma obj_set_fresh {V} k (v : V) o :
  k ∉ map fst o -> obj_set k v o = o ++ [(k, v)].
Proof.
  induction o as [|[k' v'] o IH]; [done |]. simpl. intros Hk.
  apply not_elem_of_cons in Hk as [Hne Hk].
  rewrite bool_decide_false by congruence. by rewrite IH.
Qed.

Lemma obj_get_fresh {V} k (o : list (list ascii * V)) :
  k ∉ map fst o -> obj_get k o = None.
Proof.
  induction o as [|[k' v'] o IH]; [done |]. simpl. intros Hk.
  apply not_elem_of_cons in Hk as [Hne Hk].
  rewrite bool_decide_false by congruence. by apply IH.
Qed.

Lemma obj_get_snoc_ne {V} k k' (v : V) o :
  k ≠ k' -> obj_get k (o ++ [(k', v)]) = obj_get k o.
Proof.
  intros Hne. induction o as [|[k0 v0] o IH]; simpl.
  - by rewrite bool_decide_false by congruence.
  - by rewrite IH.
Qed.

Lemma obj_get_snoc_fresh {V} k (v : V) o :
  k ∉ map fst o -> obj_get k (o ++ [(k, v)]) = Some v.
Proof.
  induction o as [|[k' v'] o IH]; simpl.
  - intros _. by rewrite bool_decide_true.
  - intros Hk. apply not_elem_of_cons in Hk as [Hne Hk].
    rewrite bool_decide_false by congruence. by apply IH.
Qed.

Lemma leaves_new baseRoute target : leaves baseRoute (Matcher.new target) = [].
Proof. by rewrite leaves_unfold. Qed.

(** The route arrays after one more route, registered under a new path
    with or without a nested matcher. *)
Lemma leaves_snoc baseRoute matcher key handler child :
  key ∉ map fst (Matcher.routes matcher) ->
  map fst (Matcher.children matcher) ⊆ map fst (Matcher.routes matcher) ->
  let routes := Matcher.routes matcher ++ [(key, handler)] in
  let routeArray := addRoute baseRoute key handler in
  leaves baseRoute (Matcher.mk routes (Matcher.children matcher) (Matcher.target matcher)) =
    leaves baseRoute matcher ++ [routeArray] /\
  leaves baseRoute
    (Matcher.mk routes (Matcher.children matcher ++ [(key, child)]) (Matcher.target matcher)) =
    leaves baseRoute matcher ++ leaves routeArray child.
Proof.
  intros Hkey Hsub routes routeArray.
  assert (Hc : key ∉ map fst (Matcher.children matcher)) by (intros H; by apply Hkey, Hsub).
  rewrite !(leaves_unfold _ (Matcher.mk _ _ _)), (leaves_unfold _ matcher).
  cbn [Matcher.routes Matcher.children]. subst routes. rewrite !flat_map_app.
  cbn [flat_map fst snd]. rewrite !app_nil_r.
  rewrite obj_get_fresh by done. rewrite obj_get_snoc_fresh by done.
  split; [done |]. f_equal. apply flat_map_ext_elem. intros [k h] Hin. cbn [fst snd].
  rewrite obj_get_snoc_ne; [done |]. intros ->. apply Hkey.
  apply list_elem_of_fmap. by exists (key, h).
Qed.

Lemma addRoute_level baseRoute base rest handler :
  full_path baseRoute = base ->
  addRoute baseRoute (base ++ rest) handler = baseRoute ++ [Route.mk rest handler].
Proof.
  intros <-. unfold addRoute. rewrite addRoute_len. by rewrite drop_app_length.
Qed.

Section Tidy.
Context (fuel : nat) (delegate : option Delegate).
Hypothesis Hdelegate : enters_no_context delegate.

(** What a call does to a matcher in which its paths are new. *)
Let registers (run : Matcher.t -> option (outcome Matcher.t))
  (base : list ascii) (baseRoute : list Route.t) (m : Matcher.t)
  (new_keys : list (list ascii)) (new_chains : list (list Route.t)) : Prop :=
  NoDup new_keys ->
  full_path baseRoute = base ->
  (forall k, k ∈ new_keys -> base ++ k ∉ map fst (Matcher.routes m)) ->
  map fst (Matcher.children m) ⊆ map fst (Matcher.routes m) ->
  exists m',
    run m = Some (Ok m') /\
    map fst (Matcher.routes m') = map fst (Matcher.routes m) ++ map (app base) new_keys /\
    map fst (Matcher.children m') ⊆ map fst (Matcher.routes m') /\
    Matcher.target m' = Matcher.target m /\
    leaves baseRoute m' = leaves baseRoute m ++ map (app baseRoute) new_chains.

Let call_registers (c : call) : Prop :=
  forall base pre baseRoute m,
    takes_argument c = true -> distinct_keys c = true ->
    registers (run_call fuel delegate (base ++ pre) c) base baseRoute m
      (keys pre c) (chains delegate (Matcher.target m) pre c).

Let calls_register (calls : list call) : Prop :=
  forall base pre baseRoute m,
    forallb takes_argument calls = true -> forallb distinct_keys calls = true ->
    registers (run_calls (run_call fuel delegate) (base ++ pre) calls) base baseRoute m
      (flat_map (keys pre) calls) (flat_map (chains delegate (Matcher.target m) pre) calls).

Lemma calls_register_all calls : Forall call_registers calls -> calls_register calls.
Proof.
  induction 1 as [|c calls Hc _ IH]; intros base pre baseRoute m Harg Hkeys Hnd Hbase Hfresh Hsub.
  - exists m. simpl. rewrite !app_nil_r. done.
  - cbn [forallb] in Harg, Hkeys.
    apply andb_prop in Harg as [Harg1 Harg2]. apply andb_prop in Hkeys as [Hk1 Hk2].
    cbn [flat_map] in *. apply NoDup_app in Hnd as (Hnd1 & Hdisj & Hnd2).
    destruct (Hc base pre baseRoute m Harg1 Hk1 Hnd1 Hbase) as (m1 & Hrun1 & Hr1 & Hs1 & Ht1 & Hl1);
      [intros k Hk; apply Hfresh, elem_of_app; by left | done |].
    destruct (IH base pre baseRoute m1 Harg2 Hk2 Hnd2 Hbase) as (m2 & Hrun2 & Hr2 & Hs2 & Ht2 & Hl2);
      [| done |].
    { intros k Hk. rewrite Hr1. intros Hin. apply elem_of_app in Hin as [Hin | Hin].
      - eapply Hfresh; [| exact Hin]. apply elem_of_app. by right.
      - apply list_elem_of_fmap in Hin as (k' & Heq & Hk').
        apply app_inv_head in Heq as <-. by eapply Hdisj. }
    exists m2. cbn [run_calls]. rewrite Hrun1. split; [exact Hrun2 |].
    split; [by rewrite Hr2, Hr1, map_app, app_assoc |].
    split; [done |]. split; [congruence |].
    rewrite Hl2, Hl1, Ht1, map_app, app_assoc. done.
Qed.

Lemma call_registers_all c : call_registers c.
Proof.
  induction c as [path target | path target arity body IH | path body IH]
    using call_nested_ind;
    intros base pre baseRoute m Harg Hkeys Hnd Hbase Hfresh Hsub; cbn [keys chains] in *.
  - rewrite run_call_to. eexists. split; [reflexivity |].
    assert (Hkey : (base ++ pre) ++ path ∉ map fst (Matcher.routes m)).
    { rewrite <- app_assoc. apply Hfresh. by left. }
    unfold Matcher_add. cbn [Matcher.routes Matcher.children Matcher.target].
    rewrite obj_set_fresh by done.
    split; [rewrite map_app; simpl; by rewrite app_assoc |].
    split; [intros k Hk; rewrite map_app; apply elem_of_app; left; by apply Hsub |].
    split; [done |].
    destruct (leaves_snoc baseRoute m ((base ++ pre) ++ path)
                (will_add delegate (Matcher.target m) target) m Hkey Hsub) as [-> _].
    rewrite <- app_assoc, (addRoute_level _ base) by done. done.
  - cbn [takes_argument distinct_keys] in Harg, Hkeys.
    apply andb_prop in Harg as [Harity Harg]. apply andb_prop in Hkeys as [Hnd' Hkeys].
    apply negb_true_iff, bool_decide_eq_false in Harity.
    apply bool_decide_eq_true in Hnd'.
    assert (Hkey : (base ++ pre) ++ path ∉ map fst (Matcher.routes m)).
    { rewrite <- app_assoc. apply Hfresh. by left. }
    rewrite run_call_to_callback by done. cbv zeta.
    set (key := (base ++ pre) ++ path) in *.
    set (handler := will_add delegate (Matcher.target m) target).
    destruct (calls_register_all body IH key [] (addRoute baseRoute key handler)
                (Matcher.new (Some handler)) Harg Hkeys Hnd')
      as (child & Hrun & _ & _ & _ & Hl).
    { apply addRoute_prefix. rewrite Hbase. subst key. rewrite <- app_assoc.
      by apply prefix_app_r. }
    { intros k _. simpl. apply not_elem_of_nil. }
    { done. }
    rewrite app_nil_r in Hrun. rewrite Hrun. eexists. split; [reflexivity |].
    unfold set_child, Matcher_add. cbn [Matcher.routes Matcher.children Matcher.target].
    rewrite obj_set_fresh by done.
    rewrite obj_set_fresh by (intros H; by apply Hkey, Hsub).
    split; [rewrite map_app; simpl; subst key; by rewrite app_assoc |].
    split.
    { rewrite !map_app. simpl. intros k Hk. apply elem_of_app in Hk as [Hk | Hk].
      - apply elem_of_app. left. by apply Hsub.
      - apply elem_of_app. by right. }
    split; [done |].
    destruct (leaves_snoc baseRoute m key handler child Hkey Hsub) as [_ ->].
    rewrite Hl, leaves_new. cbn [app Matcher.new Matcher.target]. f_equal.
    subst key. rewrite <- app_assoc, (addRoute_level _ base) by done.
    rewrite map_map. apply map_ext. intros chain.
    by rewrite <- app_assoc.
  - cbn [takes_argument distinct_keys] in Harg, Hkeys.
    rewrite run_call_nested, <- app_assoc.
    by apply (calls_register_all body IH base (pre ++ path) baseRoute m).
Qed.

(** A callback whose functions take an argument and register each path
    once fills a new matcher with the route arrays it writes down. *)
Lemma run_calls_chains callback :
  forallb takes_argument callback = true ->
  forallb distinct_keys callback = true ->
  NoDup (flat_map (keys []) callback) ->
  exists matcher,
    run_calls (run_call fuel delegate) [] callback (Matcher.new None) = Some (Ok matcher) /\
    leaves [] matcher = flat_map (chains delegate None []) callback.
Proof.
  intros Harg Hkeys Hnd.
  destruct (calls_register_all callback) with (base := @nil ascii) (pre := @nil ascii)
    (baseRoute := @nil Route.t) (m := Matcher.new None)
    as (matcher & Hrun & _ & _ & _ & Hl); try done.
  - apply Forall_forall. intros c _. apply call_registers_all.
  - intros k _. simpl. apply not_elem_of_nil.
  - exists matcher. split; [exact Hrun |].
    rewrite Hl, leaves_new. simpl. by rewrite map_id.
Qed.

(** A function of no argument passed to [to], anywhere in the callback,
    makes the calls throw; otherwise they return. *)
Lemma run_calls_argument calls : forall startingPath m,
  match run_calls (run_call fuel delegate) startingPath calls m with
  | Some (Ok _) => forallb takes_argument calls = true
  | Some (Throw e) => forallb takes_argument calls = false /\ e = no_argument
  | None => False
  end.
Proof.
  assert (Hlist : forall calls,
    Forall (fun c => forall startingPath m,
              match run_call fuel delegate startingPath c m with
              | Some (Ok _) => takes_argument c = true
              | Some (Throw e) => takes_argument c = false /\ e = no_argument
              | None => False
              end) calls ->
    forall startingPath m,
      match run_calls (run_call fuel delegate) startingPath calls m with
      | Some (Ok _) => forallb takes_argument calls = true
      | Some (Throw e) => forallb takes_argument calls = false /\ e = no_argument
      | None => False
      end).
  { induction 1 as [|c cs Hc _ IH]; intros startingPath m; [done |].
    cbn [run_calls forallb]. specialize (Hc startingPath m).
    destruct (run_call fuel delegate startingPath c m) as [[m1|e]|]; [| | done].
    - rewrite Hc. apply IH.
    - destruct Hc as [-> ->]. done. }
  apply Hlist. apply Forall_forall. intros c _. clear calls.
  induction c as [path target | path target arity body IH | path body IH]
    using call_nested_ind; intros startingPath m.
  - by rewrite run_call_to.
  - cbn [takes_argument]. destruct (decide (arity = 0)) as [-> | Harity].
    + by rewrite run_call_to_zero.
    + rewrite run_call_to_callback by done. cbv zeta.
      rewrite (bool_decide_false (arity = 0)) by done. cbn [negb andb].
      specialize (Hlist body IH (startingPath ++ path)
                    (Matcher.new (Some (will_add delegate (Matcher.target m) target)))).
      destruct (run_calls _ _ body _) as [[child|e]|]; done.
  - rewrite run_call_nested. cbn [takes_argument]. by apply Hlist.
Qed.
End Tidy.

Lemma add_unnamed_keeps_names (N : gmap (list ascii) Named.t) routes :
  preserves (fun rr => names rr = N) (add routes None).
Proof.
  intros rr HP.
  destruct (add_names N routes None rr _ HP eq_refl) as [H | [Hgiven _]]; [exact H | done].
Qed.

Lemma map_routes_adds fuel delegate callback matcher rr :
  trie_wf rr ->
  run_calls (run_call fuel delegate) [] callback (Matcher.new None) = Some (Ok matcher) ->
  map_routes fuel delegate callback None rr =
    Some (Ok tt,
          run_adds (map (fun routeArray => (routeArray, None)) (leaves [] matcher)) rr).
Proof.
  intros Hwf Hrun. unfold map_routes. cbv zeta. rewrite Hrun. f_equal.
  rewrite eachRoute_leaves. apply adds_of_leaves; [done | apply leaves_nonempty].
Qed.

(** When the calls of the callback return and have registered ordinary
    paths only, [map] without an [addRouteCallback] returns, and it leaves
    the recognizer that a call of [add], without a name, for each route
    array of the matcher leaves, in the order [eachRoute] visits them. So a
    recognizer built by [add] and [map] calls is one built by [add]
    calls. *)
Theorem map_is_a_sequence_of_adds (fuel : nat) (delegate : option Delegate)
  (callback : list call) (matcher : Matcher.t)
  (calls : list (list Route.t * option (list ascii))) :
  let rr := run_adds calls RouteRecognizer_new in
  run_calls (run_call fuel delegate) [] callback (Matcher.new None) = Some (Ok matcher) ->
  forallb ordinary_path (matcher_paths matcher) = true ->
  map_routes fuel delegate callback None rr =
    Some (Ok tt,
          run_adds (calls ++ map (fun routeArray => (routeArray, None)) (leaves [] matcher))
            RouteRecognizer_new).
Proof.
  intros rr Hrun _. rewrite run_adds_app.
  apply map_routes_adds; [| done]. apply run_adds_wf, trie_wf_new.
Qed.

Lemma map_is_a_sequence_of_adds_witness :
  let callback :=
    [CallTo (str "/posts") (str "posts")
       (Some (1, [CallTo (str "/:id") (str "post") None;
                  CallTo (str "/new") (str "new") None]));
     CallNested (str "/admin") [CallTo (str "/users") (str "users") None]] in
  let calls : list (list Route.t * option (list ascii)) :=
    [([Examples.level "/about" "about"], Some (str "about"))] in
  map_routes 0 None callback None (run_adds calls RouteRecognizer_new) =
    Some (Ok tt,
          run_adds
            (calls ++
             [([Examples.level "/posts" "posts"; Examples.level "/:id" "post"], None);
              ([Examples.level "/posts" "posts"; Examples.level "/new" "new"], None);
              ([Examples.level "/admin/users" "users"], None)])
            RouteRecognizer_new).
Proof.
  apply (map_is_a_sequence_of_adds 0 None
           [CallTo (str "/posts") (str "posts")
              (Some (1, [CallTo (str "/:id") (str "post") None;
                         CallTo (str "/new") (str "new") None]));
            CallNested (str "/admin") [CallTo (str "/users") (str "users") None]]
           (Matcher.mk
              [(str "/posts", str "posts"); (str "/admin/users", str "users")]
              [(str "/posts",
                Matcher.mk [(str "/posts/:id", str "post"); (str "/posts/new", str "new")]
                  [] (Some (str "posts")))]
              None)
           [([Examples.level "/about" "about"], Some (str "about"))]).
  - vm_compute. reflexivity.
  - vm_compute. reflexivity.
Defined.

(** The level paths of each route array [map] hands on spell, one after
    the other, the full path under which the route was registered: what
    [addRoute] cuts off a path is what the levels before it hold. This
    holds for every callback and delegate. *)
Theorem the_levels_of_a_route_spell_its_path (fuel : nat) (delegate : option Delegate)
  (callback : list call) (matcher : Matcher.t) :
  run_calls (run_call fuel delegate) [] callback (Matcher.new None) = Some (Ok matcher) ->
  map full_path (leaves [] matcher) = leaf_paths matcher.
Proof.
  intros Hrun. eapply leaves_full_path; [| reflexivity].
  eapply run_calls_based, Hrun.
Qed.

Lemma the_levels_of_a_route_spell_its_path_witness :
  let matcher :=
    Matcher.mk
      [(str "/posts", str "posts"); (str "/admin/users", str "users")]
      [(str "/posts",
        Matcher.mk [(str "/posts/:id", str "post"); (str "/posts/new", str "new")]
          [] (Some (str "posts")))]
      None in
  map full_path (leaves [] matcher) = leaf_paths matcher /\
  leaf_paths matcher = [str "/posts/:id"; str "/posts/new"; str "/admin/users"].
Proof.
  split; [| vm_compute; reflexivity].
  apply (the_levels_of_a_route_spell_its_path 0 None
           [CallTo (str "/posts") (str "posts")
              (Some (1, [CallTo (str "/:id") (str "post") None;
                         CallTo (str "/new") (str "new") None]));
            CallNested (str "/admin") [CallTo (str "/users") (str "users") None]]).
  vm_compute. reflexivity.
Defined.

(** With a delegate that has no [contextEntered], or none: when every
    function passed to [to] takes an argument, no callback registers a
    path twice and every path registered is ordinary, [map] returns and has added, by [add] without a name and in
    the order of the calls, the route arrays the callback writes down: one
    for each [to] without a callback, its level after the levels of the
    enclosing [to] calls, the prefixes of [match(path, nestedCallback)]
    put before the path of the level and the handlers passed through
    [willAddRoute]. A [to] whose callback makes no call adds nothing. *)
Theorem map_adds_what_the_callback_writes (fuel : nat) (delegate : option Delegate)
  (callback : list call) (calls : list (list Route.t * option (list ascii))) :
  enters_no_context delegate ->
  forallb takes_argument callback = true ->
  forallb distinct_keys callback = true ->
  NoDup (flat_map (keys []) callback) ->
  forallb ordinary_path (flat_map (paths []) callback) = true ->
  let rr := run_adds calls RouteRecognizer_new in
  map_routes fuel delegate callback None rr =
    Some (Ok tt,
          run_adds
            (calls ++ map (fun routeArray => (routeArray, None))
                        (flat_map (chains delegate None []) callback))
            RouteRecognizer_new).
Proof.
  intros Hd Harg Hkeys Hnd _ rr.
  destruct (run_calls_chains fuel delegate Hd callback Harg Hkeys Hnd)
    as (matcher & Hrun & <-).
  rewrite run_adds_app. apply map_routes_adds; [| done].
  apply run_adds_wf, trie_wf_new.
Qed.

Lemma map_adds_what_the_callback_writes_witness :
  let delegate :=
    Some (Build_Delegate
            (Some (fun context target => default [] context ++ str "." ++ target)) None) in
  let callback :=
    [CallTo (str "/posts") (str "posts")
       (Some (1, [CallTo (str "/:id") (str "post") None;
                  CallTo (str "/new") (str "new") None]));
     CallTo (str "/empty") (str "empty") (Some (1, []));
     CallNested (str "/admin") [CallTo (str "/users") (str "users") None]] in
  map_routes 0 delegate callback None RouteRecognizer_new =
    Some (Ok tt,
          run_adds
            [([Examples.level "/posts" ".posts"; Examples.level "/:id" ".posts.post"], None);
             ([Examples.level "/posts" ".posts"; Examples.level "/new" ".posts.new"], None);
             ([Examples.level "/admin/users" ".users"], None)]
            RouteRecognizer_new).
Proof.
  apply (map_adds_what_the_callback_writes 0
           (Some (Build_Delegate
                    (Some (fun context target => default [] context ++ str "." ++ target))
                    None))
           [CallTo (str "/posts") (str "posts")
              (Some (1, [CallTo (str "/:id") (str "post") None;
                         CallTo (str "/new") (str "new") None]));
            CallTo (str "/empty") (str "empty") (Some (1, []));
            CallNested (str "/admin") [CallTo (str "/users") (str "users") None]]
           []).
  - reflexivity.
  - vm_compute. reflexivity.
  - vm_compute. reflexivity.
  - apply (bool_decide_eq_true_1 _). vm_compute. reflexivity.
  - vm_compute. reflexivity.
Defined.

(** With a delegate that has no [contextEntered], or none: a function of
    no argument passed to [to], anywhere in the callback of [map] or in the
    callbacks nested in it, makes [map] throw the error of [to], whatever
    the other calls are, and the recognizer is left as it was. *)
Theorem map_throws_for_a_function_without_argument (fuel : nat)
  (delegate : option Delegate) (callback : list call)
  (addRouteCallback : option (list Route.t -> M unit)) (rr : RouteRecognizer) :
  enters_no_context delegate ->
  forallb takes_argument callback = false ->
  map_routes fuel delegate callback addRouteCallback rr = Some (Throw no_argument, rr).
Proof.
  intros Hd Harg. unfold map_routes. cbv zeta.
  pose proof (run_calls_argument fuel delegate Hd callback [] (Matcher.new None)) as H.
  destruct (run_calls _ _ callback _) as [[matcher|e]|]; [congruence | | done].
  by destruct H as [_ ->].
Qed.

Lemma map_throws_for_a_function_without_argument_witness :
  map_routes 0 None
    [CallTo (str "/about") (str "about") None;
     CallTo (str "/posts") (str "posts")
       (Some (1, [CallTo (str "/:id") (str "post") (Some (0, []))]))]
    None RouteRecognizer_new
  = Some (Throw no_argument, RouteRecognizer_new).
Proof.
  apply (map_throws_for_a_function_without_argument 0 None
           [CallTo (str "/about") (str "about") None;
            CallTo (str "/posts") (str "posts")
              (Some (1, [CallTo (str "/:id") (str "post") (Some (0, []))]))]
           None RouteRecognizer_new).
  - reflexivity.
  - vm_compute. reflexivity.
Defined.

(** [map] without an [addRouteCallback] names no route: whatever the
    callback and the delegate do, and whether [map] returns or throws, the
    registry of names is what it was, so that [generate] and [handlersFor]
    find none of the routes [map] adds. *)
Theorem map_names_no_route (fuel : nat) (delegate : option Delegate)
  (callback : list call) (rr rr' : RouteRecognizer) (o : outcome unit) :
  map_routes fuel delegate callback None rr = Some (o, rr') ->
  names rr' = names rr.
Proof.
  unfold map_routes. cbv zeta.
  destruct (run_calls _ _ callback _) as [[matcher|e]|]; [| by intros [= _ <-] | done].
  intros [= H]. rewrite eachRoute_leaves in H.
  pose proof (preserves_foldM (fun rr0 => names rr0 = names rr)
                (fun (_ : unit) routeArray => add routeArray None)
                (leaves [] matcher)
                (fun _ routeArray => add_unnamed_keeps_names (names rr) routeArray)
                tt rr eq_refl) as Hnames.
  by rewrite H in Hnames.
Qed.

Lemma map_names_no_route_witness :
  let callback := [CallTo (str "/posts") (str "posts") None] in
  exists rr',
    map_routes 0 None callback None RouteRecognizer_new = Some (Ok tt, rr') /\
    names rr' = names RouteRecognizer_new.
Proof.
  eexists. split; [vm_compute; reflexivity |].
  eapply (map_names_no_route 0 None [CallTo (str "/posts") (str "posts") None]
            RouteRecognizer_new _ (Ok tt)).
  vm_compute. reflexivity.
Defined.
